(** * Discord-Voice-AI: the voice-activity sink of [main.py]

    A shallow embedding of [ContinuousSink] (the RMS estimate, the
    per-speaker tracker driven by [write], and the utterance pipeline
    [process_audio]) together with the properties of the segmentation
    state machine.

    Python values are modelled as follows.
    - [int] is [Z]; [float] is an IEEE-754 binary64 value, taken from the
      standard library's executable specification [SpecFloat] (round to
      nearest even, as CPython on every supported platform).
    - [bytes] and [bytearray] are [list byte]; both are values here, so the
      snapshot [bytes(buffer)] is the list itself.
    - the dict [user_data] is a [gmap Z user_record], the set
      [speaking_users] a [gset Z].
    - exceptions are explicit: fallible operations return [result]. *)

From Stdlib Require Import ZArith Lia Floats.SpecFloat Strings.Byte Strings.Ascii.
From stdpp Require Import gmap strings list.

Open Scope Z_scope.

(** ** Exceptions *)

(** The exception classes that occur. [CancelledError] and
    [KeyboardInterrupt] derive from [BaseException] only, so a clause
    [except Exception] lets them through. *)
Inductive exn :=
  | StructError
  | KeyError
  | ZeroDivisionError
  | OverflowError
  | ValueError
  | OSError
  | APIError
  | ClientException
  | CancelledError
  | KeyboardInterrupt.

Definition is_Exception (e : exn) : bool :=
  match e with
  | CancelledError | KeyboardInterrupt => false
  | _ => true
  end.

Inductive result (A : Type) :=
  | Ok (a : A)
  | Raise (e : exn).
Arguments Ok {A} a.
Arguments Raise {A} e.

#[global] Instance result_ret : MRet result := λ A a, Ok a.
#[global] Instance result_bind : MBind result := λ A B k m,
  match m with
  | Ok a => k a
  | Raise e => Raise e
  end.

(** [try: body  except Exception: handler]. *)
Definition try_except {A} (body : result A) (handler : exn → result A) : result A :=
  match body with
  | Ok a => Ok a
  | Raise e => if is_Exception e then handler e else Raise e
  end.

(** ** Floats and numbers *)

Module Float.

Definition prec : Z := 53.
Definition emax : Z := 1024.

Abbreviation float := spec_float.

(** An integer as the float of the same value, not yet rounded: the
    operations below round their result, whatever the size of the
    operands' mantissas. *)
Definition exact (n : Z) : float :=
  match n with
  | Z0 => S754_zero false
  | Zpos p => S754_finite false p 0
  | Zneg p => S754_finite true p 0
  end.

(** [float(n)]: the nearest binary64 value. *)
Definition of_int (n : Z) : float := binary_normalize prec emax n 0 false.

Definition mul : float → float → float := SFmul prec emax.
Definition sub : float → float → float := SFsub prec emax.
Definition ltb : float → float → bool := SFltb.

(** [a / b] on two ints (CPython's [long_true_divide]): the exact
    quotient rounded once. *)
Definition int_true_divide (a b : Z) : result float :=
  if b =? 0 then Raise ZeroDivisionError
  else match SFdiv prec emax (exact a) (exact b) with
       | S754_infinity _ => Raise OverflowError
       | q => Ok q
       end.

(** [math.sqrt]. *)
Definition math_sqrt (x : float) : result float :=
  match x with
  | S754_finite true _ _ | S754_infinity true => Raise ValueError
  | _ => Ok (SFsqrt prec emax x)
  end.

(** Comparison of a float with an int; Python compares the two values
    exactly, without converting the int. *)
Definition compare_int (x : float) (n : Z) : option comparison :=
  match x with
  | S754_nan => None
  | S754_infinity s => Some (if s then Lt else Gt)
  | S754_zero _ => Some (0 ?= n)
  | S754_finite s m e =>
      let v := if s then Zneg m else Zpos m in
      Some (match e with
            | Zneg k => v ?= n * 2 ^ Zpos k
            | _ => v * 2 ^ e ?= n
            end)
  end.

End Float.

Import Float.

(** What a Python arithmetic expression of [write] evaluates to. *)
Inductive number :=
  | Int (n : Z)
  | Flt (x : float).

(** [x > n] for a number [x] and an int [n]. *)
Definition gt_int (x : number) (n : Z) : bool :=
  match x with
  | Int m => n <? m
  | Flt f => match compare_int f n with Some Gt => true | _ => false end
  end.

(** [n > x] for an int [n] and a float [x]. *)
Definition int_gt (n : Z) (x : float) : bool :=
  match compare_int x n with Some Lt => true | _ => false end.

(** [x == n] for a number [x] and an int [n]. *)
Definition eq_int (x : number) (n : Z) : bool :=
  match x with
  | Int m => n =? m
  | Flt f => match compare_int f n with Some Eq => true | _ => false end
  end.

(** ** Audio settings *)

Definition SILENCE_THRESHOLD : Z := 500.
(** [1.2]: the binary64 value nearest to 12/10. *)
Definition SILENCE_DURATION : float := S754_finite false 5404319552844595 (-52).
(** [0.5]. *)
Definition MIN_AUDIO_LENGTH : float := S754_finite false 4503599627370496 (-53).

(** [MIN_AUDIO_LENGTH * 48000 * 2 * 2], evaluated left to right in floats. *)
Definition min_audio_bytes : float :=
  mul (mul (mul MIN_AUDIO_LENGTH (of_int 48000)) (of_int 2)) (of_int 2).

(** ** The RMS estimate (lines 48-57 of [write]) *)

Abbreviation bytes := (list byte).

Definition byte_val (b : byte) : Z := Z.of_N (Byte.to_N b).

(** One ["<h"] item: two bytes, little endian, two's complement. *)
Definition int16_le (lo hi : byte) : Z :=
  let u := byte_val lo + 256 * byte_val hi in
  if u <? 32768 then u else u - 65536.

(** [struct.unpack("<" + "h" * count, pcm)]: fails unless [pcm] has exactly
    [2 * count] bytes. *)
Fixpoint struct_unpack_h (count : nat) (pcm : bytes) : result (list Z) :=
  match count, pcm with
  | O, [] => Ok []
  | S n, lo :: hi :: rest =>
      samples ← struct_unpack_h n rest; Ok (int16_le lo hi :: samples)
  | _, _ => Raise StructError
  end.

(** [sum(s * s for s in samples)]. *)
Definition sum_squares (samples : list Z) : Z :=
  foldl (fun acc s => acc + s * s) 0 samples.

(** The [try] block and its [except Exception: rms = 0]. *)
Definition rms (pcm : bytes) : result number :=
  let count := Z.of_nat (length pcm) / 2 in
  try_except
    (samples ← struct_unpack_h (Z.to_nat count) pcm;
     let sum_squares := sum_squares samples in
     if 0 <? count then
       mean ← int_true_divide sum_squares count;
       root ← math_sqrt mean;
       Ok (Flt root)
     else Ok (Int 0))
    (λ _, Ok (Int 0)).

(** The float operations are evaluated by computation only. *)
#[global] Arguments rms : simpl never.
#[global] Arguments gt_int : simpl never.
#[global] Arguments int_gt : simpl never.
#[global] Arguments Float.ltb : simpl never.
#[global] Arguments Float.sub : simpl never.
#[global] Arguments Float.mul : simpl never.
#[global] Arguments Float.of_int : simpl never.
#[global] Arguments min_audio_bytes : simpl never.
#[global] Arguments SILENCE_DURATION : simpl never.

(** ** The sink *)

(** A Python [str]: the sequence of its code points. *)
Abbreviation str := (list Z).

(** An ASCII literal as a [str]. *)
Fixpoint str_of (s : string) : str :=
  match s with
  | EmptyString => []
  | String c rest => Z.of_nat (nat_of_ascii c) :: str_of rest
  end.

Record User := { id : Z; name : str }.

(** [voice_recv.VoiceData]; only the decoded PCM is read. *)
Record VoiceData := { pcm : bytes }.

(** The values of [user_data]: [{'buffer', 'last_spoken', 'processing'}]. *)
Record user_record := {
  buffer : bytes;
  last_spoken : float;
  processing : bool;
}.

Definition set_buffer (r : user_record) (b : bytes) : user_record :=
  {| buffer := b; last_spoken := last_spoken r; processing := processing r |}.
Definition set_last_spoken (r : user_record) (t : float) : user_record :=
  {| buffer := buffer r; last_spoken := t; processing := processing r |}.
Definition set_processing (r : user_record) (p : bool) : user_record :=
  {| buffer := buffer r; last_spoken := last_spoken r; processing := p |}.

(** A [ContinuousSink] with what it reaches through [self]: the playing
    state of [self.voice_client] and the coroutines handed to
    [self.bot.loop] that have not finished yet, oldest first. *)
Record ContinuousSink := {
  user_data : gmap Z user_record;
  speaking_users : gset Z;
  is_playing : bool;
  loop : list (User * bytes);
}.

Definition set_user_data (self : ContinuousSink) (d : gmap Z user_record) : ContinuousSink :=
  {| user_data := d; speaking_users := speaking_users self;
     is_playing := is_playing self; loop := loop self |}.
Definition set_speaking_users (self : ContinuousSink) (s : gset Z) : ContinuousSink :=
  {| user_data := user_data self; speaking_users := s;
     is_playing := is_playing self; loop := loop self |}.
Definition set_is_playing (self : ContinuousSink) (b : bool) : ContinuousSink :=
  {| user_data := user_data self; speaking_users := speaking_users self;
     is_playing := b; loop := loop self |}.
Definition set_loop (self : ContinuousSink) (l : list (User * bytes)) : ContinuousSink :=
  {| user_data := user_data self; speaking_users := speaking_users self;
     is_playing := is_playing self; loop := l |}.

(** [__init__]. *)
Definition init : ContinuousSink :=
  {| user_data := ∅; speaking_users := ∅; is_playing := false; loop := [] |}.

(** [d[k]]. *)
Definition getitem (d : gmap Z user_record) (k : Z) : result user_record :=
  match d !! k with
  | Some r => Ok r
  | None => Raise KeyError
  end.

(** A store into the record object held at [user_data[k]]: the dict sees
    it, since [user_record] is that same object. *)
Definition store (self : ContinuousSink) (k : Z) (r : user_record) : ContinuousSink :=
  set_user_data self (<[k := r]> (user_data self)).

(** [s.remove(k)]. *)
Definition set_remove (s : gset Z) (k : Z) : result (gset Z) :=
  if decide (k ∈ s) then Ok (s ∖ {[k]}) else Raise KeyError.

(** [asyncio.run_coroutine_threadsafe(self.process_audio(user, audio), loop)]. *)
Definition run_coroutine_threadsafe (self : ContinuousSink) (user : User) (audio : bytes)
  : ContinuousSink :=
  set_loop self (loop self ++ [(user, audio)]).

(** [write(self, user, data)]; [now] is what [time.time()] returns. *)
Definition write (self : ContinuousSink) (user : option User) (data : VoiceData)
    (now : float) : result ContinuousSink :=
  match user with
  | None => Ok self
  | Some user =>
    if is_playing self then Ok self else
    let pcm := pcm data in
    rms ← rms pcm;
    let self :=
      if decide (user_data self !! id user = None) then
        store self (id user) {| buffer := []; last_spoken := now; processing := false |}
      else self in
    user_record ← getitem (user_data self) (id user);
    if processing user_record then Ok self else
    if gt_int rms SILENCE_THRESHOLD then
      let user_record := set_buffer user_record (buffer user_record ++ pcm) in
      let user_record := set_last_spoken user_record now in
      let self := store self (id user) user_record in
      Ok (set_speaking_users self (speaking_users self ∪ {[id user]}))
    else
      if decide (id user ∈ speaking_users self) then
        let silence_duration := sub now (last_spoken user_record) in
        if ltb SILENCE_DURATION silence_duration then
          speaking ← set_remove (speaking_users self) (id user);
          let self := set_speaking_users self speaking in
          let '(self, user_record) :=
            if int_gt (Z.of_nat (length (buffer user_record))) min_audio_bytes then
              let audio_copy := buffer user_record in
              let user_record := set_processing user_record true in
              let self := store self (id user) user_record in
              (run_coroutine_threadsafe self user audio_copy, user_record)
            else (self, user_record) in
          Ok (store self (id user) (set_buffer user_record []))
        else Ok self
      else Ok self
  end.

(** ** The utterance pipeline *)

(** How a statement ends: normally, by [return], or by an exception. *)
Inductive completion (A : Type) :=
  | Normal (a : A)
  | Returned
  | Raised (e : exn).
Arguments Normal {A} a.
Arguments Returned {A}.
Arguments Raised {A} e.

(** Statements of [process_audio]: they act on the sink. *)
Definition stmt (A : Type) : Type := ContinuousSink → completion A * ContinuousSink.

#[global] Instance stmt_ret : MRet stmt := λ A a self, (Normal a, self).
#[global] Instance stmt_bind : MBind stmt := λ A B k m self,
  match m self with
  | (Normal a, self) => k a self
  | (Returned, self) => (Returned, self)
  | (Raised e, self) => (Raised e, self)
  end.

(** A call that leaves the sink alone. *)
Definition call {A} (r : result A) : stmt A := λ self,
  match r with
  | Ok a => (Normal a, self)
  | Raise e => (Raised e, self)
  end.

Definition return_ {A} : stmt A := λ self, (Returned, self).
Definition pass : stmt unit := mret tt.

(** [try: body  except Exception as e: handler]. *)
Definition try_except_stmt {A} (body : stmt A) (handler : exn → stmt A) : stmt A := λ self,
  match body self with
  | (Raised e, self) => if is_Exception e then handler e self else (Raised e, self)
  | r => r
  end.

(** [try: body  finally: final]; an exception or a [return] of [final]
    replaces the way [body] ended. *)
Definition try_finally {A} (body : stmt A) (final : stmt unit) : stmt A := λ self,
  let '(c, self) := body self in
  match final self with
  | (Normal _, self) => (c, self)
  | (Returned, self) => (Returned, self)
  | (Raised e, self) => (Raised e, self)
  end.

(** What the collaborators of one run of [process_audio] do: each call
    returns or raises. *)
Record externals := {
  wave_write : result unit;        (* lines 103-108: the WAV container *)
  transcribe : result str;         (* lines 112-118: [transcript.text] *)
  remove_recording : result unit;  (* lines 123-124 *)
  chat : result str;               (* lines 131-139 *)
  synthesize : result unit;        (* lines 146-152 *)
  is_connected : bool;             (* line 155 *)
  play : result unit;              (* line 156 *)
}.

(** White space as [str.strip] has it (CPython's [Py_UNICODE_ISSPACE]):
    the code points of bidirectional type WS, B or S or of category Zs,
    in the ASCII range and beyond (NEL, the no-break space, the spaces of
    U+2000 to U+200A, the line and paragraph separators, ...). *)
Definition is_whitespace (c : Z) : bool :=
  (0x09 <=? c) && (c <=? 0x0D) || (0x1C <=? c) && (c <=? 0x20) ||
  (c =? 0x85) || (c =? 0xA0) || (c =? 0x1680) ||
  (0x2000 <=? c) && (c <=? 0x200A) ||
  (c =? 0x2028) || (c =? 0x2029) || (c =? 0x202F) || (c =? 0x205F) ||
  (c =? 0x3000).

Fixpoint lstrip (s : str) : str :=
  match s with
  | c :: rest => if is_whitespace c then lstrip rest else s
  | [] => []
  end.

(** [s.strip()]. *)
Definition strip (s : str) : str :=
  reverse (lstrip (reverse (lstrip s))).

(** [voice_client.play(source, after=...)]: playback starts. *)
Definition voice_client_play (r : result unit) : stmt unit := λ self,
  match r with
  | Ok _ => (Normal tt, set_is_playing self true)
  | Raise e => (Raised e, self)
  end.

(** The [finally] clause, lines 164-165. *)
Definition release (user : User) : stmt unit := λ self,
  match user_data self !! id user with
  | Some r => (Normal tt, store self (id user) (set_processing r false))
  | None => (Normal tt, self)
  end.

(** Lines 99-159, the body of the outer [try]. The [print] statements
    (lines 100, 118, 120, 139, 141, 159 and 162) are taken to return
    here; [process_audio_printing] below is the coroutine with each of
    them as a call that returns or raises. *)
Definition process_audio_body (user : User) (pcm_data : bytes) (ext : externals) : stmt unit :=
  _ ← call (wave_write ext);
  (* 1. STT *)
  user_text ←
    try_finally
      (try_except_stmt (call (transcribe ext)) (λ _, return_))
      (call (remove_recording ext));
  if bool_decide (user_text = []) || (length (strip user_text) =? 0)%nat
  then return_ else
  (* 2. Chat *)
  bot_reply ← try_except_stmt (call (chat ext)) (λ _, return_);
  (* 3. TTS *)
  try_except_stmt
    (_ ← call (synthesize ext);
     if is_connected ext then voice_client_play (play ext) else pass)
    (λ _, pass).

(** [process_audio(self, user, pcm_data)]: the sink afterwards, and whether
    the coroutine returned or let an exception out. *)
Definition process_audio (self : ContinuousSink) (user : User) (pcm_data : bytes)
    (ext : externals) : result unit * ContinuousSink :=
  let '(c, self) :=
    try_finally
      (try_except_stmt (process_audio_body user pcm_data ext) (λ _, pass))
      (release user) self in
  match c with
  | Raised e => (Raise e, self)
  | _ => (Ok tt, self)
  end.

(** ** The session: frames, the event loop and the player *)

(** What can happen to a sink: the receiver thread delivers a frame, the
    event loop runs one of the submitted coroutines, or the player
    finishes. A coroutine contains no [await] and is run to its end in one
    step; a frame that the receiver thread delivers in between sees either
    the sink as it was before the coroutine or a sink that is playing
    ([process_audio_window] below), so nothing is lost by that. *)
Inductive event :=
  | Frame (user : option User) (data : VoiceData) (now : float)
  | Run (n : nat) (ext : externals)
  | PlaybackEnd.

Definition step (self : ContinuousSink) (ev : event) : option ContinuousSink :=
  match ev with
  | Frame user data now =>
      match write self user data now with
      | Ok self => Some self
      | Raise _ => None
      end
  | Run n ext =>
      match loop self !! n with
      | Some (user, audio) =>
          Some (snd (process_audio (set_loop self (delete n (loop self))) user audio ext))
      | None => None
      end
  | PlaybackEnd => Some (set_is_playing self false)
  end.

Fixpoint run (self : ContinuousSink) (evs : list event) : option ContinuousSink :=
  match evs with
  | [] => Some self
  | ev :: evs =>
      match step self ev with
      | Some self => run self evs
      | None => None
      end
  end.

Definition reachable (self : ContinuousSink) : Prop :=
  ∃ evs, run init evs = Some self.

(** The number of coroutines of speaker [uid] that are outstanding. *)
Definition outstanding (self : ContinuousSink) (uid : Z) : nat :=
  length (filter (λ t, id t.1 = uid) (loop self)).

(** Frames of one speaker, in order of arrival. *)
Fixpoint feed (self : ContinuousSink) (user : User) (frames : list (VoiceData * float))
  : result ContinuousSink :=
  match frames with
  | [] => Ok self
  | (data, now) :: frames =>
      self ← write self (Some user) data now; feed self user frames
  end.

(** The audio of a run of frames, in order. *)
Definition audio_of (frames : list (VoiceData * float)) : bytes :=
  mjoin ((λ f, pcm f.1) <$> frames).

(** The frames of one speaker as events of the session. *)
Definition frames_of (user : User) (frames : list (VoiceData * float)) : list event :=
  (λ f, Frame (Some user) f.1 f.2) <$> frames.

(** A flush is the only place where a speaker leaves [speaking_users]. *)
Definition flushed (before after : ContinuousSink) (uid : Z) : bool :=
  bool_decide (uid ∈ speaking_users before) && bool_decide (uid ∉ speaking_users after).

Fixpoint count_flushes (self : ContinuousSink) (user : User)
    (frames : list (VoiceData * float)) : nat :=
  match frames with
  | [] => 0
  | (data, now) :: frames =>
      match write self (Some user) data now with
      | Ok self' =>
          ((if flushed self self' (id user) then 1 else 0)
           + count_flushes self' user frames)%nat
      | Raise _ => 0%nat
      end
  end.

(** The frame's RMS is above the threshold: line 73. *)
Definition loud (data : VoiceData) : bool :=
  match rms (pcm data) with
  | Ok v => gt_int v SILENCE_THRESHOLD
  | Raise _ => false
  end.

(** [x <= n] for a number and an int. *)
Definition le_int (x : number) (n : Z) : bool :=
  match x with
  | Int m => m <=? n
  | Flt f => match compare_int f n with Some (Lt | Eq) => true | _ => false end
  end.

(** The frame arrives more than [SILENCE_DURATION] after [last]: line 82. *)
Definition expired (now last : float) : bool :=
  ltb SILENCE_DURATION (sub now last).

(** The buffer is long enough to be processed: line 86. *)
Definition long_enough (b : bytes) : bool :=
  int_gt (Z.of_nat (length b)) min_audio_bytes.

(** The record [write] works on: the speaker's, or the one it creates. *)
Definition record_at (self : ContinuousSink) (uid : Z) (now : float) : user_record :=
  default {| buffer := []; last_spoken := now; processing := false |}
          (user_data self !! uid).

#[global] Arguments loud : simpl never.
#[global] Arguments expired : simpl never.
#[global] Arguments long_enough : simpl never.

(** ** One speaker's tracker *)

(** What lines 70-96 do to one record, given whether the speaker is in
    [speaking_users] and whether the frame is loud: the record afterwards,
    the membership afterwards, and the utterance handed over, if any.
    [write_track] below shows that [write] is this function, applied at
    the speaker's entry. *)
Definition track (r : user_record) (speaking : bool) (pcm : bytes) (is_loud : bool)
    (now : float) : user_record * bool * option bytes :=
  if processing r then (r, speaking, None)
  else if is_loud then
    (set_last_spoken (set_buffer r (buffer r ++ pcm)) now, true, None)
  else if speaking && expired now (last_spoken r) then
    if long_enough (buffer r)
    then (set_buffer (set_processing r true) [], false, Some (buffer r))
    else (set_buffer r [], false, None)
  else (r, speaking, None).

Definition apply_track (self : ContinuousSink) (user : User)
    (t : user_record * bool * option bytes) : ContinuousSink :=
  let '(r, speaking, handed) := t in
  {| user_data := <[id user := r]> (user_data self);
     speaking_users :=
       if speaking then speaking_users self ∪ {[id user]}
       else speaking_users self ∖ {[id user]};
     is_playing := is_playing self;
     loop := loop self ++ match handed with Some audio => [(user, audio)] | None => [] end |}.

(** ** Sinks that behave alike *)

(** Two records that [write] cannot tell apart: [last_spoken] is read only
    for a speaker in [speaking_users], and a missing record is replaced by
    an empty one before anything is read. *)
Definition same_tracker (speaking : bool) (o1 o2 : option user_record) : Prop :=
  match o1, o2 with
  | Some r1, Some r2 =>
      buffer r1 = buffer r2 ∧ processing r1 = processing r2 ∧
      (speaking = true → last_spoken r1 = last_spoken r2)
  | None, None => True
  | None, Some r | Some r, None =>
      speaking = false ∧ buffer r = [] ∧ processing r = false
  end.

Definition alike (s1 s2 : ContinuousSink) : Prop :=
  speaking_users s1 = speaking_users s2 ∧
  is_playing s1 = is_playing s2 ∧
  loop s1 = loop s2 ∧
  ∀ uid, same_tracker (bool_decide (uid ∈ speaking_users s1))
                      (user_data s1 !! uid) (user_data s2 !! uid).

(** What an observer of the session sees of a sink: who is marked as
    speaking, the buffered audio and the processing flag of every speaker
    (none and empty for a speaker without a record), playback, and the
    utterances handed over. *)
Definition observe (self : ContinuousSink) (uid : Z) : bool * bytes * bool :=
  (bool_decide (uid ∈ speaking_users self),
   from_option buffer [] (user_data self !! uid),
   from_option processing false (user_data self !! uid)).

(** ** The RMS formula of the specification *)

(** [struct.pack("<h", s)]. *)
Definition pack_h (s : Z) : bytes :=
  let u := s `mod` 65536 in
  [default Byte.x00 (Byte.of_N (Z.to_N (u `mod` 256)));
   default Byte.x00 (Byte.of_N (Z.to_N (u / 256)))].

(** A frame of the given samples: interleaved channels, one after the other. *)
Definition frame_of (samples : list Z) : bytes := mjoin (pack_h <$> samples).

Definition int16 (s : Z) : Prop := -32768 ≤ s ≤ 32767.

(** [sqrt(sum(sample_i^2) / N)], each operation rounded to binary64. *)
Definition rms_formula (samples : list Z) : float :=
  SFsqrt prec emax
    (SFdiv prec emax (exact (foldr (λ s acc, s * s + acc) 0 samples))
                     (exact (Z.of_nat (length samples)))).

(** A float that is zero or positive and finite. *)
Definition finite_nonneg (x : float) : Prop :=
  match x with
  | S754_zero false | S754_finite false _ _ => True
  | _ => False
  end.

(** The same value in exact arithmetic, without the operations of the
    format: [m * 2 ^ e] as the format writes a positive number: a mantissa of 53
    binary digits, or a shorter one at the least exponent. *)
Definition binary64 (m e : Z) : Prop :=
  0 < m < 2 ^ 53 ∧ -1074 ≤ e ≤ 971 ∧ (2 ^ 52 ≤ m ∨ e = -1074).

(** [x] is the quotient [a / b] of two integers rounded to the format:
    a number of the format within half a unit in its last place of
    [a / b]. Both sides are scaled by [2 ^ 1074] and by [2 * b], so that
    the comparison is one of integers. *)
Definition rounded_quotient (a b : Z) (x : float) : Prop :=
  match x with
  | S754_zero false => 2 * a * 2 ^ 1074 ≤ b
  | S754_finite false m e =>
      binary64 (Z.pos m) e ∧
      Z.abs (2 * (Z.pos m * 2 ^ (e + 1074)) * b - 2 * a * 2 ^ 1074) ≤ 2 ^ (e + 1074) * b
  | _ => False
  end.

(** [x] is the square root of [q] rounded to the format:
    [(m - 1/2) * 2 ^ e ≤ sqrt q ≤ (m + 1/2) * 2 ^ e], squared and scaled
    by [4 * 2 ^ (2 * 1074)]. *)
Definition rounded_root (q x : float) : Prop :=
  match q, x with
  | S754_zero false, S754_zero false => True
  | S754_finite false mq eq, S754_finite false m e =>
      binary64 (Z.pos m) e ∧
      (2 * Z.pos m - 1) ^ 2 * 2 ^ (2 * (e + 1074)) ≤ 4 * (Z.pos mq * 2 ^ (eq + 2 * 1074)) ∧
      4 * (Z.pos mq * 2 ^ (eq + 2 * 1074)) ≤ (2 * Z.pos m + 1) ^ 2 * 2 ^ (2 * (e + 1074))
  | _, _ => False
  end.

(** [x] is [sqrt(sum(sample_i^2) / N)] as binary64 arithmetic gives it:
    the root, rounded to the format, of the mean square rounded to the
    format; each rounding is off by half a unit in the last place at
    most. *)
Definition root_mean_square (samples : list Z) (x : float) : Prop :=
  ∃ q, rounded_quotient (foldr (λ s acc, s * s + acc) 0 samples)
                        (Z.of_nat (length samples)) q ∧
       rounded_root q x.

(** What a mantissa [m] with the location [l] stands for: the rational
    [num / den], between [m] and [m + 1], on the side of [m + 1/2] that
    [l] tells. *)
Definition located (num den m : Z) (l : location) : Prop :=
  m * den ≤ num < (m + 1) * den ∧
  match l with
  | loc_Exact => num = m * den
  | loc_Inexact Lt => m * den < num ∧ 2 * (num - m * den) < den
  | loc_Inexact Eq => 2 * (num - m * den) = den
  | loc_Inexact Gt => den < 2 * (num - m * den)
  end.

(** All failures of the collaborators are ordinary exceptions. *)
Definition fails_with_Exception {A} (r : result A) : Prop :=
  match r with
  | Ok _ => True
  | Raise e => is_Exception e = true
  end.

Definition ordinary (ext : externals) : Prop :=
  fails_with_Exception (wave_write ext) ∧ fails_with_Exception (transcribe ext) ∧
  fails_with_Exception (remove_recording ext) ∧ fails_with_Exception (chat ext) ∧
  fails_with_Exception (synthesize ext) ∧ fails_with_Exception (play ext).

(** A statement whose course does not depend on the sink, and which
    leaves the sink alone but for starting playback. *)
Definition starts_playback_only {A} (m : stmt A) : Prop :=
  ∃ (c : completion A) (p : bool),
    ∀ self, m self = (c, set_is_playing self (p || is_playing self)).

(** A statement that raises ordinary exceptions only. *)
Definition raises_Exception_only {A} (m : stmt A) : Prop :=
  ∀ self e, (m self).1 = Raised e → is_Exception e = true.

(** ** The invariant of the session *)

Record sound (self : ContinuousSink) : Prop := {
  (* a speaker marked as speaking has a record, and it is not processing *)
  sound_speaking uid :
    uid ∈ speaking_users self →
    ∃ r, user_data self !! uid = Some r ∧ processing r = false;
  (* the buffer of a speaker who is not marked is empty *)
  sound_idle uid r :
    user_data self !! uid = Some r → uid ∉ speaking_users self → buffer r = [];
  (* no speaker has two coroutines outstanding *)
  sound_once : NoDup ((λ t, id t.1) <$> loop self);
  (* a speaker with a coroutine outstanding is processing *)
  sound_flag u audio :
    (u, audio) ∈ loop self →
    ∃ r, user_data self !! id u = Some r ∧ processing r = true;
}.

(** ** Concrete speakers, frames and collaborators *)

Definition alice : User := {| id := 1; name := str_of "alice" |}.
Definition bob : User := {| id := 2; name := str_of "bob" |}.

(** A frame of [n] samples of the same amplitude. *)
Definition steady (amplitude : Z) (n : nat) : VoiceData :=
  {| pcm := frame_of (replicate n amplitude) |}.

(** The clock at [n] seconds. *)
Definition seconds (n : Z) : float := of_int n.

(** Collaborators that all succeed, with a connected voice client. *)
Definition helpful : externals :=
  {| wave_write := Ok tt; transcribe := Ok (str_of "hello"); remove_recording := Ok tt;
     chat := Ok (str_of "hi"); synthesize := Ok tt; is_connected := true; play := Ok tt |}.

(** Alice has said one loud frame. *)
Definition alice_speaking : ContinuousSink :=
  {| user_data := {[ 1 := {| buffer := pcm (steady 1000 4); last_spoken := seconds 10;
                             processing := false |} ]};
     speaking_users := {[ 1 ]};
     is_playing := false;
     loop := [] |}.

(** Thirty thousand loud samples (60000 bytes), one second of silence,
    thirty thousand loud samples again, and silence two seconds later. *)
Definition interrupted : list (VoiceData * float) :=
  [(steady 1000 30000, seconds 10); (steady 0 4, seconds 11);
   (steady 1000 30000, seconds 12); (steady 0 4, seconds 14)].

(** Alice has said 96004 bytes and fallen silent: her utterance is with
    the event loop. *)
Definition handed_over : ContinuousSink :=
  {| user_data := {[ 1 := {| buffer := []; last_spoken := seconds 10;
                             processing := true |} ]};
     speaking_users := ∅;
     is_playing := false;
     loop := [(alice, pcm (steady 1000 48002))] |}.

(** Alice speaks and falls silent, Bob starts to speak, and the answer to
    Alice starts to play. *)
Definition answering : list event :=
  frames_of alice [(steady 1000 48002, seconds 10); (steady 0 4, seconds 12)] ++
  [Frame (Some bob) (steady 1000 4) (seconds 13); Run 0 helpful].

(** The sink after [answering]. *)
Definition answered : ContinuousSink :=
  {| user_data := {[ 1 := {| buffer := []; last_spoken := seconds 10;
                             processing := false |};
                     2 := {| buffer := pcm (steady 1000 4); last_spoken := seconds 13;
                             processing := false |} ]};
     speaking_users := {[ 2 ]};
     is_playing := true;
     loop := [] |}.

(** Collaborators of which the transcription service fails. *)
Definition deaf : externals :=
  {| wave_write := Ok tt; transcribe := Raise APIError; remove_recording := Ok tt;
     chat := Ok (str_of "hi"); synthesize := Ok tt; is_connected := true; play := Ok tt |}.

(** ** Further notions *)

(** A second invariant of the session. *)
Record tidy (self : ContinuousSink) : Prop := {
  (* a speaker who is processing has a coroutine outstanding *)
  tidy_flag uid r :
    user_data self !! uid = Some r → processing r = true →
    uid ∈ (λ t, id t.1) <$> loop self;
  (* buffers hold whole 16-bit samples *)
  tidy_buffer uid r :
    user_data self !! uid = Some r → Nat.Even (length (buffer r));
  (* so do the utterances handed over, and they are long enough *)
  tidy_loop u audio :
    (u, audio) ∈ loop self →
    Nat.Even (length audio) ∧ 96000 < Z.of_nat (length audio);
  (* a speaker marked as speaking has audio in the buffer *)
  tidy_marked uid :
    uid ∈ speaking_users self →
    ∃ r, user_data self !! uid = Some r ∧ buffer r ≠ [];
}.

(** The loud frames of speaker [uid] among the events, in order of
    arrival. *)
Definition heard (evs : list event) (uid : Z) : list bytes :=
  omap (λ ev, match ev with
              | Frame (Some u) data _ =>
                  if decide (id u = uid) then
                    if loud data then Some (pcm data) else None
                  else None
              | _ => None
              end) evs.

(** Every buffer and every utterance handed over is made of frames of
    [heard], in their order. *)
Definition made_of (evs : list event) (self : ContinuousSink) : Prop :=
  (∀ uid r, user_data self !! uid = Some r →
     ∃ l, l `sublist_of` heard evs uid ∧ buffer r = mjoin l) ∧
  (∀ u audio, (u, audio) ∈ loop self →
     ∃ l, l `sublist_of` heard evs (id u) ∧ audio = mjoin l).

(** A [str] of white space only, the empty one included. *)
Definition blank (s : str) : bool := forallb is_whitespace s.

(** The collaborators of a run that ends in an answer: every call
    succeeds, the transcript is not blank and the voice client is
    connected. *)
Definition answers (ext : externals) : Prop :=
  wave_write ext = Ok tt ∧
  (∃ text, transcribe ext = Ok text ∧ blank text = false) ∧
  remove_recording ext = Ok tt ∧
  (∃ reply, chat ext = Ok reply) ∧
  synthesize ext = Ok tt ∧ is_connected ext = true ∧ play ext = Ok tt.

(** Collaborators of which the transcription is cancelled. *)
Definition cancelled : externals :=
  {| wave_write := Ok tt; transcribe := Raise CancelledError; remove_recording := Ok tt;
     chat := Ok (str_of "hi"); synthesize := Ok tt; is_connected := true; play := Ok tt |}.

(** [process_audio] above takes the [print] statements of the coroutine
    to return. What they do when standard output fails is given by
    [messages]: each of them returns or raises. *)
Record messages := {
  print_start : result unit;       (* line 100 *)
  print_said : result unit;        (* line 118 *)
  print_stt_error : result unit;   (* line 120 *)
  print_reply : result unit;       (* line 139 *)
  print_chat_error : result unit;  (* line 141 *)
  print_tts_error : result unit;   (* line 159 *)
  print_error : result unit;       (* line 162 *)
}.

(** Lines 99-159, every statement that can fail in its place. *)
Definition process_audio_body_printing (user : User) (pcm_data : bytes)
    (ext : externals) (out : messages) : stmt unit :=
  _ ← call (print_start out);
  _ ← call (wave_write ext);
  (* 1. STT *)
  user_text ←
    try_finally
      (try_except_stmt
         (text ← call (transcribe ext); _ ← call (print_said out); mret text)
         (λ _, _ ← call (print_stt_error out); return_))
      (call (remove_recording ext));
  if bool_decide (user_text = []) || (length (strip user_text) =? 0)%nat
  then return_ else
  (* 2. Chat *)
  bot_reply ←
    try_except_stmt
      (reply ← call (chat ext); _ ← call (print_reply out); mret reply)
      (λ _, _ ← call (print_chat_error out); return_);
  (* 3. TTS *)
  try_except_stmt
    (_ ← call (synthesize ext);
     if is_connected ext then voice_client_play (play ext) else pass)
    (λ _, call (print_tts_error out)).

(** [process_audio] with its messages: lines 98-165. *)
Definition process_audio_printing (self : ContinuousSink) (user : User)
    (pcm_data : bytes) (ext : externals) (out : messages)
    : result unit * ContinuousSink :=
  let '(c, self) :=
    try_finally
      (try_except_stmt (process_audio_body_printing user pcm_data ext out)
                       (λ _, call (print_error out)))
      (release user) self in
  match c with
  | Raised e => (Raise e, self)
  | _ => (Ok tt, self)
  end.

(** Standard output works. *)
Definition printed : messages :=
  {| print_start := Ok tt; print_said := Ok tt; print_stt_error := Ok tt;
     print_reply := Ok tt; print_chat_error := Ok tt; print_tts_error := Ok tt;
     print_error := Ok tt |}.

(** Standard output is closed. *)
Definition closed : messages :=
  {| print_start := Raise ValueError; print_said := Raise ValueError;
     print_stt_error := Raise ValueError; print_reply := Raise ValueError;
     print_chat_error := Raise ValueError; print_tts_error := Raise ValueError;
     print_error := Raise ValueError |}.

(** The exception a call raised, if it raised one. *)
Definition failure {A} (r : result A) : option exn :=
  match r with
  | Ok _ => None
  | Raise e => Some e
  end.

(** What the statements of the [try] block of lines 99-159 raised. *)
Definition failures (ext : externals) (out : messages) : list (option exn) :=
  [failure (print_start out); failure (wave_write ext); failure (transcribe ext);
   failure (print_said out); failure (print_stt_error out);
   failure (remove_recording ext); failure (chat ext); failure (print_reply out);
   failure (print_chat_error out); failure (synthesize ext); failure (play ext);
   failure (print_tts_error out)].

(** A binary64 value that is zero or positive and finite, with the bounds
    of the format on its exponent. *)
Definition binary64_nonneg (x : float) : Prop :=
  match x with
  | S754_zero false => True
  | S754_finite false m e => e ≤ 971 ∧ Zdigits2 (Z.pos m) + e ≤ 1024
  | _ => False
  end.

(** A statement that raises nothing but what [L] lists. *)
Definition raises_from {A} (L : list (option exn)) (m : stmt A) : Prop :=
  ∀ self e, (m self).1 = Raised e → Some e ∈ L.

(** * Properties *)

(** ** The constants *)

(** The literals [1.2] and [0.5] denote the binary64 values nearest to
    12/10 and 1/2. *)
Lemma SILENCE_DURATION_literal :
  SILENCE_DURATION = SFdiv prec emax (exact 12) (exact 10).
Proof. vm_compute. reflexivity. Qed.

Lemma MIN_AUDIO_LENGTH_literal :
  MIN_AUDIO_LENGTH = SFdiv prec emax (exact 1) (exact 2).
Proof. vm_compute. reflexivity. Qed.

(** ** The RMS estimate never raises *)

Lemma struct_unpack_h_raise n pcm e :
  struct_unpack_h n pcm = Raise e → e = StructError.
Proof.
  revert pcm. induction n as [|n IH]; intros [|lo [|hi rest]]; simpl; try congruence.
  destruct (struct_unpack_h n rest) as [samples|e'] eqn:E; simpl; [congruence|].
  intros [= <-]. eauto.
Qed.

Lemma struct_unpack_h_length n pcm samples :
  struct_unpack_h n pcm = Ok samples →
  length pcm = (2 * n)%nat ∧ length samples = n.
Proof.
  revert pcm samples. induction n as [|n IH]; intros [|lo [|hi rest]] samples; simpl;
    try congruence.
  - intros [= <-]. done.
  - destruct (struct_unpack_h n rest) as [ss|e'] eqn:E; simpl; [|congruence].
    intros [= <-]. destruct (IH _ _ E) as [H1 H2]. simpl. split; lia.
Qed.

Lemma rms_total pcm : ∃ v, rms pcm = Ok v.
Proof.
  unfold rms.
  destruct (struct_unpack_h _ pcm) as [samples|e] eqn:E; simpl.
  - destruct (0 <? _); simpl; [|eauto].
    unfold int_true_divide. destruct (_ =? 0); simpl; [eauto|].
    destruct (SFdiv _ _ _ _) as [s|[]| |[] m x]; simpl; eauto.
  - apply struct_unpack_h_raise in E as ->. simpl. eauto.
Qed.

Lemma rms_odd pcm : Nat.Odd (length pcm) → rms pcm = Ok (Int 0).
Proof.
  intros Hodd. unfold rms.
  destruct (struct_unpack_h _ pcm) as [samples|e] eqn:E; simpl.
  - apply struct_unpack_h_length in E as [E _]. destruct Hodd as [k Hk]. lia.
  - apply struct_unpack_h_raise in E as ->. done.
Qed.

Lemma loud_false_iff data :
  loud data = false ↔ ∃ v, rms (pcm data) = Ok v ∧ gt_int v SILENCE_THRESHOLD = false.
Proof.
  unfold loud. destruct (rms_total (pcm data)) as [v ->]. split; [eauto|].
  by intros (? & [= <-] & ?).
Qed.

Lemma le_int_not_gt v n : le_int v n = true → gt_int v n = false.
Proof.
  unfold gt_int. destruct v as [m|f]; simpl.
  - intros ?%Z.leb_le. by apply Z.ltb_ge.
  - by destruct (compare_int f n) as [[]|].
Qed.

Lemma eq_int_not_gt v n : eq_int v n = true → gt_int v n = false.
Proof.
  unfold gt_int. destruct v as [m|f]; simpl.
  - intros ?%Z.eqb_eq. apply Z.ltb_ge. lia.
  - by destruct (compare_int f n) as [[]|].
Qed.


(** ** [write] is [track] at the speaker's entry *)

Lemma keep_speaking (S : gset Z) (uid : Z) :
  (if bool_decide (uid ∈ S) then S ∪ {[uid]} else S ∖ {[uid]}) = S.
Proof. case_bool_decide; set_solver. Qed.

Lemma sink_eq ud1 sp1 pl1 lp1 ud2 sp2 pl2 lp2 :
  ud1 = ud2 → sp1 = sp2 → pl1 = pl2 → lp1 = lp2 →
  {| user_data := ud1; speaking_users := sp1; is_playing := pl1; loop := lp1 |} =
  {| user_data := ud2; speaking_users := sp2; is_playing := pl2; loop := lp2 |}.
Proof. by intros -> -> -> ->. Qed.

Local Ltac same_sink :=
  f_equal; apply sink_eq; cbn [user_data speaking_users is_playing loop];
  first [ done | by rewrite insert_id | by rewrite !insert_insert_eq
        | by rewrite app_nil_r | by rewrite keep_speaking | set_solver ].

Lemma write_track self u data now :
  is_playing self = false →
  write self (Some u) data now =
  Ok (apply_track self u
        (track (record_at self (id u) now)
               (bool_decide (id u ∈ speaking_users self)) (pcm data) (loud data) now)).
Proof.
  intros Hplay. unfold write, loud. rewrite Hplay.
  destruct (rms_total (pcm data)) as [v ->].
  cbn [mbind result_bind].
  assert (∃ r, record_at self (id u) now = r ∧
    user_data (if decide (user_data self !! id u = None)
               then store self (id u)
                      {| buffer := []; last_spoken := now; processing := false |}
               else self) !! id u = Some r ∧
    <[id u := r]> (user_data self) =
    user_data (if decide (user_data self !! id u = None)
               then store self (id u)
                      {| buffer := []; last_spoken := now; processing := false |}
               else self)) as (r & -> & Hr & Hud).
  { unfold record_at. destruct (user_data self !! id u) as [r|] eqn:E.
    - exists r. rewrite decide_False by done. by rewrite insert_id.
    - eexists. rewrite decide_True by done. split; [done|].
      cbn [store set_user_data user_data]. by rewrite lookup_insert_eq. }
  set (self1 := if decide (user_data self !! id u = None) then _ else self) in *.
  assert (speaking_users self1 = speaking_users self ∧ loop self1 = loop self ∧
          is_playing self1 = false) as (Hsp & Hlp & Hpl).
  { subst self1. by destruct (decide _). }
  clearbody self1. unfold getitem. rewrite Hr. cbn [mbind result_bind].
  unfold track. destruct r as [b t p]. cbn [buffer last_spoken processing].
  destruct self as [ud sp pl lp], self1 as [ud1 sp1 pl1 lp1].
  cbn [user_data speaking_users is_playing loop] in *. subst.
  destruct p; [by same_sink|].
  unfold store, set_user_data, set_speaking_users, set_buffer, set_last_spoken,
    set_processing, apply_track.
  cbn [user_data speaking_users is_playing loop buffer last_spoken processing].
  destruct (gt_int v SILENCE_THRESHOLD); [by same_sink|].
  fold (expired now t). fold (long_enough b).
  destruct (decide (id u ∈ sp)) as [Hin|Hin].
  - rewrite bool_decide_true by done. cbn [andb].
    destruct (expired now t); [|by same_sink].
    unfold set_remove. rewrite decide_True by done. cbn [mbind result_bind].
    destruct (long_enough b);
      unfold run_coroutine_threadsafe, set_loop;
      cbn [user_data speaking_users is_playing loop buffer last_spoken processing];
      same_sink.
  - rewrite bool_decide_false by done. cbn [andb]. same_sink.
Qed.

Lemma write_None self data now : write self None data now = Ok self.
Proof. done. Qed.

Lemma write_playing self user data now :
  is_playing self = true → write self user data now = Ok self.
Proof. intros H. destruct user; [unfold write; by rewrite H|done]. Qed.

Lemma write_total self user data now : ∃ self', write self user data now = Ok self'.
Proof.
  destruct user as [u|]; [|by eexists].
  destruct (is_playing self) eqn:H.
  - rewrite write_playing by done. eauto.
  - rewrite write_track by done. eauto.
Qed.


(** ** The pipeline *)

Lemma set_is_playing_same self : set_is_playing self (is_playing self) = self.
Proof. by destruct self. Qed.

Section Statements.
Context {A B : Type}.
Implicit Types (m : stmt A) (k : A → stmt B).

Lemma spo_here (c : completion A) : starts_playback_only (λ self, (c, self)).
Proof. exists c, false. intros self. simpl. by rewrite set_is_playing_same. Qed.

Lemma spo_call (r : result A) : starts_playback_only (call r).
Proof. destruct r; apply spo_here. Qed.

Lemma spo_bind m k :
  starts_playback_only m → (∀ a, starts_playback_only (k a)) →
  starts_playback_only (m ≫= k).
Proof.
  intros (c & p & Hm) Hk. unfold mbind, stmt_bind.
  destruct c as [a| |e].
  - destruct (Hk a) as (c' & p' & Hka). exists c', (p' || p).
    intros self. rewrite Hm, Hka. simpl. by rewrite orb_assoc.
  - exists Returned, p. intros self. by rewrite Hm.
  - exists (Raised e), p. intros self. by rewrite Hm.
Qed.

Lemma spo_try_except m (h : exn → stmt A) :
  starts_playback_only m → (∀ e, starts_playback_only (h e)) →
  starts_playback_only (try_except_stmt m h).
Proof.
  intros (c & p & Hm) Hh. unfold try_except_stmt.
  destruct c as [a| |e].
  - exists (Normal a), p. intros self. by rewrite Hm.
  - exists Returned, p. intros self. by rewrite Hm.
  - destruct (is_Exception e) eqn:He.
    + destruct (Hh e) as (c' & p' & Hhe). exists c', (p' || p).
      intros self. rewrite Hm, He, Hhe. simpl. by rewrite orb_assoc.
    + exists (Raised e), p. intros self. by rewrite Hm, He.
Qed.

Lemma spo_try_finally m (f : stmt unit) :
  starts_playback_only m → starts_playback_only f →
  starts_playback_only (try_finally m f).
Proof.
  intros (c & p & Hm) (cf & pf & Hf). unfold try_finally.
  exists (match cf with Normal _ => c | Returned => Returned | Raised e => Raised e end),
         (pf || p).
  intros self. rewrite Hm, Hf. simpl. rewrite orb_assoc. by destruct cf.
Qed.

Lemma roe_here (c : completion A) :
  (∀ e, c = Raised e → is_Exception e = true) →
  raises_Exception_only (λ self, (c, self)).
Proof. intros H self e. simpl. apply H. Qed.

Lemma roe_call (r : result A) : fails_with_Exception r → raises_Exception_only (call r).
Proof. destruct r; intros H self e'; simpl; [done|]. by intros [= <-]. Qed.

Lemma roe_bind m k :
  raises_Exception_only m → (∀ a, raises_Exception_only (k a)) →
  raises_Exception_only (m ≫= k).
Proof.
  intros Hm Hk self e. unfold mbind, stmt_bind.
  specialize (Hm self). destruct (m self) as [[a| |e'] s1]; simpl in *; [apply Hk|done|].
  intros [= <-]. auto.
Qed.

Lemma roe_try_except m (h : exn → stmt A) :
  (∀ e, raises_Exception_only (h e)) → raises_Exception_only m →
  raises_Exception_only (try_except_stmt m h).
Proof.
  intros Hh Hm self e. unfold try_except_stmt.
  specialize (Hm self). destruct (m self) as [[a| |e'] s1]; simpl in *; [done..|].
  rewrite Hm by done. apply Hh.
Qed.

Lemma roe_try_finally m (f : stmt unit) :
  raises_Exception_only m → raises_Exception_only f →
  raises_Exception_only (try_finally m f).
Proof.
  intros Hm Hf self e. unfold try_finally.
  specialize (Hm self). destruct (m self) as [c s1]. simpl in Hm.
  specialize (Hf s1). destruct (f s1) as [[[]| |e'] s2]; simpl in *; [auto|done|].
  intros [= <-]. auto.
Qed.
End Statements.

Lemma spo_play r : starts_playback_only (voice_client_play r).
Proof.
  destruct r as [[]|e]; simpl.
  - by exists (Normal tt), true.
  - apply spo_here.
Qed.

Lemma roe_play r : fails_with_Exception r → raises_Exception_only (voice_client_play r).
Proof. destruct r as [[]|e]; intros H self e'; simpl; [done|]. by intros [= <-]. Qed.

Lemma process_audio_body_spo u audio ext :
  starts_playback_only (process_audio_body u audio ext).
Proof.
  unfold process_audio_body.
  apply spo_bind; [apply spo_call|intros _].
  apply spo_bind.
  { apply spo_try_finally; [|apply spo_call].
    apply spo_try_except; [apply spo_call|intros _; apply spo_here]. }
  intros user_text. destruct (_ || _); [apply spo_here|].
  apply spo_bind.
  { apply spo_try_except; [apply spo_call|intros _; apply spo_here]. }
  intros bot_reply.
  apply spo_try_except; [|intros _; apply spo_here].
  apply spo_bind; [apply spo_call|intros _].
  destruct (is_connected ext); [apply spo_play|apply spo_here].
Qed.

Lemma process_audio_body_roe u audio ext :
  ordinary ext → raises_Exception_only (process_audio_body u audio ext).
Proof.
  intros (Hw & Ht & Hrm & Hc & Hs & Hp). unfold process_audio_body.
  apply roe_bind; [by apply roe_call|intros _].
  apply roe_bind.
  { apply roe_try_finally; [|by apply roe_call].
    apply roe_try_except; [intros _; by apply roe_here|by apply roe_call]. }
  intros user_text. destruct (_ || _); [by apply roe_here|].
  apply roe_bind.
  { apply roe_try_except; [intros _; by apply roe_here|by apply roe_call]. }
  intros bot_reply.
  apply roe_try_except; [intros _; by apply roe_here|].
  apply roe_bind; [by apply roe_call|intros _].
  destruct (is_connected ext); [by apply roe_play|by apply roe_here].
Qed.

Lemma release_sink u self :
  (release u self).2 =
  set_user_data self
    match user_data self !! id u with
    | Some r => <[id u := set_processing r false]> (user_data self)
    | None => user_data self
    end.
Proof.
  unfold release. destruct (user_data self !! id u); [done|]. by destruct self.
Qed.

(** [process_audio] on a sink: whether it returns and whether it starts
    playback depend on the collaborators only; the flag of the speaker is
    released, and everything else is as before. *)
Lemma process_audio_sink u audio ext :
  ∃ res p, ∀ self,
    process_audio self u audio ext =
    (res, (release u (set_is_playing self (p || is_playing self))).2).
Proof.
  pose proof (spo_try_except _ (λ _ : exn, pass) (process_audio_body_spo u audio ext)
                (λ _, spo_here (Normal tt))) as (c & p & H).
  exists (match c with Raised e => Raise e | _ => Ok tt end), p. intros self.
  unfold process_audio, try_finally. rewrite H.
  unfold release. by destruct (user_data _ !! id u); destruct c.
Qed.

(** Between the body of [process_audio] and its [finally] clause the sink
    is either as it was before the coroutine, or it is playing, and then
    [write] drops every frame. *)
Lemma process_audio_window self u audio ext user data now :
  let mid := (try_except_stmt (process_audio_body u audio ext) (λ _, pass) self).2 in
  mid = self ∨ write mid user data now = Ok mid.
Proof.
  pose proof (spo_try_except _ (λ _ : exn, pass) (process_audio_body_spo u audio ext)
                (λ _, spo_here (Normal tt))) as (c & p & H).
  cbv zeta. rewrite H. cbn [snd]. destruct p; cbn [orb].
  - right. by apply write_playing.
  - left. apply set_is_playing_same.
Qed.

(** Exceptions never leave the coroutine when its collaborators fail with
    ordinary exceptions. *)
Lemma process_audio_returns self u audio ext :
  ordinary ext → (process_audio self u audio ext).1 = Ok tt.
Proof.
  intros Hord. unfold process_audio, try_finally.
  pose proof (process_audio_body_roe u audio ext Hord self) as H.
  unfold try_except_stmt.
  destruct (process_audio_body u audio ext self) as [[[]| |e] s1]; simpl in *.
  - unfold release. by destruct (user_data _ !! id u).
  - unfold release. by destruct (user_data _ !! id u).
  - rewrite H by done. unfold pass. simpl.
    unfold release. by destruct (user_data _ !! id u).
Qed.

(** ** The invariant holds in every reachable state *)

Lemma sound_init : sound init.
Proof.
  split; simpl.
  - set_solver.
  - intros uid r. by rewrite lookup_empty.
  - constructor.
  - set_solver.
Qed.

Lemma track_sound r spk pcm ld now r' spk' h :
  track r spk pcm ld now = (r', spk', h) →
  (spk = true → processing r = false) →
  (spk = false → buffer r = []) →
  (spk' = true → processing r' = false) ∧
  (spk' = false → buffer r' = []) ∧
  match h with
  | Some a => processing r = false ∧ processing r' = true ∧ a = buffer r
  | None => processing r' = processing r
  end.
Proof.
  unfold track. intros T H1 H2.
  destruct (processing r) eqn:Hp.
  { injection T as <- <- <-. rewrite Hp. split; [|by auto].
    auto. }
  destruct ld.
  { injection T as <- <- <-. simpl. by rewrite Hp. }
  destruct (spk && expired now (last_spoken r)).
  - destruct (long_enough (buffer r)); injection T as <- <- <-; simpl; by rewrite ?Hp.
  - injection T as <- <- <-. rewrite Hp. auto.
Qed.

Lemma record_at_lookup self uid now r :
  user_data self !! uid = Some r → record_at self uid now = r.
Proof. unfold record_at. by intros ->. Qed.

Lemma apply_track_lookup self u t uid :
  user_data (apply_track self u t) !! uid =
  if decide (id u = uid) then Some t.1.1 else user_data self !! uid.
Proof. destruct t as [[r spk] h]. simpl. apply lookup_insert. Qed.

Lemma apply_track_speaking self u t uid :
  uid ∈ speaking_users (apply_track self u t) ↔
  if decide (id u = uid) then t.1.2 = true else uid ∈ speaking_users self.
Proof.
  destruct t as [[r spk] h]. simpl. case_decide; destruct spk; set_solver.
Qed.

Lemma apply_track_loop self u t :
  loop (apply_track self u t) =
  loop self ++ match t.2 with Some audio => [(u, audio)] | None => [] end.
Proof. by destruct t as [[r spk] h]. Qed.

Lemma sound_record_at self uid now :
  sound self →
  let spk := bool_decide (uid ∈ speaking_users self) in
  (spk = true → processing (record_at self uid now) = false) ∧
  (spk = false → buffer (record_at self uid now) = []).
Proof.
  intros Hs spk. subst spk. split.
  - intros Hin%bool_decide_eq_true.
    destruct (sound_speaking _ Hs _ Hin) as (r & E & Hp).
    by rewrite (record_at_lookup _ _ _ _ E).
  - intros Hout%bool_decide_eq_false. unfold record_at.
    destruct (user_data self !! uid) as [r|] eqn:E; simpl; [|done].
    eapply sound_idle; eauto.
Qed.

Lemma write_sound self user data now self' :
  sound self → write self user data now = Ok self' → sound self'.
Proof.
  intros Hs. destruct user as [u|]; [|by intros [= <-]].
  destruct (is_playing self) eqn:Hplay.
  { rewrite write_playing by done. by intros [= <-]. }
  rewrite write_track by done. intros [= <-].
  destruct (sound_record_at self (id u) now Hs) as [P1 P2].
  destruct (track _ _ _ _ _) as [[r' spk'] h] eqn:T.
  destruct (track_sound _ _ _ _ _ _ _ _ T P1 P2) as (Q1 & Q2 & Q3).
  split.
  - intros uid. rewrite apply_track_speaking, apply_track_lookup. simpl.
    destruct (decide (id u = uid)); [eauto|]. by apply sound_speaking.
  - intros uid r. rewrite apply_track_speaking, apply_track_lookup. simpl.
    destruct (decide (id u = uid)).
    + intros [= <-] Hn. apply Q2. by destruct spk'.
    + by apply sound_idle.
  - rewrite apply_track_loop, fmap_app. simpl.
    destruct h as [a|]; simpl; [|rewrite app_nil_r; by apply sound_once].
    apply NoDup_app. split; [by apply sound_once|]. split; [|apply NoDup_singleton].
    intros uid Hin ->%list_elem_of_singleton.
    apply list_elem_of_fmap in Hin as ([u' a'] & E & Hin). simpl in E.
    destruct (sound_flag _ Hs _ _ Hin) as (r & Er & Hr). rewrite <- E in Er.
    rewrite (record_at_lookup _ _ _ _ Er) in Q3. destruct Q3 as [Q3 _]. congruence.
  - intros u' a'. rewrite apply_track_loop, apply_track_lookup. simpl.
    intros [Hin|Hin]%elem_of_app.
    + destruct (sound_flag _ Hs _ _ Hin) as (r & Er & Hr).
      destruct (decide (id u = id u')) as [Hid|]; [|eauto]. rewrite <- Hid in Er.
      rewrite (record_at_lookup _ _ _ _ Er) in Q3, T.
      exists r'. split; [done|].
      unfold track in T. rewrite Hr in T. by injection T as <- _ _.
    + destruct h as [a|]; [|by apply elem_of_nil in Hin].
      apply list_elem_of_singleton in Hin as [= -> ->].
      rewrite decide_True by done. exists r'. by destruct Q3 as (_ & ? & _).
Qed.

Lemma delete_other_key {A} (f : A → Z) (l : list A) n x y :
  NoDup (f <$> l) → l !! n = Some x → y ∈ delete n l → f y ≠ f x.
Proof.
  intros Hnd Hx [i Hi]%list_elem_of_lookup Heq.
  assert (∃ j, j ≠ n ∧ l !! j = Some y) as (j & Hj & Hy).
  { destruct (decide (i < n)%nat).
    - exists i. split; [lia|]. by rewrite list_lookup_delete_lt in Hi.
    - exists (S i). split; [lia|]. rewrite list_lookup_delete_ge in Hi; [done|lia]. }
  apply Hj. eapply (NoDup_lookup (f <$> l) j n (f x)); [done|..].
  - by rewrite list_lookup_fmap, Hy, <- Heq.
  - by rewrite list_lookup_fmap, Hx.
Qed.

Lemma step_sound self ev self' : sound self → step self ev = Some self' → sound self'.
Proof.
  intros Hs. destruct ev as [user data now|n ext|]; simpl.
  - destruct (write_total self user data now) as [s E]. rewrite E. intros [= <-].
    eauto using write_sound.
  - destruct (loop self !! n) as [[u audio]|] eqn:En; [|done]. intros [= <-].
    destruct (process_audio_sink u audio ext) as (res & p & ->).
    rewrite release_sink. simpl.
    assert (∀ uid r', match user_data self !! id u with
                      | Some r => <[id u := set_processing r false]> (user_data self)
                      | None => user_data self
                      end !! uid = Some r' →
            ∃ r, user_data self !! uid = Some r ∧ buffer r' = buffer r ∧
                 (processing r' = processing r ∨
                  uid = id u ∧ processing r' = false)) as Hlook.
    { intros uid r'. destruct (user_data self !! id u) as [r|] eqn:E; [|by eauto].
      rewrite lookup_insert. destruct (decide (id u = uid)) as [<-|]; [|by eauto].
      intros [= <-]. exists r. split; [done|]. split; [done|]. by right. }
    split; simpl.
    + intros uid Hin. destruct (sound_speaking _ Hs _ Hin) as (r & E & Hp).
      destruct (user_data self !! id u) as [r0|] eqn:E0; [|by eauto].
      rewrite lookup_insert. destruct (decide (id u = uid)) as [<-|]; eauto.
    + intros uid r' E' Hout. destruct (Hlook _ _ E') as (r & E & -> & _).
      by eapply sound_idle.
    + rewrite list_fmap_delete.
      eapply sublist_NoDup; [by apply sound_once|apply sublist_delete].
    + intros u' a' Hin.
      pose proof (delete_other_key (λ t, id t.1) _ _ _ _ (sound_once _ Hs) En Hin) as Hne.
      simpl in Hne. apply list_elem_of_delete_inv in Hin.
      destruct (sound_flag _ Hs _ _ Hin) as (r & E & Hp).
      destruct (user_data self !! id u) as [r0|] eqn:E0; [|by eauto].
      rewrite lookup_insert_ne by done. eauto.
  - intros [= <-]. destruct Hs. by split.
Qed.

Lemma run_sound evs : ∀ self self', sound self → run self evs = Some self' → sound self'.
Proof.
  induction evs as [|ev evs IH]; intros self self' Hs; simpl.
  - by intros [= <-].
  - destruct (step self ev) as [s|] eqn:E; [|done]. eauto using step_sound.
Qed.

Lemma reachable_sound self : reachable self → sound self.
Proof. intros [evs H]. eapply run_sound; [apply sound_init|done]. Qed.

(** Every sequence of events can be run: nothing in the session raises. *)
Lemma step_total self ev :
  (∀ n ext, ev = Run n ext → (n < length (loop self))%nat) →
  ∃ self', step self ev = Some self'.
Proof.
  intros Hn. destruct ev as [user data now|n ext|]; simpl; [| |by eauto].
  - destruct (write_total self user data now) as [s ->]. eauto.
  - destruct (lookup_lt_is_Some_2 (loop self) n) as [[u a] ->]; eauto.
Qed.

(** ** Sinks that are alike stay alike *)

Lemma track_alike r1 r2 spk pcm ld now :
  buffer r1 = buffer r2 → processing r1 = processing r2 →
  (spk = true → last_spoken r1 = last_spoken r2) →
  ∃ r1' r2' spk' h,
    track r1 spk pcm ld now = (r1', spk', h) ∧
    track r2 spk pcm ld now = (r2', spk', h) ∧
    buffer r1' = buffer r2' ∧ processing r1' = processing r2' ∧
    (spk' = true → last_spoken r1' = last_spoken r2').
Proof.
  intros Hb Hp Hl. unfold track. rewrite <- Hp, <- Hb.
  destruct (processing r1) eqn:E1; [by eauto 10|].
  destruct ld; [by eauto 10|].
  assert (spk && expired now (last_spoken r1) = spk && expired now (last_spoken r2)) as <-.
  { destruct spk; [|done]. by rewrite Hl. }
  destruct (spk && _); [|by eauto 10].
  destruct (long_enough (buffer r1)); eexists _, _, _, _;
    (split; [done|]); (split; [done|]); simpl; rewrite ?E1; by repeat split.
Qed.

Lemma same_tracker_record_at s1 s2 uid now :
  same_tracker (bool_decide (uid ∈ speaking_users s1))
               (user_data s1 !! uid) (user_data s2 !! uid) →
  let r1 := record_at s1 uid now in
  let r2 := record_at s2 uid now in
  buffer r1 = buffer r2 ∧ processing r1 = processing r2 ∧
  (bool_decide (uid ∈ speaking_users s1) = true → last_spoken r1 = last_spoken r2).
Proof.
  unfold record_at, same_tracker.
  destruct (user_data s1 !! uid), (user_data s2 !! uid); simpl; try done.
  - intros (-> & -> & ->). done.
  - intros (-> & -> & ->). done.
Qed.

Lemma alike_refl self : alike self self.
Proof.
  repeat split; try done. intros uid. destruct (user_data self !! uid); by simpl.
Qed.

Lemma write_alike s1 s2 user data now s1' :
  alike s1 s2 → write s1 user data now = Ok s1' →
  ∃ s2', write s2 user data now = Ok s2' ∧ alike s1' s2'.
Proof.
  intros Ha. pose proof Ha as (Hsp & Hpl & Hlp & Htr).
  destruct user as [u|]; [|intros [= <-]; by eauto].
  destruct (is_playing s1) eqn:Hplay.
  { rewrite !write_playing by congruence. intros [= <-]. eauto. }
  rewrite !write_track by congruence. intros [= <-]. eexists. split; [done|].
  destruct (same_tracker_record_at s1 s2 (id u) now (Htr _)) as (Hb & Hp & Hl).
  rewrite <- Hsp.
  destruct (track_alike _ _ _ (pcm data) (loud data) now Hb Hp Hl)
    as (r1' & r2' & spk' & h & -> & -> & Hb' & Hp' & Hl').
  repeat split; simpl; try congruence.
  { by rewrite Hsp. }
  intros uid. rewrite !lookup_insert.
  destruct (decide (id u = uid)) as [<-|Hne]; simpl.
  - repeat split; try done. intros Hin%bool_decide_eq_true. apply Hl'.
    destruct spk'; [done|]. set_solver.
  - specialize (Htr uid).
    replace (bool_decide (uid ∈ (if spk' then speaking_users s1 ∪ {[id u]}
                                 else speaking_users s1 ∖ {[id u]})))
      with (bool_decide (uid ∈ speaking_users s1)); [done|].
    apply bool_decide_ext. destruct spk'; set_solver.
Qed.

Lemma step_alike s1 s2 ev s1' :
  alike s1 s2 → step s1 ev = Some s1' →
  ∃ s2', step s2 ev = Some s2' ∧ alike s1' s2'.
Proof.
  intros Ha. pose proof Ha as (Hsp & Hpl & Hlp & Htr).
  destruct ev as [user data now|n ext|]; simpl.
  - destruct (write s1 user data now) as [s|] eqn:E; [|done]. intros [= <-].
    destruct (write_alike _ _ _ _ _ _ Ha E) as (s2' & -> & ?). eauto.
  - rewrite <- Hlp. destruct (loop s1 !! n) as [[u audio]|]; [|done]. intros [= <-].
    eexists. split; [done|].
    destruct (process_audio_sink u audio ext) as (res & p & H). rewrite !H.
    rewrite !release_sink. simpl. rewrite Hpl.
    repeat split; simpl; try done.
    intros uid. pose proof (Htr' := Htr (id u)). specialize (Htr uid).
    destruct (user_data s1 !! id u) as [r1|] eqn:E1,
             (user_data s2 !! id u) as [r2|] eqn:E2;
      rewrite ?lookup_insert; destruct (decide (id u = uid)) as [<-|]; simpl; try done.
    all: simpl in *; rewrite ?E1, ?E2; simpl; naive_solver.
  - intros [= <-]. eexists. split; [done|]. by repeat split.
Qed.

Lemma run_alike evs : ∀ s1 s2 s1',
  alike s1 s2 → run s1 evs = Some s1' → ∃ s2', run s2 evs = Some s2' ∧ alike s1' s2'.
Proof.
  induction evs as [|ev evs IH]; intros s1 s2 s1' Ha; simpl.
  - intros [= <-]. eauto.
  - destruct (step s1 ev) as [s|] eqn:E; [|done].
    destruct (step_alike _ _ _ _ Ha E) as (s2' & -> & Ha'). eauto.
Qed.

Lemma alike_observe s1 s2 uid : alike s1 s2 → observe s1 uid = observe s2 uid.
Proof.
  intros (Hsp & _ & _ & Htr). specialize (Htr uid). unfold observe. rewrite <- Hsp.
  destruct (user_data s1 !! uid), (user_data s2 !! uid); simpl in *; naive_solver congruence.
Qed.

(** ** Frames that change nothing *)

Lemma apply_track_id self u r :
  user_data self !! id u = Some r →
  apply_track self u (r, bool_decide (id u ∈ speaking_users self), None) = self.
Proof.
  intros E. destruct self as [ud sp pl lp]. simpl in *.
  apply sink_eq; [by rewrite insert_id|by rewrite keep_speaking|done|by rewrite app_nil_r].
Qed.

Lemma write_processing self u r data now :
  user_data self !! id u = Some r → processing r = true →
  write self (Some u) data now = Ok self.
Proof.
  intros E Hp. destruct (is_playing self) eqn:Hplay; [by apply write_playing|].
  rewrite write_track by done. rewrite (record_at_lookup _ _ _ _ E).
  unfold track. rewrite Hp. by rewrite apply_track_id.
Qed.

Lemma filter_key_nil {A} (f : A → Z) (l : list A) k :
  k ∉ f <$> l → filter (λ t, f t = k) l = [].
Proof.
  induction l as [|x l IH]; [done|]. rewrite fmap_cons, not_elem_of_cons.
  intros [Hne Hl]. rewrite filter_cons_False by done. auto.
Qed.

Lemma NoDup_filter_key {A} (f : A → Z) (l : list A) k :
  NoDup (f <$> l) → (length (filter (λ t, f t = k) l) ≤ 1)%nat.
Proof.
  induction l as [|x l IH]; [simpl; lia|].
  rewrite fmap_cons, NoDup_cons. intros [Hx Hl].
  destruct (decide (f x = k)) as [<-|Hne].
  - rewrite filter_cons_True by done. rewrite filter_key_nil by done. simpl. lia.
  - rewrite filter_cons_False by done. auto.
Qed.

(** C10. A frame without an attributed speaker ([user is None]) is dropped
    on the spot: [write] returns normally and the sink is left exactly as
    it was (no record is created, nothing is handed over), whatever the
    frame holds and whether or not audio is playing. *)
Theorem write_without_speaker self data now :
  write self None data now = Ok self.
Proof. apply write_None. Qed.

(** C9. While audio is playing, [write] drops every frame of every speaker
    and leaves the whole sink as it was, whatever the frame holds (its
    bytes are not looked at); once playback has ended, a frame is treated
    by the tracker of its speaker again, and a loud one is appended to the
    buffer of a speaker who is not processing. *)
Theorem playback_suppresses_frames self :
  is_playing self = true →
  (∀ user data now, write self user data now = Ok self) ∧
  ∃ self', step self PlaybackEnd = Some self' ∧
    is_playing self' = false ∧
    user_data self' = user_data self ∧
    speaking_users self' = speaking_users self ∧
    loop self' = loop self ∧
    (∀ u data now,
       write self' (Some u) data now =
       Ok (apply_track self' u
             (track (record_at self' (id u) now)
                    (bool_decide (id u ∈ speaking_users self'))
                    (pcm data) (loud data) now))) ∧
    (∀ u data now,
       loud data = true → processing (record_at self (id u) now) = false →
       ∃ self'', write self' (Some u) data now = Ok self'' ∧
         (buffer <$> user_data self'' !! id u) =
         Some (buffer (record_at self (id u) now) ++ pcm data)).
Proof.
  intros Hplay. split; [intros; by apply write_playing|].
  exists (set_is_playing self false).
  do 5 (split; [done|]). split.
  - intros. by apply write_track.
  - intros u data now Hloud Hproc. eexists. split; [by apply write_track|].
    change (record_at (set_is_playing self false) (id u) now)
      with (record_at self (id u) now).
    unfold track. rewrite Hproc, Hloud. simpl. by rewrite lookup_insert_eq.
Qed.

(** C2. In every reachable state no speaker has more than one coroutine
    outstanding, and a speaker with a coroutine outstanding has
    [processing] set (it is set in the step that submits the coroutine);
    a frame of a speaker whose [processing] is set leaves the whole sink
    as it was, so neither that speaker's record nor anybody else's
    changes. *)
Theorem one_utterance_in_flight self :
  reachable self →
  (∀ uid, (outstanding self uid ≤ 1)%nat) ∧
  (∀ u audio, (u, audio) ∈ loop self →
     ∃ r, user_data self !! id u = Some r ∧ processing r = true) ∧
  (∀ u r data now,
     user_data self !! id u = Some r → processing r = true →
     write self (Some u) data now = Ok self).
Proof.
  intros Hs%reachable_sound. split; [|split].
  - intros uid. apply (NoDup_filter_key (λ t, id t.1)), sound_once, Hs.
  - apply sound_flag, Hs.
  - intros. by eapply write_processing.
Qed.

(** C3. However the collaborators of [process_audio] behave (each call
    returns or raises, the transcript may be blank), the record of the
    owning speaker ends with [processing = False] and is otherwise
    untouched, no other record changes, and the next frame is handled by
    [write] as usual; when the collaborators fail with ordinary exceptions
    (subclasses of [Exception]), the coroutine returns without raising. *)
Theorem process_audio_releases_flag self u audio ext :
  let self' := (process_audio self u audio ext).2 in
  (∀ r, user_data self !! id u = Some r →
        user_data self' !! id u = Some (set_processing r false)) ∧
  (∀ uid, uid ≠ id u → user_data self' !! uid = user_data self !! uid) ∧
  speaking_users self' = speaking_users self ∧
  loop self' = loop self ∧
  (∀ user data now, ∃ self'', write self' user data now = Ok self'') ∧
  (ordinary ext → (process_audio self u audio ext).1 = Ok tt).
Proof.
  pose proof (process_audio_returns self u audio ext) as Hret.
  destruct (process_audio_sink u audio ext) as (res & p & H).
  rewrite H in *. simpl. rewrite release_sink. simpl. repeat split.
  - intros r ->. by rewrite lookup_insert_eq.
  - intros uid Hne. destruct (user_data self !! id u); [|done].
    by rewrite lookup_insert_ne.
  - intros. apply write_total.
  - done.
Qed.

(** ** Reachable states used below *)

Lemma reachable_run evs self : run init evs = Some self → reachable self.
Proof. intros H. by exists evs. Qed.

Lemma reachable_step self ev self' :
  reachable self → step self ev = Some self' → reachable self'.
Proof.
  intros [evs H] Hstep. exists (evs ++ [ev]).
  revert H. generalize init. induction evs as [|e evs IH]; intros s0; simpl.
  - intros [= ->]. by rewrite Hstep.
  - destruct (step s0 e); [apply IH|done].
Qed.

(** ** The flush *)

Lemma write_flush self u data now r :
  is_playing self = false → loud data = false →
  id u ∈ speaking_users self → user_data self !! id u = Some r →
  processing r = false → expired now (last_spoken r) = true →
  write self (Some u) data now =
  Ok {| user_data :=
          <[id u := {| buffer := []; last_spoken := last_spoken r;
                       processing := long_enough (buffer r) |}]> (user_data self);
        speaking_users := speaking_users self ∖ {[id u]};
        is_playing := false;
        loop := loop self ++ if long_enough (buffer r) then [(u, buffer r)] else [] |}.
Proof.
  intros Hplay Hloud Hin E Hp Hexp. rewrite write_track by done.
  rewrite (record_at_lookup _ _ _ _ E), Hloud, bool_decide_true by done.
  unfold track. rewrite Hp, Hexp. cbn [andb].
  destruct (long_enough (buffer r)); cbn [apply_track]; rewrite Hplay;
    unfold set_buffer, set_processing; cbn [buffer last_spoken processing];
    by rewrite ?Hp.
Qed.

(** Until the coroutine of a speaker runs, whatever frames arrive and
    whether or not playback ends, the speaker's record stays as it is and
    the coroutines with the event loop stay where they are. *)
Lemma held_until_run u r : ∀ evs self s,
  user_data self !! id u = Some r → processing r = true →
  Forall (λ ev, match ev with Run _ _ => False | _ => True end) evs →
  run self evs = Some s →
  user_data s !! id u = Some r ∧ ∃ more, loop s = loop self ++ more.
Proof.
  induction evs as [|ev evs IH]; intros self s E Hp Hall; cbn [run].
  { intros [= <-]. split; [done|]. exists []. by rewrite app_nil_r. }
  apply Forall_cons in Hall as [Hev Hall].
  destruct (step self ev) as [s1|] eqn:Hstep; [|done]. intros Hrun.
  assert (user_data s1 !! id u = Some r ∧ ∃ more, loop s1 = loop self ++ more)
    as (E1 & more1 & Hl1).
  { destruct ev as [[u'|] data now|n ext|]; [| |done|]; cbn [step] in Hstep.
    - destruct (write self (Some u') data now) as [s'|e] eqn:Hw; [|done].
      injection Hstep as <-.
      destruct (decide (id u' = id u)) as [Hid|Hne].
      + rewrite (write_processing self u' r) in Hw by (by rewrite ?Hid).
        injection Hw as <-. split; [done|]. exists []. by rewrite app_nil_r.
      + destruct (is_playing self) eqn:Hplay.
        { rewrite write_playing in Hw by done. injection Hw as <-.
          split; [done|]. exists []. by rewrite app_nil_r. }
        rewrite write_track in Hw by done. injection Hw as <-.
        rewrite apply_track_lookup, apply_track_loop, decide_False by done.
        split; [done|]. by eexists.
    - injection Hstep as <-. split; [done|]. exists []. by rewrite app_nil_r.
    - injection Hstep as <-. split; [done|]. exists []. by rewrite app_nil_r. }
  destruct (IH s1 s E1 Hp Hall Hrun) as (E2 & more2 & Hl2).
  split; [done|]. exists (more1 ++ more2). by rewrite Hl2, Hl1, app_assoc.
Qed.

(** C1, as amended: the frame arrives while no audio is playing. Then a
    frame with RMS at or below [SILENCE_THRESHOLD] from a speaker marked
    as speaking, arriving more than [SILENCE_DURATION] after
    [last_spoken], flushes: the speaker is unmarked; when the length of
    the buffer exceeds [MIN_AUDIO_LENGTH * 48000 * 2 * 2], a copy of its
    contents is handed to [process_audio], and [processing] is set by the
    time the coroutine is with the event loop; otherwise nothing is handed
    over and [processing] stays clear; the buffer is emptied in every
    case. No other speaker is touched. The copy is immutable and the flag
    is set before the coroutine can run: the clearing of the buffer does
    not reach the copy, and until the coroutine runs no frame, of this
    speaker or another, and no end of playback changes the copy, its place
    with the event loop or the speaker's record. *)
Theorem flush_on_expired_silence self u data now r v :
  reachable self → is_playing self = false →
  rms (pcm data) = Ok v → le_int v SILENCE_THRESHOLD = true →
  id u ∈ speaking_users self → user_data self !! id u = Some r →
  expired now (last_spoken r) = true →
  ∃ self' r', write self (Some u) data now = Ok self' ∧
    speaking_users self' = speaking_users self ∖ {[id u]} ∧
    user_data self' !! id u = Some r' ∧
    buffer r' = [] ∧ last_spoken r' = last_spoken r ∧
    (∀ uid, uid ≠ id u → user_data self' !! uid = user_data self !! uid) ∧
    is_playing self' = false ∧
    if int_gt (Z.of_nat (length (buffer r))) min_audio_bytes
    then processing r' = true ∧ loop self' = loop self ++ [(u, buffer r)] ∧
         ∀ evs s,
           Forall (λ ev, match ev with Run _ _ => False | _ => True end) evs →
           run self' evs = Some s →
           user_data s !! id u = Some r' ∧
           ∃ more, loop s = loop self ++ (u, buffer r) :: more
    else processing r' = false ∧ loop self' = loop self.
Proof.
  intros Hs%reachable_sound Hplay Hv Hle Hin E Hexp.
  destruct (sound_speaking _ Hs _ Hin) as (r0 & E0 & Hp).
  assert (r0 = r) as -> by congruence.
  assert (loud data = false) as Hloud.
  { unfold loud. rewrite Hv. by apply le_int_not_gt. }
  eexists _, _. split; [by apply write_flush|].
  cbn [user_data speaking_users is_playing loop].
  rewrite lookup_insert_eq. do 4 (split; [done|]).
  split; [intros uid Hne; by rewrite lookup_insert_ne|]. split; [done|].
  fold (long_enough (buffer r)). destruct (long_enough (buffer r)).
  - split; [done|]. split; [done|]. intros evs s Hall Hrun.
    match type of Hrun with
    | run ?s0 _ = _ =>
        destruct (held_until_run u {| buffer := []; last_spoken := last_spoken r;
                                      processing := true |} evs s0 s)
          as (Es & more & Hl)
    end; [cbn [user_data]; by rewrite lookup_insert_eq|done|done|done|].
    split; [exact Es|]. exists more. cbn [loop] in Hl.
    by rewrite Hl, <- app_assoc.
  - by rewrite app_nil_r.
Qed.

Lemma alice_speaking_reachable : reachable alice_speaking.
Proof.
  exists [Frame (Some alice) (steady 1000 4) (seconds 10)]. vm_compute. reflexivity.
Qed.

Lemma flush_on_expired_silence_witness :
  ∃ self' r',
    write alice_speaking (Some alice) (steady 0 4) (seconds 12) = Ok self' ∧
    speaking_users self' = speaking_users alice_speaking ∖ {[id alice]} ∧
    user_data self' !! id alice = Some r' ∧
    buffer r' = [] ∧ last_spoken r' = seconds 10 ∧
    (∀ uid, uid ≠ id alice →
            user_data self' !! uid = user_data alice_speaking !! uid) ∧
    is_playing self' = false ∧
    if int_gt (Z.of_nat (length (pcm (steady 1000 4)))) min_audio_bytes
    then processing r' = true ∧
         loop self' = loop alice_speaking ++ [(alice, pcm (steady 1000 4))] ∧
         ∀ evs s,
           Forall (λ ev, match ev with Run _ _ => False | _ => True end) evs →
           run self' evs = Some s →
           user_data s !! id alice = Some r' ∧
           ∃ more, loop s = loop alice_speaking ++ (alice, pcm (steady 1000 4)) :: more
    else processing r' = false ∧ loop self' = loop alice_speaking.
Proof.
  apply (flush_on_expired_silence alice_speaking alice (steady 0 4) (seconds 12)
           {| buffer := pcm (steady 1000 4); last_spoken := seconds 10;
              processing := false |}
           (Flt (S754_zero false))).
  - apply alice_speaking_reachable.
  - reflexivity.
  - vm_compute. reflexivity.
  - vm_compute. reflexivity.
  - apply (bool_decide_unpack _). vm_compute. exact I.
  - vm_compute. reflexivity.
  - vm_compute. reflexivity.
Defined.

(** ** Loud frames *)

Lemma write_loud self u data now :
  is_playing self = false → loud data = true →
  processing (record_at self (id u) now) = false →
  write self (Some u) data now =
  Ok {| user_data :=
          <[id u := {| buffer := buffer (record_at self (id u) now) ++ pcm data;
                       last_spoken := now; processing := false |}]> (user_data self);
        speaking_users := speaking_users self ∪ {[id u]};
        is_playing := false;
        loop := loop self |}.
Proof.
  intros Hplay Hloud Hp. rewrite write_track by done.
  unfold track. rewrite Hp, Hloud. cbn [apply_track].
  unfold set_last_spoken, set_buffer. cbn [buffer last_spoken processing].
  by rewrite Hplay, Hp, app_nil_r.
Qed.

Lemma track_silent r spk pcm now :
  track r spk pcm false now = track r spk [] false now.
Proof. done. Qed.

(** C7. When nothing is playing and the speaker is not processing, a frame
    whose RMS is strictly above [SILENCE_THRESHOLD] is appended to the
    speaker's buffer (the empty one of a record made for a first frame),
    [last_spoken] becomes the current time and the speaker is marked as
    speaking; nothing else changes. A frame whose RMS equals
    [SILENCE_THRESHOLD] is not loud: [write] does what it does for any
    frame at or below the threshold, whatever the bytes. *)
Theorem loud_frame_is_buffered self u data now v :
  is_playing self = false →
  (∀ r, user_data self !! id u = Some r → processing r = false) →
  rms (pcm data) = Ok v →
  (gt_int v SILENCE_THRESHOLD = true →
   write self (Some u) data now =
   Ok {| user_data :=
           <[id u := {| buffer := buffer (record_at self (id u) now) ++ pcm data;
                        last_spoken := now; processing := false |}]> (user_data self);
         speaking_users := speaking_users self ∪ {[id u]};
         is_playing := false;
         loop := loop self |}) ∧
  (eq_int v SILENCE_THRESHOLD = true →
   loud data = false ∧
   write self (Some u) data now =
   Ok (apply_track self u
         (track (record_at self (id u) now)
                (bool_decide (id u ∈ speaking_users self)) [] false now)) ∧
   ∀ data', loud data' = false →
            write self (Some u) data' now = write self (Some u) data now).
Proof.
  intros Hplay Hproc Hv.
  assert (processing (record_at self (id u) now) = false) as Hp.
  { unfold record_at. destruct (user_data self !! id u) eqn:E; simpl; auto. }
  split.
  - intros Hgt. apply write_loud; try done. unfold loud. by rewrite Hv.
  - intros Heq%eq_int_not_gt.
    assert (loud data = false) as Hloud by (unfold loud; by rewrite Hv).
    split; [done|]. split.
    + rewrite write_track by done. by rewrite Hloud.
    + intros data' Hloud'. rewrite !write_track by done. by rewrite Hloud, Hloud'.
Qed.

Lemma loud_frame_is_buffered_witness :
  write init (Some alice) (steady 1000 4) (seconds 10) =
  Ok {| user_data :=
          <[id alice := {| buffer := buffer (record_at init (id alice) (seconds 10))
                                     ++ pcm (steady 1000 4);
                           last_spoken := seconds 10; processing := false |}]>
            (user_data init);
        speaking_users := speaking_users init ∪ {[id alice]};
        is_playing := false;
        loop := loop init |} ∧
  loud (steady 500 4) = false ∧
  write alice_speaking (Some alice) (steady 500 4) (seconds 11) =
  Ok (apply_track alice_speaking alice
        (track (record_at alice_speaking (id alice) (seconds 11))
               (bool_decide (id alice ∈ speaking_users alice_speaking)) [] false
               (seconds 11))).
Proof.
  split.
  - refine (proj1 (loud_frame_is_buffered init alice (steady 1000 4) (seconds 10)
                     (Flt (S754_finite false 8796093022208000 (-43))) _ _ _) _).
    + reflexivity.
    + intros r. vm_compute. discriminate.
    + vm_compute. reflexivity.
    + vm_compute. reflexivity.
  - pose proof (loud_frame_is_buffered alice_speaking alice (steady 500 4) (seconds 11)
                  (Flt (S754_finite false 8796093022208000 (-44)))) as H.
    destruct H as [_ H].
    + reflexivity.
    + intros r. vm_compute. intros [= <-]. reflexivity.
    + vm_compute. reflexivity.
    + destruct H as (H1 & H2 & _); [vm_compute; reflexivity|]. split; assumption.
Defined.

(** ** Silent frames of a speaker who is not marked *)

Lemma alike_fresh self uid now :
  user_data self !! uid = None → uid ∉ speaking_users self →
  alike self (store self uid {| buffer := []; last_spoken := now; processing := false |}).
Proof.
  intros E Hout. repeat split; try done.
  intros k. cbn [store set_user_data user_data]. rewrite lookup_insert.
  destruct (decide (uid = k)) as [<-|Hne].
  - rewrite E. cbn. by rewrite bool_decide_false.
  - destruct (user_data self !! k); by cbn.
Qed.

Lemma write_idle self u data now :
  loud data = false → id u ∉ speaking_users self →
  write self (Some u) data now = Ok self ∨
  is_playing self = false ∧ user_data self !! id u = None ∧
  write self (Some u) data now =
  Ok (store self (id u) {| buffer := []; last_spoken := now; processing := false |}).
Proof.
  intros Hloud Hout. destruct (is_playing self) eqn:Hplay.
  { left. by apply write_playing. }
  rewrite write_track by done. rewrite Hloud, bool_decide_false by done.
  assert (∀ r, track r false (pcm data) false now = (r, false, None)) as ->.
  { intros r. unfold track. by destruct (processing r). }
  unfold record_at. destruct self as [ud sp pl lp]. cbn in *.
  destruct (ud !! id u) as [r|] eqn:E; cbn [default from_option].
  - left. f_equal.
    apply sink_eq; [by rewrite insert_id|set_solver|done|by rewrite app_nil_r].
  - right. do 2 (split; [done|]). f_equal. unfold store, set_user_data. cbn.
    apply sink_eq; [done|set_solver|done|by rewrite app_nil_r].
Qed.

(** C8. A frame with RMS at or below the threshold from a speaker who is
    not marked as speaking changes no field of any record, does not grow a
    buffer, hands nothing over and alters neither [speaking_users] nor
    playback. The sink is left exactly as it was, except that the first
    frame of a speaker makes [write] add the speaker's record (empty
    buffer, not processing), which nothing can tell from the missing one:
    under every later sequence of events the two sinks show the same
    marks, buffers, flags, playback and handed-over utterances. *)
Theorem silent_frame_when_idle self u data now v :
  rms (pcm data) = Ok v → le_int v SILENCE_THRESHOLD = true →
  id u ∉ speaking_users self →
  ∃ self', write self (Some u) data now = Ok self' ∧
    (self' = self ∨
     user_data self !! id u = None ∧
     self' = store self (id u)
               {| buffer := []; last_spoken := now; processing := false |}) ∧
    (∀ uid r, user_data self !! uid = Some r → user_data self' !! uid = Some r) ∧
    speaking_users self' = speaking_users self ∧
    is_playing self' = is_playing self ∧
    loop self' = loop self ∧
    (∀ uid, observe self' uid = observe self uid) ∧
    (∀ evs s, run self evs = Some s →
       ∃ s', run self' evs = Some s' ∧
             loop s' = loop s ∧ is_playing s' = is_playing s ∧
             ∀ uid, observe s' uid = observe s uid).
Proof.
  intros Hv Hle%le_int_not_gt Hout.
  assert (loud data = false) as Hloud by (unfold loud; by rewrite Hv).
  assert (∃ self', write self (Some u) data now = Ok self' ∧
            (self' = self ∨
             user_data self !! id u = None ∧
             self' = store self (id u)
                       {| buffer := []; last_spoken := now; processing := false |}))
    as (self' & Hw & Hcase).
  { destruct (write_idle self u data now Hloud Hout) as [H|(_ & E & H)]; eauto. }
  assert (alike self self') as Ha.
  { destruct Hcase as [->|[E ->]]; [apply alike_refl|by apply alike_fresh]. }
  exists self'. do 2 (split; [done|]).
  split.
  { intros uid r Er. destruct Hcase as [->|[E ->]]; [done|].
    cbn [store set_user_data user_data]. rewrite lookup_insert_ne; [done|congruence]. }
  pose proof Ha as (Hsp & Hpl & Hlp & _).
  do 3 (split; [done|]). split.
  { intros uid. symmetry. by apply alike_observe. }
  intros evs s Hrun. destruct (run_alike _ _ _ _ Ha Hrun) as (s' & Hrun' & Ha').
  exists s'. split; [done|]. pose proof Ha' as (_ & Hpl' & Hlp' & _).
  do 2 (split; [done|]). intros uid. symmetry. by apply alike_observe.
Qed.

Lemma silent_frame_when_idle_witness :
  ∃ self', write init (Some alice) (steady 0 4) (seconds 10) = Ok self' ∧
    (self' = init ∨
     user_data init !! id alice = None ∧
     self' = store init (id alice)
               {| buffer := []; last_spoken := seconds 10; processing := false |}) ∧
    (∀ uid r, user_data init !! uid = Some r → user_data self' !! uid = Some r) ∧
    speaking_users self' = speaking_users init ∧
    is_playing self' = is_playing init ∧
    loop self' = loop init ∧
    (∀ uid, observe self' uid = observe init uid) ∧
    (∀ evs s, run init evs = Some s →
       ∃ s', run self' evs = Some s' ∧
             loop s' = loop s ∧ is_playing s' = is_playing s ∧
             ∀ uid, observe s' uid = observe s uid).
Proof.
  apply (silent_frame_when_idle init alice (steady 0 4) (seconds 10)
           (Flt (S754_zero false))).
  - vm_compute. reflexivity.
  - vm_compute. reflexivity.
  - apply (bool_decide_unpack _). vm_compute. exact I.
Defined.

(** ** Rounding to binary64 stays finite *)

Lemma digits2_pos_size p : digits2_pos p = Pos.size p.
Proof. induction p; simpl; congruence. Qed.

Lemma Zdigits2_nonneg m : 0 ≤ Zdigits2 m.
Proof. destruct m; simpl; lia. Qed.

(** [Zdigits2 m] is the number of binary digits of [m]. *)
Lemma Zdigits2_bound m k : 0 ≤ m < 2 ^ k → 0 ≤ k → Zdigits2 m ≤ k.
Proof.
  intros [Hm Hlt] Hk. destruct m as [|p|p]; simpl; [lia| |lia].
  rewrite digits2_pos_size.
  assert (Z.log2 (Z.pos p) < k) by (apply Z.log2_lt_pow2; lia).
  destruct p; simpl in *; lia.
Qed.

Lemma Zdigits2_gt m : 0 ≤ m → m < 2 ^ Zdigits2 m.
Proof.
  intros Hm. destruct m as [|p|p]; simpl; [lia| |lia].
  rewrite digits2_pos_size.
  pose proof (Pos.size_gt p) as H. 
  apply Pos2Z.pos_lt_pos in H. by rewrite Pos2Z.inj_pow in H.
Qed.

Lemma shr_1_m r : 0 ≤ shr_m r → shr_m (shr_1 r) = shr_m r / 2.
Proof.
  destruct r as [m b s]. simpl. intros Hm.
  destruct m as [|[p|p|]|p]; cbn [shr_m]; try lia; try done.
  - apply (Z.div_unique _ _ _ 1); lia.
  - apply (Z.div_unique _ _ _ 0); lia.
Qed.

Lemma pow2_xO p : 2 ^ Z.pos p~0 = 2 ^ Z.pos p * 2 ^ Z.pos p.
Proof. rewrite Pos2Z.inj_xO, <- Z.pow_add_r by lia. f_equal. lia. Qed.

Lemma pow2_xI p : 2 ^ Z.pos p~1 = 2 * (2 ^ Z.pos p * 2 ^ Z.pos p).
Proof.
  rewrite Pos2Z.inj_xI, <- Z.pow_add_r, <- Z.pow_succ_r by lia. f_equal. lia.
Qed.

Lemma iter_shr_1_m p : ∀ r,
  0 ≤ shr_m r → shr_m (SpecFloat.iter_pos shr_1 p r) = shr_m r / 2 ^ Z.pos p.
Proof.
  assert (∀ r, 0 ≤ shr_m r → 0 ≤ shr_m (shr_1 r)) as Hnn.
  { intros r Hr. rewrite shr_1_m by done. by apply Z.div_pos. }
  induction p as [p IH|p IH|]; intros r Hr; simpl.
  - rewrite !IH, shr_1_m; auto.
    + rewrite !Z.div_div by lia. by rewrite pow2_xI.
    + rewrite IH by auto. apply Z.div_pos; [auto|lia].
  - rewrite !IH; auto.
    + rewrite !Z.div_div by lia. by rewrite pow2_xO.
    + rewrite IH by auto. apply Z.div_pos; [auto|lia].
  - rewrite shr_1_m by done. by rewrite Z.pow_1_r.
Qed.

(** One step of [binary_round_aux]: the mantissa fits the precision or the
    exponent was kept. *)
Lemma shr_fexp_bound m e l :
  0 ≤ m →
  let '(r, e') := shr_fexp prec emax m e l in
  0 ≤ shr_m r ∧ shr_m r ≤ m ∧
  e' = Z.max e (fexp prec emax (Zdigits2 m + e)) ∧
  Zdigits2 (shr_m r) + e' ≤ Z.max (Zdigits2 m + e) e'.
Proof.
  intros Hm. unfold shr_fexp, shr.
  assert (shr_m (shr_record_of_loc m l) = m) as Hrec.
  { by destruct l as [|[]]. }
  destruct (fexp prec emax (Zdigits2 m + e) - e) as [|n|n] eqn:En.
  - rewrite Hrec. repeat split; lia.
  - rewrite iter_shr_1_m by lia. rewrite Hrec.
    assert (0 < 2 ^ Z.pos n) by lia.
    assert (0 ≤ m / 2 ^ Z.pos n) by (apply Z.div_pos; lia).
    assert (m / 2 ^ Z.pos n ≤ m) by (apply Z.div_le_upper_bound; nia).
    repeat split; try lia.
    pose proof (Zdigits2_gt m Hm) as Hd. pose proof (Zdigits2_nonneg m).
    destruct (decide (Z.pos n ≤ Zdigits2 m)).
    + assert (Zdigits2 (m / 2 ^ Z.pos n) ≤ Zdigits2 m - Z.pos n); [|lia].
      apply Zdigits2_bound; [|lia]. split; [done|].
      apply Z.div_lt_upper_bound; [lia|]. rewrite <- Z.pow_add_r by lia.
      by replace (Z.pos n + (Zdigits2 m - Z.pos n)) with (Zdigits2 m) by lia.
    + assert (m / 2 ^ Z.pos n = 0) as ->; [|simpl; lia].
      apply Z.div_small. split; [done|].
      eapply Z.lt_le_trans; [done|]. apply Z.pow_le_mono_r; lia.
  - rewrite Hrec. repeat split; lia.
Qed.


Lemma round_nearest_even_bound m l :
  0 ≤ m → m ≤ round_nearest_even m l ≤ m + 1.
Proof.
  intros Hm. unfold round_nearest_even.
  destruct l as [|[]]; try destruct (Z.even m); lia.
Qed.

Lemma binary_round_aux_finite m e l :
  0 ≤ m → e ≤ 970 → Zdigits2 m + e ≤ 1023 →
  finite_nonneg (binary_round_aux prec emax false m e l).
Proof.
  intros Hm He Hd. unfold binary_round_aux.
  pose proof (shr_fexp_bound m e l Hm) as H1.
  destruct (shr_fexp prec emax m e l) as [r1 e1].
  destruct H1 as (Hr1 & _ & He1 & Hd1).
  pose proof (round_nearest_even_bound (shr_m r1) (loc_of_shr_record r1) Hr1) as Hrnd.
  set (m1 := round_nearest_even _ _) in *.
  pose proof (shr_fexp_bound m1 e1 loc_Exact ltac:(lia)) as H2.
  destruct (shr_fexp prec emax m1 e1 loc_Exact) as [r2 e2].
  destruct H2 as (Hr2 & _ & He2 & _).
  assert (Zdigits2 m1 ≤ Zdigits2 (shr_m r1) + 1) as Hdm1.
  { pose proof (Zdigits2_gt (shr_m r1) Hr1). pose proof (Zdigits2_nonneg (shr_m r1)).
    apply Zdigits2_bound; [|lia]. rewrite Z.pow_add_r, Z.pow_1_r by lia. lia. }
  unfold fexp, emin, prec, emax in *.
  destruct (shr_m r2) as [|p|p]; [done| |lia].
  destruct (Z.leb_spec e2 (1024 - 53)); [done|lia].
Qed.

Lemma SFdiv_exact_finite a b :
  0 ≤ a → 0 < b → a ≤ b * 2 ^ 30 →
  finite_nonneg (SFdiv prec emax (exact a) (exact b)).
Proof.
  intros Ha Hb Hab. destruct a as [|pa|pa], b as [|pb|pb]; try lia; [done|].
  cbn [exact SFdiv xorb]. unfold SFdiv_core_binary.
  set (e' := Z.min _ _).
  assert (e' ≤ 0) as He' by (subst e'; lia).
  set (s := 0 - 0 - e').
  assert (match s with
          | 0 => Z.pos pa
          | Z.pos _ => Z.shiftl (Z.pos pa) s
          | Z.neg _ => 0
          end = Z.pos pa * 2 ^ s) as ->.
  { destruct s eqn:Es; [lia|by rewrite Z.shiftl_mul_pow2|lia]. }
  pose proof (Z_div_mod (Z.pos pa * 2 ^ s) (Z.pos pb) ltac:(lia)) as Hdiv.
  destruct (Z.div_eucl _ _) as [q r]. destruct Hdiv as [Hq Hr].
  assert (0 ≤ s) by lia. assert (0 < 2 ^ s) by lia.
  assert (0 ≤ q) by nia.
  assert (q < 2 ^ (31 + s)).
  { rewrite Z.pow_add_r by lia. change (2 ^ 31) with (2 * 2 ^ 30). nia. }
  apply binary_round_aux_finite; [done|lia|].
  assert (Zdigits2 q ≤ 31 + s); [by apply Zdigits2_bound; lia|lia].
Qed.

Lemma int_true_divide_finite a b :
  0 ≤ a → 0 < b → a ≤ b * 2 ^ 30 →
  int_true_divide a b = Ok (SFdiv prec emax (exact a) (exact b)) ∧
  math_sqrt (SFdiv prec emax (exact a) (exact b)) =
  Ok (SFsqrt prec emax (SFdiv prec emax (exact a) (exact b))).
Proof.
  intros Ha Hb Hab. pose proof (SFdiv_exact_finite a b Ha Hb Hab) as H.
  unfold int_true_divide, math_sqrt. rewrite (proj2 (Z.eqb_neq b 0)) by lia.
  by destruct (SFdiv prec emax (exact a) (exact b)) as [[]|[]| |[] m e].
Qed.

Lemma shr_1_even k :
  0 ≤ k →
  shr_1 {| shr_m := 2 * k; shr_r := false; shr_s := false |} =
  {| shr_m := k; shr_r := false; shr_s := false |}.
Proof. destruct k as [|p|p]; [done|done|lia]. Qed.

(** Shifting out zeros loses nothing. *)
Lemma iter_shr_1_exact p : ∀ k,
  0 ≤ k →
  SpecFloat.iter_pos shr_1 p {| shr_m := k * 2 ^ Z.pos p; shr_r := false; shr_s := false |} =
  {| shr_m := k; shr_r := false; shr_s := false |}.
Proof.
  induction p as [p IH|p IH|]; intros k Hk; cbn [SpecFloat.iter_pos].
  - rewrite pow2_xI.
    replace (k * (2 * (2 ^ Z.pos p * 2 ^ Z.pos p)))
      with (2 * (k * 2 ^ Z.pos p * 2 ^ Z.pos p)) by lia.
    assert (0 < 2 ^ Z.pos p) by lia.
    rewrite shr_1_even by nia. rewrite IH by nia. by rewrite IH.
  - rewrite pow2_xO.
    replace (k * (2 ^ Z.pos p * 2 ^ Z.pos p)) with (k * 2 ^ Z.pos p * 2 ^ Z.pos p) by lia.
    assert (0 < 2 ^ Z.pos p) by lia.
    rewrite IH by nia. by rewrite IH.
  - rewrite Z.pow_1_r. replace (k * 2) with (2 * k) by lia. by apply shr_1_even.
Qed.

(** One alignment step of the rounding: the mantissa is divided by a
    power of two, and an exact multiple stays exact. *)
Lemma shr_fexp_spec m e l :
  0 ≤ m →
  let n := Z.max 0 (fexp prec emax (Zdigits2 m + e) - e) in
  let '(r, e1) := shr_fexp prec emax m e l in
  e1 = e + n ∧ shr_m r = m / 2 ^ n ∧
  (l = loc_Exact → m `mod` 2 ^ n = 0 → loc_of_shr_record r = loc_Exact).
Proof.
  intros Hm. unfold shr_fexp, shr. cbv zeta.
  assert (shr_m (shr_record_of_loc m l) = m) as Hrec by (by destruct l as [|[]]).
  destruct (fexp prec emax (Zdigits2 m + e) - e) as [|p|p] eqn:En.
  - change (Z.max 0 0) with 0. rewrite Z.pow_0_r, Z.div_1_r, Hrec.
    split; [lia|]. split; [done|]. by intros -> _.
  - replace (Z.max 0 (Z.pos p)) with (Z.pos p) by lia.
    split; [done|]. split.
    + rewrite iter_shr_1_m by lia. by rewrite Hrec.
    + intros -> Hmod. cbn [shr_record_of_loc].
      rewrite (Z.div_mod m (2 ^ Z.pos p)) at 1 by lia.
      rewrite Hmod, Z.add_0_r, Z.mul_comm.
      rewrite iter_shr_1_exact; [done|]. apply Z.div_pos; lia.
  - replace (Z.max 0 (Z.neg p)) with 0 by lia. rewrite Z.pow_0_r, Z.div_1_r, Hrec.
    split; [lia|]. split; [done|]. by intros -> _.
Qed.

(** ** Rounding to nearest *)

Lemma Zdigits2_lower m : 0 < m → 2 ^ (Zdigits2 m - 1) ≤ m.
Proof.
  destruct m as [|p|p]; [lia| |lia]. intros _. cbn [Zdigits2]. rewrite digits2_pos_size.
  pose proof (Pos.size_le p) as H. apply Pos2Z.pos_le_pos in H.
  rewrite Pos2Z.inj_pow in H.
  replace (Z.pos (Pos.size p)) with (Z.pos (Pos.size p) - 1 + 1) in H by lia.
  rewrite Z.pow_add_r, Z.pow_1_r in H by lia. lia.
Qed.

Lemma shr_1_located num den r :
  0 ≤ shr_m r → 0 < den →
  located num den (shr_m r) (loc_of_shr_record r) →
  0 ≤ shr_m (shr_1 r) ∧
  located num (2 * den) (shr_m (shr_1 r)) (loc_of_shr_record (shr_1 r)).
Proof.
  destruct r as [m rb sb]. unfold located. cbn [shr_m].
  destruct m as [|[p|p|]|p]; destruct rb, sb; cbn; lia.
Qed.

Lemma iter_shr_1_located num p : ∀ den r,
  0 ≤ shr_m r → 0 < den →
  located num den (shr_m r) (loc_of_shr_record r) →
  0 ≤ shr_m (SpecFloat.iter_pos shr_1 p r) ∧
  located num (den * 2 ^ Z.pos p) (shr_m (SpecFloat.iter_pos shr_1 p r))
          (loc_of_shr_record (SpecFloat.iter_pos shr_1 p r)).
Proof.
  induction p as [p IH|p IH|]; intros den r Hr Hden Hloc; cbn [SpecFloat.iter_pos].
  - destruct (shr_1_located num den r Hr Hden Hloc) as [H1 L1].
    assert (0 < 2 ^ Z.pos p) by lia.
    destruct (IH (2 * den) _ H1 ltac:(lia) L1) as [H2 L2].
    destruct (IH (2 * den * 2 ^ Z.pos p) _ H2 ltac:(nia) L2) as [H3 L3].
    split; [done|]. rewrite pow2_xI.
    by replace (den * (2 * (2 ^ Z.pos p * 2 ^ Z.pos p)))
      with (2 * den * 2 ^ Z.pos p * 2 ^ Z.pos p) by lia.
  - assert (0 < 2 ^ Z.pos p) by lia.
    destruct (IH den _ Hr Hden Hloc) as [H2 L2].
    destruct (IH (den * 2 ^ Z.pos p) _ H2 ltac:(nia) L2) as [H3 L3].
    split; [done|]. rewrite pow2_xO.
    by replace (den * (2 ^ Z.pos p * 2 ^ Z.pos p))
      with (den * 2 ^ Z.pos p * 2 ^ Z.pos p) by lia.
  - rewrite Z.pow_1_r, Z.mul_comm. by apply shr_1_located.
Qed.

Lemma loc_of_shr_record_of_loc m l :
  shr_m (shr_record_of_loc m l) = m ∧
  loc_of_shr_record (shr_record_of_loc m l) = l.
Proof. by destruct l as [|[]]. Qed.

(** The first alignment of [binary_round_aux] keeps what the mantissa
    stands for. *)
Lemma shr_fexp_located num den m e l :
  0 ≤ m → 0 < den → located num den m l →
  let n := Z.max 0 (fexp prec emax (Zdigits2 m + e) - e) in
  let '(r, e1) := shr_fexp prec emax m e l in
  e1 = e + n ∧ shr_m r = m / 2 ^ n ∧
  located num (den * 2 ^ n) (shr_m r) (loc_of_shr_record r).
Proof.
  intros Hm Hden Hloc. cbv zeta. unfold shr_fexp, shr.
  destruct (loc_of_shr_record_of_loc m l) as [Hrm Hrl].
  destruct (fexp prec emax (Zdigits2 m + e) - e) as [|p|p] eqn:En.
  - change (Z.max 0 0) with 0.
    rewrite Hrm, Hrl, Z.pow_0_r, Z.mul_1_r, Z.div_1_r. split; [lia|done].
  - replace (Z.max 0 (Z.pos p)) with (Z.pos p) by lia.
    destruct (iter_shr_1_located num p den (shr_record_of_loc m l)) as [H1 H2];
      [by rewrite Hrm|done|by rewrite Hrm, Hrl|].
    split; [done|]. split; [|done].
    rewrite iter_shr_1_m by (by rewrite Hrm). by rewrite Hrm.
  - replace (Z.max 0 (Z.neg p)) with 0 by lia.
    rewrite Hrm, Hrl, Z.pow_0_r, Z.mul_1_r, Z.div_1_r. split; [lia|done].
Qed.

(** Rounding to nearest, ties to even, is within one half. *)
Lemma round_nearest_even_located num den m l :
  0 < den → located num den m l →
  Z.abs (2 * round_nearest_even m l * den - 2 * num) ≤ den.
Proof.
  unfold located, round_nearest_even. intros Hden [Hm Hl].
  destruct l as [|[]]; [lia| |lia|lia].
  destruct (Z.even m); lia.
Qed.

(** [binary_round_aux] on a mantissa that is long enough: the mantissa is
    aligned, rounded to nearest, and a carry into a 54th digit is taken
    into the exponent; the result is of the format. *)
Lemma binary_round_aux_canonical m e l :
  0 ≤ m → e ≤ fexp prec emax (Zdigits2 m + e) → Zdigits2 m + e ≤ 1023 →
  ∃ r1 e1 m2 e2,
    shr_fexp prec emax m e l = (r1, e1) ∧
    e1 = fexp prec emax (Zdigits2 m + e) ∧ shr_m r1 = m / 2 ^ (e1 - e) ∧
    e1 ≤ e2 ∧ -1074 ≤ e2 ≤ 971 ∧ 0 ≤ m2 < 2 ^ 53 ∧ (2 ^ 52 ≤ m2 ∨ e2 = -1074) ∧
    binary_round_aux prec emax false m e l =
      match m2 with
      | Z0 => S754_zero false
      | Zpos p => S754_finite false p e2
      | Zneg _ => S754_nan
      end ∧
    m2 * 2 ^ (e2 - e1) = round_nearest_even (shr_m r1) (loc_of_shr_record r1).
Proof.
  intros Hm He Hd. unfold binary_round_aux.
  pose proof (shr_fexp_spec m e l Hm) as Hs1. cbv zeta in Hs1.
  set (D := Zdigits2 m + e) in *.
  assert (fexp prec emax D = Z.max (D - 53) (-1074)) as Hfexp by done.
  set (n1 := Z.max 0 (fexp prec emax D - e)) in *.
  assert (0 ≤ n1 ∧ e + n1 = Z.max (D - 53) (-1074)) as [Hn1 Hen1] by lia.
  destruct (shr_fexp prec emax m e l) as [r1 e1].
  destruct Hs1 as (He1 & Ha & _).
  exists r1, e1.
  set (a := shr_m r1) in *.
  assert (0 < 2 ^ n1) as Hp1 by lia.
  assert (0 ≤ a) as Ha0 by (rewrite Ha; apply Z.div_pos; lia).
  pose proof (Zdigits2_nonneg m) as Hdig0.
  assert (a < 2 ^ 53) as Ha53.
  { rewrite Ha. apply Z.div_lt_upper_bound; [done|].
    rewrite <- Z.pow_add_r by lia.
    eapply Z.lt_le_trans; [apply Zdigits2_gt; lia|].
    apply Z.pow_le_mono_r; lia. }
  assert (2 ^ 52 ≤ a ∨ e1 = -1074) as Hnorm.
  { destruct (decide (e1 = -1074)) as [|Hne]; [by right|left].
    assert (0 < m) as Hm0.
    { destruct (decide (m = 0)) as [->|]; [|lia]. cbn in D. lia. }
    assert (n1 = Zdigits2 m - 53) as Hn by lia.
    rewrite Ha. apply Z.div_le_lower_bound; [done|].
    rewrite <- Z.pow_add_r by lia.
    replace (n1 + 52) with (Zdigits2 m - 1) by lia. by apply Zdigits2_lower. }
  pose proof (round_nearest_even_bound a (loc_of_shr_record r1) Ha0) as Hrnd.
  set (m1 := round_nearest_even a (loc_of_shr_record r1)) in *.
  assert (0 ≤ m1) as Hm1 by lia.
  pose proof (shr_fexp_spec m1 e1 loc_Exact Hm1) as Hs2. cbv zeta in Hs2.
  destruct (shr_fexp prec emax m1 e1 loc_Exact) as [r2 e2].
  destruct Hs2 as (He2 & Hm2 & _).
  assert (fexp prec emax (Zdigits2 m1 + e1) = Z.max (Zdigits2 m1 + e1 - 53) (-1074))
    as Hfexp2 by done.
  rewrite Hfexp2 in He2, Hm2.
  assert (e1 - e = n1) as Hee by lia.
  destruct (decide (m1 = 2 ^ 53)) as [Hcarry|Hnc].
  - assert (Zdigits2 m1 = 54) as Hd1 by (by rewrite Hcarry).
    rewrite Hd1 in He2, Hm2.
    replace (Z.max 0 (Z.max (54 + e1 - 53) (-1074) - e1)) with 1 in He2, Hm2 by lia.
    exists (2 ^ 52), (e1 + 1).
    split; [done|]. split; [lia|]. split; [by rewrite Hee|].
    split; [lia|]. split; [lia|]. split; [lia|]. split; [by left|]. split.
    + rewrite Hm2, Hcarry. change (2 ^ 53 / 2 ^ 1) with (Z.pos (2 ^ 52)).
      cbv iota. rewrite He2.
      destruct (Z.leb_spec (e1 + 1) (emax - prec)) as [|Hgt]; [done|].
      unfold emax, prec in Hgt. lia.
    + replace (e1 + 1 - e1) with 1 by lia. by rewrite Hcarry.
  - assert (Zdigits2 m1 ≤ 53) as Hd1 by (apply Zdigits2_bound; lia).
    replace (Z.max 0 (Z.max (Zdigits2 m1 + e1 - 53) (-1074) - e1)) with 0 in He2, Hm2
      by lia.
    rewrite Z.pow_0_r, Z.div_1_r in Hm2.
    exists m1, e1.
    split; [done|]. split; [lia|]. split; [by rewrite Hee|].
    split; [lia|]. split; [lia|]. split; [lia|]. split; [lia|]. split.
    + rewrite Hm2. destruct m1 as [|p|p]; [done| |lia].
      replace e2 with e1 by lia.
      destruct (Z.leb_spec e1 (emax - prec)) as [|Hgt]; [done|].
      unfold emax, prec in Hgt. lia.
    + rewrite Z.sub_diag, Z.pow_0_r. lia.
Qed.

(** The same, for a mantissa that stands for a rational number: the
    result is within half a unit in its last place of that number. *)
Lemma binary_round_aux_nearest num den m e l :
  0 ≤ m → 0 < den → located num den m l →
  e ≤ fexp prec emax (Zdigits2 m + e) → Zdigits2 m + e ≤ 1023 →
  ∃ m2 e2,
    e ≤ e2 ∧ -1074 ≤ e2 ≤ 971 ∧ 0 ≤ m2 < 2 ^ 53 ∧ (2 ^ 52 ≤ m2 ∨ e2 = -1074) ∧
    binary_round_aux prec emax false m e l =
      match m2 with
      | Z0 => S754_zero false
      | Zpos p => S754_finite false p e2
      | Zneg _ => S754_nan
      end ∧
    Z.abs (2 * m2 * (den * 2 ^ (e2 - e)) - 2 * num) ≤ den * 2 ^ (e2 - e).
Proof.
  intros Hm Hden Hloc He Hd.
  destruct (binary_round_aux_canonical m e l Hm He Hd)
    as (r1 & e1 & m2 & e2 & Hshr & He1 & Ha & He12 & He2 & Hm2 & Hnorm & Hres & Hrnd).
  pose proof (shr_fexp_located num den m e l Hm Hden Hloc) as Hs. cbv zeta in Hs.
  rewrite Hshr in Hs. destruct Hs as (Hen & _ & Hloc1).
  assert (Z.max 0 (fexp prec emax (Zdigits2 m + e) - e) = e1 - e) as Hn by lia.
  rewrite Hn in Hloc1.
  assert (0 < 2 ^ (e1 - e) ∧ 0 < 2 ^ (e2 - e1)) as [Hp1 Hp2] by lia.
  pose proof (round_nearest_even_located num (den * 2 ^ (e1 - e)) (shr_m r1)
                (loc_of_shr_record r1) ltac:(nia) Hloc1) as Herr.
  rewrite <- Hrnd in Herr.
  exists m2, e2. split; [lia|]. do 3 (split; [done|]). split; [done|].
  replace (e2 - e) with (e2 - e1 + (e1 - e)) by lia. rewrite Z.pow_add_r by lia.
  apply Z.abs_le. apply Z.abs_le in Herr. nia.
Qed.

Lemma new_location_located b r q :
  0 ≤ r < b → located (q * b + r) b q (new_location b r).
Proof.
  intros Hr. unfold located. split; [lia|].
  unfold new_location, new_location_even, new_location_odd.
  destruct (Z.even b) eqn:Heven.
  - destruct (Z.eqb_spec r 0); [lia|].
    destruct (Z.compare_spec (2 * r) b); lia.
  - destruct (Z.eqb_spec r 0); [lia|].
    assert (b `mod` 2 = 1) as Hodd.
    { rewrite Zmod_odd, <- Z.negb_even, Heven. done. }
    destruct (Z.compare_spec (2 * r + 1) b); Z.div_mod_to_equations; lia.
Qed.

Lemma Zdigits2_ge m k : 0 ≤ k → 2 ^ k ≤ m → k + 1 ≤ Zdigits2 m.
Proof.
  intros Hk Hm. assert (0 < 2 ^ k) by lia.
  pose proof (Zdigits2_gt m ltac:(lia)) as Hgt. pose proof (Zdigits2_nonneg m).
  assert (k < Zdigits2 m); [|lia].
  apply (Z.pow_lt_mono_r_iff 2); lia.
Qed.

(** The quotient of two ints is rounded to nearest. *)
Lemma SFdiv_nearest a b :
  0 ≤ a → 0 < b → a ≤ b * 2 ^ 30 →
  rounded_quotient a b (SFdiv prec emax (exact a) (exact b)).
Proof.
  intros Ha Hb Hab. destruct a as [|pa|pa], b as [|pb|pb]; try lia.
  { cbn. lia. }
  cbn [exact SFdiv xorb]. unfold SFdiv_core_binary.
  set (d1 := Zdigits2 (Z.pos pa)). set (d2 := Zdigits2 (Z.pos pb)).
  set (e' := Z.min _ _).
  assert (fexp prec emax (d1 + 0 - (d2 + 0)) = Z.max (d1 - d2 - 53) (-1074)) as Hfexp.
  { unfold fexp, emin, prec, emax. lia. }
  assert (e' = Z.min (Z.max (d1 - d2 - 53) (-1074)) 0) as He'.
  { subst e'. rewrite Hfexp. lia. }
  clearbody e'. clear Hfexp.
  set (s := 0 - 0 - e').
  assert (match s with
          | 0 => Z.pos pa
          | Z.pos _ => Z.shiftl (Z.pos pa) s
          | Z.neg _ => 0
          end = Z.pos pa * 2 ^ s) as ->.
  { destruct s eqn:Es; [lia|by rewrite Z.shiftl_mul_pow2|lia]. }
  pose proof (Z_div_mod (Z.pos pa * 2 ^ s) (Z.pos pb) ltac:(lia)) as Hdiv.
  destruct (Z.div_eucl _ _) as [q r]. destruct Hdiv as [Hq Hr].
  assert (0 ≤ s ≤ 1074) as Hs by lia. assert (0 < 2 ^ s) as Hps by lia.
  assert (0 ≤ q) as Hq0 by nia.
  assert (q < 2 ^ (31 + s)) as Hq31.
  { rewrite Z.pow_add_r by lia. change (2 ^ 31) with (2 * 2 ^ 30). nia. }
  assert (Zdigits2 q ≤ 31 + s) as Hdq by (apply Zdigits2_bound; lia).
  assert (e' ≤ fexp prec emax (Zdigits2 q + e')) as Hcan.
  { assert (fexp prec emax (Zdigits2 q + e') = Z.max (Zdigits2 q + e' - 53) (-1074)) as ->.
    { unfold fexp, emin, prec, emax. lia. }
    destruct (decide (e' = -1074)) as [|Hne]; [lia|].
    assert (e' ≤ d1 - d2 - 53) as Hn by lia.
    assert (0 ≤ d1 - 1 + s - d2) as Hk by lia.
    assert (d1 - 1 + s - d2 + 1 ≤ Zdigits2 q); [|lia].
    apply Zdigits2_ge; [done|].
    pose proof (Zdigits2_lower (Z.pos pa) ltac:(lia)) as Hlo. fold d1 in Hlo.
    pose proof (Zdigits2_gt (Z.pos pb) ltac:(lia)) as Hhi. fold d2 in Hhi.
    pose proof (Zdigits2_nonneg (Z.pos pb)) as Hd2. fold d2 in Hd2.
    assert (1 ≤ d1) as Hd1.
    { destruct (Z.lt_ge_cases 0 d1) as [|Hd]; [lia|].
      pose proof (Zdigits2_gt (Z.pos pa) ltac:(lia)) as Hgt. fold d1 in Hgt.
      assert (2 ^ d1 ≤ 2 ^ 0) by (apply Z.pow_le_mono_r; lia). lia. }
    assert (2 ^ (d1 - 1 + s - d2) * 2 ^ d2 = 2 ^ (d1 - 1) * 2 ^ s) as Hpow.
    { rewrite <- !Z.pow_add_r by lia. f_equal. lia. }
    assert (0 < 2 ^ (d1 - 1 + s - d2)) by lia.
    assert (0 < 2 ^ d2) by lia. assert (0 < 2 ^ (d1 - 1)) by lia.
    nia. }
  destruct (binary_round_aux_nearest (Z.pos pa * 2 ^ s) (Z.pos pb) q e'
              (new_location (Z.pos pb) r))
    as (m2 & e2 & Hee & He2 & Hm2 & Hnorm & -> & Herr); [done|done| |done|lia|].
  { rewrite Hq, (Z.mul_comm (Z.pos pb) q). by apply new_location_located. }
  destruct m2 as [|p2|p2]; [| |lia]; cbn [rounded_quotient].
  - assert (e2 = -1074) as -> by lia. assert (e' = -1074) as He by lia.
    replace (-1074 - e') with 0 in Herr by lia. replace s with 1074 in Herr by lia.
    rewrite Z.pow_0_r in Herr. lia.
  - split; [unfold binary64; lia|].
    assert (0 < 2 ^ (1074 - s) ∧ 0 < 2 ^ (e2 - e')) as [HP HT] by lia.
    assert (2 ^ (e2 + 1074) = 2 ^ (e2 - e') * 2 ^ (1074 - s)) as ->.
    { rewrite <- Z.pow_add_r by lia. f_equal. lia. }
    assert (2 ^ 1074 = 2 ^ s * 2 ^ (1074 - s)) as ->.
    { rewrite <- Z.pow_add_r by lia. f_equal. lia. }
    set (P := 2 ^ (1074 - s)) in *. set (T := 2 ^ (e2 - e')) in *.
    replace (2 * (Z.pos p2 * (T * P)) * Z.pos pb - 2 * Z.pos pa * (2 ^ s * P))
      with ((2 * Z.pos p2 * (Z.pos pb * T) - 2 * (Z.pos pa * 2 ^ s)) * P) by ring.
    replace (T * P * Z.pos pb) with (Z.pos pb * T * P) by ring.
    rewrite Z.abs_mul, (Z.abs_eq P) by lia.
    apply Z.mul_le_mono_nonneg_r; [lia|done].
Qed.

Lemma shr_fexp_aligned m e l :
  fexp prec emax (Zdigits2 m + e) = e →
  shr_fexp prec emax m e l = (shr_record_of_loc m l, e).
Proof. intros H. unfold shr_fexp. by rewrite H, Z.sub_diag. Qed.

(** The square root of a number of the format is rounded to nearest. *)
Lemma SFsqrt_nearest q :
  match q with
  | S754_zero false => True
  | S754_finite false mq eq => binary64 (Z.pos mq) eq
  | _ => False
  end →
  rounded_root q (SFsqrt prec emax q).
Proof.
  destruct q as [[]|[]| |[] mq eq]; try done. intros (Hmq & Heq & _).
  cbn [SFsqrt]. unfold SFsqrt_core_binary.
  set (d := Zdigits2 (Z.pos mq)).
  assert (1 ≤ d ≤ 53) as Hd.
  { split; [|apply Zdigits2_bound; lia].
    apply (Zdigits2_ge (Z.pos mq) 0); [done|lia]. }
  set (c := Z.div2 (d + eq + 1)).
  assert (2 * c ≤ d + eq + 1 ≤ 2 * c + 1) as Hc.
  { subst c. rewrite Z.div2_div. Z.div_mod_to_equations. lia. }
  set (e' := Z.min _ _).
  assert (e' = c - 53) as He'.
  { subst e'. unfold fexp, emin, prec, emax. rewrite Z.div2_div.
    Z.div_mod_to_equations. lia. }
  clearbody e' c. subst e'.
  set (s := eq - 2 * (c - 53)).
  assert (match s with
          | 0 => Z.pos mq
          | Z.pos _ => Z.shiftl (Z.pos mq) s
          | Z.neg _ => 0
          end = Z.pos mq * 2 ^ s) as ->.
  { destruct s eqn:Es; [lia|by rewrite Z.shiftl_mul_pow2|lia]. }
  assert (0 ≤ s) as Hs by lia. assert (0 < 2 ^ s) as Hps by lia.
  pose proof (Zdigits2_lower (Z.pos mq) ltac:(lia)) as Hlo. fold d in Hlo.
  pose proof (Zdigits2_gt (Z.pos mq) ltac:(lia)) as Hhi. fold d in Hhi.
  assert (2 ^ 104 ≤ Z.pos mq * 2 ^ s < 2 ^ 106) as Hm'.
  { assert (2 ^ 104 ≤ 2 ^ (d - 1) * 2 ^ s ∧ 2 ^ d * 2 ^ s ≤ 2 ^ 106) as [H1 H2].
    { rewrite <- !Z.pow_add_r by lia. split; apply Z.pow_le_mono_r; lia. }
    assert (0 < 2 ^ (d - 1) ∧ 0 < 2 ^ d) as [??] by lia. nia. }
  pose proof (Z.sqrtrem_spec (Z.pos mq * 2 ^ s) ltac:(lia)) as Hsq.
  set (m' := Z.pos mq * 2 ^ s) in *.
  assert (Z.pos mq * 2 ^ (eq + 2 * 1074) = m' * (2 ^ (c - 53 + 1074) * 2 ^ (c - 53 + 1074)))
    as Hscale.
  { subst m'. rewrite <- Z.pow_add_r, <- Z.mul_assoc, <- Z.pow_add_r by lia.
    do 2 f_equal. lia. }
  clearbody m'.
  destruct (Z.sqrtrem m') as [qq r]. destruct Hsq as [Hqq Hr].
  assert (2 ^ 52 ≤ qq < 2 ^ 53) as Hq.
  { change (2 ^ 104) with (2 ^ 52 * 2 ^ 52) in Hm'.
    change (2 ^ 106) with (2 ^ 53 * 2 ^ 53) in Hm'. nia. }
  assert (Zdigits2 qq = 53) as Hdq.
  { pose proof (Zdigits2_bound qq 53 ltac:(lia) ltac:(lia)).
    pose proof (Zdigits2_ge qq 52 ltac:(lia) ltac:(lia)). lia. }
  set (l := if r =? 0 then loc_Exact else _).
  assert (fexp prec emax (Zdigits2 qq + (c - 53)) = c - 53) as Hal.
  { rewrite Hdq. unfold fexp, emin, prec, emax. lia. }
  destruct (binary_round_aux_canonical qq (c - 53) l)
    as (r1 & e1 & m2 & e2 & Hshr & He1 & _ & He12 & He2 & Hm2 & Hnorm & -> & Hrnd);
    [lia|lia|lia|].
  rewrite shr_fexp_aligned in Hshr by done. injection Hshr as <- <-.
  destruct (loc_of_shr_record_of_loc qq l) as [Hm1 Hl1].
  rewrite Hm1, Hl1 in Hrnd.
  assert (round_nearest_even qq l = qq ∧ r ≤ qq ∨
          round_nearest_even qq l = qq + 1 ∧ qq < r) as Hcase.
  { subst l. destruct (Z.eqb_spec r 0); [left; cbn; lia|].
    destruct (Z.leb_spec r qq); [left|right]; cbn; lia. }
  set (m1 := round_nearest_even qq l) in *. clearbody m1. clear Hm1 Hl1.
  assert (0 < 2 ^ (e2 - (c - 53))) as HT by lia.
  set (T := 2 ^ (e2 - (c - 53))) in *.
  destruct m2 as [|p2|p2]; [nia| |lia]. cbn [rounded_root].
  split; [unfold binary64; lia|].
  rewrite Hscale.
  assert (2 ^ (2 * (e2 + 1074)) = (T * 2 ^ (c - 53 + 1074)) * (T * 2 ^ (c - 53 + 1074))) as ->.
  { subst T. rewrite <- !Z.pow_add_r by lia. f_equal. lia. }
  assert (0 < 2 ^ (c - 53 + 1074)) as HP by lia.
  set (P := 2 ^ (c - 53 + 1074)) in *. clearbody P T.
  rewrite !Z.pow_2_r.
  assert ((2 * Z.pos p2 - 1) * T ≤ 2 * m1 - 1) as H1 by nia.
  assert (2 * m1 + 1 ≤ (2 * Z.pos p2 + 1) * T) as H2 by nia.
  assert ((2 * m1 - 1) * (2 * m1 - 1) ≤ 4 * m' ∧ 4 * m' ≤ (2 * m1 + 1) * (2 * m1 + 1))
    as [H3 H4] by (destruct Hcase as [[-> ?]|[-> ?]]; nia).
  assert (0 ≤ (2 * Z.pos p2 - 1) * T) as H5 by (apply Z.mul_nonneg_nonneg; lia).
  assert (((2 * Z.pos p2 - 1) * T) * ((2 * Z.pos p2 - 1) * T) ≤ 4 * m') as H6.
  { etrans; [|exact H3]. apply Z.mul_le_mono_nonneg; lia. }
  assert (4 * m' ≤ ((2 * Z.pos p2 + 1) * T) * ((2 * Z.pos p2 + 1) * T)) as H7.
  { etrans; [exact H4|]. apply Z.mul_le_mono_nonneg; lia. }
  split.
  - replace ((2 * Z.pos p2 - 1) * (2 * Z.pos p2 - 1) * (T * P * (T * P)))
      with (((2 * Z.pos p2 - 1) * T) * ((2 * Z.pos p2 - 1) * T) * (P * P)) by ring.
    replace (4 * (m' * (P * P))) with (4 * m' * (P * P)) by ring.
    apply Z.mul_le_mono_nonneg_r; [nia|done].
  - replace ((2 * Z.pos p2 + 1) * (2 * Z.pos p2 + 1) * (T * P * (T * P)))
      with (((2 * Z.pos p2 + 1) * T) * ((2 * Z.pos p2 + 1) * T) * (P * P)) by ring.
    replace (4 * (m' * (P * P))) with (4 * m' * (P * P)) by ring.
    apply Z.mul_le_mono_nonneg_r; [nia|done].
Qed.

(** ** Frames and their samples *)

Lemma byte_val_of_N z :
  0 ≤ z < 256 → byte_val (default "000"%byte (Byte.of_N (Z.to_N z))) = z.
Proof.
  intros Hz. unfold byte_val.
  pose proof (Byte.to_of_N_option_map (Z.to_N z)) as H.
  destruct (N.leb_spec (Z.to_N z) 255) as [_|Hgt]; [|lia].
  destruct (Byte.of_N (Z.to_N z)) as [b|]; [|done].
  simpl in *. injection H as ->. lia.
Qed.

Lemma byte_val_bound b : 0 ≤ byte_val b < 256.
Proof. unfold byte_val. pose proof (Byte.to_N_bounded b). lia. Qed.

Lemma of_N_byte_val b : default "000"%byte (Byte.of_N (Z.to_N (byte_val b))) = b.
Proof. unfold byte_val. by rewrite N2Z.id, Byte.of_to_N. Qed.

Lemma int16_le_int16 lo hi : int16 (int16_le lo hi).
Proof.
  unfold int16, int16_le. pose proof (byte_val_bound lo). pose proof (byte_val_bound hi).
  cbv zeta. destruct (Z.ltb_spec (byte_val lo + 256 * byte_val hi) 32768); lia.
Qed.

Lemma int16_le_pack_h s :
  int16 s → ∃ lo hi, pack_h s = [lo; hi] ∧ int16_le lo hi = s.
Proof.
  intros [Hlo Hhi]. unfold pack_h. eexists _, _. split; [done|].
  unfold int16_le.
  assert (0 ≤ s `mod` 65536 < 65536) as Hu by (apply Z.mod_pos_bound; lia).
  rewrite !byte_val_of_N.
  - replace ((s `mod` 65536) `mod` 256 + 256 * (s `mod` 65536 / 256))
      with (s `mod` 65536)
      by (pose proof (Z.div_mod (s `mod` 65536) 256 ltac:(lia)); lia).
    destruct (Z.ltb_spec (s `mod` 65536) 32768) as [Hlt|Hge].
    + destruct (decide (0 ≤ s)).
      * apply Z.mod_small. lia.
      * rewrite <- (Z.mod_add s 1 65536) in Hlt by lia.
        rewrite Z.mod_small in Hlt; lia.
    + destruct (decide (0 ≤ s)).
      * rewrite Z.mod_small in Hge; lia.
      * rewrite <- (Z.mod_add s 1 65536) by lia. rewrite Z.mod_small; lia.
  - split; [apply Z.div_pos; lia|]. apply Z.div_lt_upper_bound; lia.
  - apply Z.mod_pos_bound. lia.
Qed.

Lemma pack_h_int16_le lo hi : pack_h (int16_le lo hi) = [lo; hi].
Proof.
  pose proof (byte_val_bound lo) as Hl. pose proof (byte_val_bound hi) as Hh.
  unfold pack_h.
  assert (int16_le lo hi `mod` 65536 = byte_val lo + 256 * byte_val hi) as ->.
  { unfold int16_le. cbv zeta.
    destruct (Z.ltb_spec (byte_val lo + 256 * byte_val hi) 32768).
    - apply Z.mod_small. lia.
    - rewrite <- (Z.mod_add _ 1 65536) by lia.
      replace (byte_val lo + 256 * byte_val hi - 65536 + 1 * 65536)
        with (byte_val lo + 256 * byte_val hi) by lia.
      apply Z.mod_small. lia. }
  assert ((byte_val lo + 256 * byte_val hi) `mod` 256 = byte_val lo) as ->.
  { symmetry. apply (Z.mod_unique _ _ (byte_val hi)); lia. }
  assert ((byte_val lo + 256 * byte_val hi) / 256 = byte_val hi) as ->.
  { symmetry. apply (Z.div_unique _ _ _ (byte_val lo)); lia. }
  by rewrite !of_N_byte_val.
Qed.

Lemma length_frame_of samples : length (frame_of samples) = (2 * length samples)%nat.
Proof.
  unfold frame_of. induction samples as [|s l IH]; [done|].
  rewrite fmap_cons. change (mjoin (pack_h s :: (pack_h <$> l)))
    with (pack_h s ++ mjoin (pack_h <$> l)).
  rewrite length_app, IH. simpl. lia.
Qed.

Lemma struct_unpack_h_frame_of samples :
  Forall int16 samples →
  struct_unpack_h (length samples) (frame_of samples) = Ok samples.
Proof.
  unfold frame_of. induction 1 as [|s l Hs Hl IH]; [done|].
  destruct (int16_le_pack_h s Hs) as (lo & hi & Hp & Hv).
  rewrite fmap_cons. change (mjoin (pack_h s :: (pack_h <$> l)))
    with (pack_h s ++ mjoin (pack_h <$> l)).
  rewrite Hp. cbn [app length struct_unpack_h].
  rewrite IH. cbn. by rewrite Hv.
Qed.

Lemma frame_of_struct_unpack_h n : ∀ pcm samples,
  struct_unpack_h n pcm = Ok samples →
  Forall int16 samples ∧ frame_of samples = pcm.
Proof.
  unfold frame_of.
  induction n as [|n IH]; intros [|lo [|hi rest]] samples; cbn [struct_unpack_h];
    try congruence.
  - by intros [= <-].
  - destruct (struct_unpack_h n rest) as [ss|e] eqn:E; cbn; [|congruence].
    intros [= <-]. destruct (IH _ _ E) as [Hall Hfr]. split.
    + constructor; [apply int16_le_int16|done].
    + rewrite fmap_cons. change (mjoin (pack_h (int16_le lo hi) :: (pack_h <$> ss)))
        with (pack_h (int16_le lo hi) ++ mjoin (pack_h <$> ss)).
      by rewrite pack_h_int16_le, Hfr.
Qed.

Lemma struct_unpack_h_even n : ∀ pcm,
  length pcm = (2 * n)%nat → ∃ samples, struct_unpack_h n pcm = Ok samples.
Proof.
  induction n as [|n IH]; intros [|lo [|hi rest]] Hlen; simpl in Hlen; try lia.
  - by eexists.
  - destruct (IH rest ltac:(lia)) as [ss Hss]. cbn [struct_unpack_h]. rewrite Hss.
    by eexists.
Qed.

Lemma sum_squares_foldr samples :
  sum_squares samples = foldr (λ s acc, s * s + acc) 0 samples.
Proof.
  unfold sum_squares.
  assert (∀ a, foldl (λ acc s, acc + s * s) a samples =
               a + foldr (λ s acc, s * s + acc) 0 samples) as H.
  { induction samples as [|s l IH]; intros a; simpl; [lia|]. rewrite IH. lia. }
  by rewrite H.
Qed.

Lemma sum_squares_bound samples :
  Forall int16 samples →
  0 ≤ sum_squares samples ≤ Z.of_nat (length samples) * 2 ^ 30.
Proof.
  rewrite sum_squares_foldr. induction 1 as [|s l [Hlo Hhi] Hl IH]; [simpl; lia|].
  cbn [foldr length]. rewrite Nat2Z.inj_succ.
  assert (0 ≤ s * s ≤ 2 ^ 30) by (change (2 ^ 30) with (32768 * 32768); nia).
  lia.
Qed.

(** The estimate of a frame of [N > 0] samples is [sqrt(sum / N)]. *)
Lemma rms_frame_of samples :
  samples ≠ [] → Forall int16 samples →
  rms (frame_of samples) = Ok (Flt (rms_formula samples)).
Proof.
  intros Hne Hall. unfold rms, rms_formula.
  rewrite length_frame_of.
  replace (Z.of_nat (2 * length samples) / 2) with (Z.of_nat (length samples))
    by (rewrite Nat2Z.inj_mul, Z.mul_comm, Z.div_mul; lia).
  rewrite Nat2Z.id, struct_unpack_h_frame_of by done.
  assert (0 < Z.of_nat (length samples)) as Hpos by (destruct samples; [done|simpl; lia]).
  cbn [mbind result_bind]. rewrite (proj2 (Z.ltb_lt _ _) Hpos).
  pose proof (sum_squares_bound samples Hall) as [Hlo Hhi].
  destruct (int_true_divide_finite _ _ Hlo Hpos Hhi) as [-> Hsqrt].
  cbn [mbind result_bind]. rewrite Hsqrt. cbn [mbind result_bind try_except].
  by rewrite sum_squares_foldr.
Qed.

(** The estimate of a frame of [N > 0] samples, in exact arithmetic. *)
Lemma rms_value samples :
  samples ≠ [] → Forall int16 samples →
  ∃ x, rms (frame_of samples) = Ok (Flt x) ∧ root_mean_square samples x.
Proof.
  intros Hne Hall.
  pose proof (sum_squares_bound samples Hall) as [Hlo Hhi].
  rewrite sum_squares_foldr in Hlo, Hhi.
  assert (0 < Z.of_nat (length samples)) as Hpos by (destruct samples; [done|simpl; lia]).
  pose proof (SFdiv_nearest _ _ Hlo Hpos Hhi) as Hq.
  exists (rms_formula samples). split; [by apply rms_frame_of|].
  eexists. split; [exact Hq|].
  unfold rms_formula. apply SFsqrt_nearest.
  destruct (SFdiv prec emax _ _) as [[]|[]| |[] m e]; try done. by destruct Hq.
Qed.

(** C6. The estimate never raises. On the frame of [N > 0] 16-bit signed
    samples (channels interleaved, all treated alike) it is
    [sqrt(sum(sample_i^2) / N)] as binary64 arithmetic gives it: a float
    [x] of the format within half a unit in its last place of the root of
    [q], where [q] is of the format and within half a unit in its last
    place of [sum(sample_i^2) / N], both stated on the integers; it is
    never a NaN or an infinity. Every frame of even, non-zero length is
    such a frame, of the samples its byte pairs encode in little-endian
    order. On the empty frame and on a frame that fails to decode (an odd
    number of bytes) it is 0, and the frame counts as silence. *)
Theorem rms_estimate :
  (∀ frame, ∃ v, rms frame = Ok v) ∧
  (∀ samples, samples ≠ [] → Forall int16 samples →
     rms (frame_of samples) = Ok (Flt (rms_formula samples))) ∧
  (∀ samples, samples ≠ [] → Forall int16 samples →
     ∃ x, rms (frame_of samples) = Ok (Flt x) ∧ root_mean_square samples x) ∧
  (∀ frame, frame ≠ [] → Nat.Even (length frame) →
     ∃ samples x,
       Forall int16 samples ∧ (2 * length samples = length frame)%nat ∧
       frame_of samples = frame ∧ rms frame = Ok (Flt (rms_formula samples)) ∧
       rms frame = Ok (Flt x) ∧ root_mean_square samples x) ∧
  (∀ frame, frame = [] ∨ Nat.Odd (length frame) →
     rms frame = Ok (Int 0) ∧ loud {| pcm := frame |} = false).
Proof.
  split; [apply rms_total|]. split; [apply rms_frame_of|].
  split; [apply rms_value|]. split.
  - intros frame Hne [n Hn].
    destruct (struct_unpack_h_even n frame Hn) as [samples Hs].
    destruct (frame_of_struct_unpack_h _ _ _ Hs) as [Hall Hfr].
    assert (samples ≠ []) as Hne' by (intros ->; by apply Hne).
    destruct (rms_value samples Hne' Hall) as (x & Hx & Hval).
    exists samples, x. split; [done|]. split; [by rewrite <- Hfr, length_frame_of|].
    split; [done|]. rewrite <- Hfr. split; [by apply rms_frame_of|]. done.
  - intros frame Hcase.
    assert (rms frame = Ok (Int 0)) as H.
    { destruct Hcase as [->|Hodd]; [done|by apply rms_odd]. }
    split; [done|]. unfold loud. cbn [pcm]. by rewrite H.
Qed.

Lemma rms_estimate_witness :
  rms (frame_of [1000; -1000; 3; 4]) = Ok (Flt (rms_formula [1000; -1000; 3; 4])) ∧
  (∃ x, rms (frame_of [1000; -1000; 3; 4]) = Ok (Flt x) ∧
        root_mean_square [1000; -1000; 3; 4] x) ∧
  rms ["001"%byte; "002"%byte; "003"%byte] = Ok (Int 0) ∧
  loud {| pcm := ["001"%byte; "002"%byte; "003"%byte] |} = false.
Proof.
  destruct rms_estimate as (_ & Hsamples & Hvalue & _ & Hzero).
  assert (Forall int16 [1000; -1000; 3; 4]) as Hall
    by (repeat constructor; unfold int16; lia).
  split; [by apply Hsamples|]. split; [by apply Hvalue|].
  apply Hzero. right. exists 1%nat. reflexivity.
Defined.

(** ** The minimum length, and frames of one amplitude *)

Lemma min_audio_bytes_value : min_audio_bytes = S754_finite false 6597069766656000 (-36).
Proof. vm_compute. reflexivity. Qed.

(** [len > MIN_AUDIO_LENGTH * 48000 * 2 * 2] is [len > 96000]. *)
Lemma long_enough_iff b : long_enough b = (96000 <? Z.of_nat (length b)).
Proof.
  unfold long_enough, int_gt. rewrite min_audio_bytes_value. cbn [compare_int].
  change (2 ^ Z.pos 36) with 68719476736.
  destruct (Z.ltb_spec 96000 (Z.of_nat (length b)));
    destruct (Z.compare_spec 6597069766656000 (Z.of_nat (length b) * 68719476736));
    (done || lia).
Qed.

Lemma foldr_squares_replicate a n :
  foldr (λ s acc, s * s + acc) 0 (replicate n a) = Z.of_nat n * (a * a).
Proof. induction n as [|n IH]; [done|]. cbn [replicate foldr]. rewrite IH. lia. Qed.

Lemma rms_steady a n :
  int16 a → n ≠ 0%nat →
  rms (pcm (steady a n)) =
  Ok (Flt (SFsqrt prec emax
             (SFdiv prec emax (exact (Z.of_nat n * (a * a))) (exact (Z.of_nat n))))).
Proof.
  intros Ha Hn. cbn [steady pcm]. rewrite rms_frame_of.
  - unfold rms_formula. by rewrite foldr_squares_replicate, length_replicate.
  - by destruct n.
  - by apply Forall_replicate.
Qed.

Lemma length_steady a n : length (pcm (steady a n)) = (2 * n)%nat.
Proof. cbn [steady pcm]. by rewrite length_frame_of, length_replicate. Qed.

Lemma loud_steady_48002 : loud (steady 1000 48002) = true.
Proof.
  unfold loud. rewrite rms_steady; [|unfold int16; lia|discriminate].
  vm_compute. reflexivity.
Qed.

Lemma loud_steady_30000 : loud (steady 1000 30000) = true.
Proof.
  unfold loud. rewrite rms_steady; [|unfold int16; lia|discriminate].
  vm_compute. reflexivity.
Qed.

(** ** Runs of frames of one speaker *)


Lemma feed_app self u l1 l2 :
  feed self u (l1 ++ l2) = feed self u l1 ≫= λ s, feed s u l2.
Proof.
  revert self. induction l1 as [|[d t] l1 IH]; intros self; [done|].
  cbn [app feed]. destruct (write self (Some u) d t) as [s|e]; [apply IH|done].
Qed.

Lemma count_flushes_app self u l1 l2 s :
  feed self u l1 = Ok s →
  count_flushes self u (l1 ++ l2) = (count_flushes self u l1 + count_flushes s u l2)%nat.
Proof.
  revert self. induction l1 as [|[d t] l1 IH]; intros self; cbn [app feed count_flushes].
  - by intros [= ->].
  - destruct (write self (Some u) d t) as [s1|e]; [|done].
    cbn [mbind result_bind]. intros H. rewrite (IH _ H). lia.
Qed.

Lemma feed_cons self u d t frames s :
  write self (Some u) d t = Ok s →
  feed self u ((d, t) :: frames) = feed s u frames ∧
  count_flushes self u ((d, t) :: frames) =
  ((if flushed self s (id u) then 1 else 0) + count_flushes s u frames)%nat.
Proof. intros H. cbn [feed count_flushes]. by rewrite H. Qed.

Lemma flushed_still_marked before after uid :
  uid ∈ speaking_users after → flushed before after uid = false.
Proof.
  intros H. unfold flushed. rewrite (bool_decide_false (_ ∉ _)) by tauto.
  apply andb_false_r.
Qed.

Lemma flushed_not_marked before after uid :
  uid ∉ speaking_users before → flushed before after uid = false.
Proof. intros H. unfold flushed. by rewrite (bool_decide_false (_ ∈ _)). Qed.

Lemma flushed_same self uid : flushed self self uid = false.
Proof.
  destruct (decide (uid ∈ speaking_users self));
    [by apply flushed_still_marked|by apply flushed_not_marked].
Qed.

(** The sink of a speaker in the middle of an utterance. *)
Lemma feed_loud u : ∀ frames self r d t,
  is_playing self = false → record_at self (id u) t = r → processing r = false →
  Forall (λ f, loud f.1 = true) ((d, t) :: frames) →
  feed self u ((d, t) :: frames) =
  Ok {| user_data :=
          <[id u := {| buffer := buffer r ++ audio_of ((d, t) :: frames);
                       last_spoken := default t (last (snd <$> frames));
                       processing := false |}]> (user_data self);
        speaking_users := speaking_users self ∪ {[id u]};
        is_playing := false;
        loop := loop self |} ∧
  count_flushes self u ((d, t) :: frames) = 0%nat.
Proof.
  induction frames as [|[d' t'] frames IH]; intros self r d t Hplay Hr Hp Hall.
  - apply Forall_cons in Hall as [Hd _]. cbn [feed count_flushes].
    rewrite write_loud by (done || congruence). rewrite Hr.
    cbn [mbind result_bind feed audio_of fmap list_fmap mjoin list_join last default fst snd].
    rewrite app_nil_r. split; [done|].
    rewrite flushed_still_marked; [done|].
    cbn [speaking_users]. apply elem_of_union_r. by apply elem_of_singleton.
  - apply Forall_cons in Hall as [Hd Hall].
    set (r1 := {| buffer := buffer r ++ pcm d; last_spoken := t; processing := false |}).
    set (s1 := {| user_data := <[id u := r1]> (user_data self);
                  speaking_users := speaking_users self ∪ {[id u]};
                  is_playing := false; loop := loop self |}).
    assert (write self (Some u) d t = Ok s1) as Hw.
    { rewrite write_loud by (done || congruence). by rewrite Hr. }
    destruct (feed_cons _ _ _ _ ((d', t') :: frames) _ Hw) as [-> ->].
    assert (record_at s1 (id u) t' = r1) as Hr1.
    { unfold record_at, s1. cbn [user_data]. by rewrite lookup_insert_eq. }
    destruct (IH s1 r1 d' t' eq_refl Hr1 eq_refl Hall) as [-> ->].
    split.
    + f_equal. unfold s1. cbn [user_data speaking_users is_playing loop].
      apply sink_eq; [|by rewrite <- (assoc_L (∪)), (idemp_L (∪))|done|done].
      rewrite insert_insert_eq. f_equal. unfold r1. cbn [buffer].
      f_equal.
      * unfold audio_of. rewrite !fmap_cons. cbn [mjoin list_join fst]. by rewrite <- app_assoc.
      * rewrite fmap_cons, last_cons. cbn [snd]. by destruct (last _).
    + rewrite flushed_still_marked; [done|].
      unfold s1. cbn [speaking_users]. apply elem_of_union_r. by apply elem_of_singleton.
Qed.

(** Silence that has not lasted long enough changes nothing. *)
Lemma feed_short_silence u frames : ∀ self r,
  is_playing self = false → user_data self !! id u = Some r →
  Forall (λ f, loud f.1 = false ∧ expired f.2 (last_spoken r) = false) frames →
  feed self u frames = Ok self ∧ count_flushes self u frames = 0%nat.
Proof.
  induction frames as [|[d t] frames IH]; intros self r Hplay Hr Hall; [done|].
  apply Forall_cons in Hall as [[Hd Ht] Hall]. cbn [fst snd] in *.
  assert (write self (Some u) d t = Ok self) as Hw.
  { rewrite write_track by done. rewrite (record_at_lookup _ _ _ _ Hr), Hd.
    unfold track. rewrite Ht, andb_false_r.
    destruct (processing r); by rewrite apply_track_id. }
  cbn [feed count_flushes]. rewrite Hw. cbn [mbind result_bind].
  destruct (IH self r Hplay Hr Hall) as [-> ->]. split; [done|].
  by rewrite flushed_same.
Qed.

(** Silence of a speaker who is not marked changes nothing. *)
Lemma feed_idle u frames : ∀ self r,
  user_data self !! id u = Some r → id u ∉ speaking_users self →
  Forall (λ f, loud f.1 = false) frames →
  feed self u frames = Ok self ∧ count_flushes self u frames = 0%nat.
Proof.
  induction frames as [|[d t] frames IH]; intros self r Hr Hout Hall; [done|].
  apply Forall_cons in Hall as [Hd Hall]. cbn [fst] in *.
  assert (write self (Some u) d t = Ok self) as Hw.
  { destruct (write_idle self u d t Hd Hout) as [H|(_ & E & _)]; [done|congruence]. }
  cbn [feed count_flushes]. rewrite Hw. cbn [mbind result_bind].
  destruct (IH self r Hr Hout Hall) as [-> ->]. split; [done|].
  by rewrite flushed_same.
Qed.

(** ** An utterance interrupted by a short silence *)

Lemma last_default_cons {A} (x y : A) (l : list A) :
  last (x :: l) = Some y → default x (last l) = y.
Proof. rewrite last_cons. destruct (last l); by intros [= ->]. Qed.

Lemma reachable_feed u frames : ∀ self s,
  reachable self → feed self u frames = Ok s → reachable s.
Proof.
  induction frames as [|[d t] frames IH]; intros self s Hr; cbn [feed].
  - by intros [= <-].
  - destruct (write self (Some u) d t) as [s1|e] eqn:E; [|done]. cbn [mbind result_bind].
    apply IH. apply (reachable_step self (Frame (Some u) d t)); [done|].
    cbn [step]. by rewrite E.
Qed.

(** Loud frames, a silence too short to flush, loud frames again, silence
    until it has lasted long enough, and silence after that. *)
Lemma feed_interrupted self u loud1 gap loud2 trailing d_end t_end rest t1 t2 :
  sound self → is_playing self = false →
  id u ∉ speaking_users self →
  (∀ r, user_data self !! id u = Some r → processing r = false) →
  loud1 ≠ [] → Forall (λ f, loud f.1 = true) loud1 → last (snd <$> loud1) = Some t1 →
  Forall (λ f, loud f.1 = false ∧ expired f.2 t1 = false) gap →
  loud2 ≠ [] → Forall (λ f, loud f.1 = true) loud2 → last (snd <$> loud2) = Some t2 →
  Forall (λ f, loud f.1 = false ∧ expired f.2 t2 = false) trailing →
  loud d_end = false → expired t_end t2 = true →
  Forall (λ f, loud f.1 = false) rest →
  let before := loud1 ++ gap ++ loud2 ++ trailing in
  let audio := audio_of loud1 ++ audio_of loud2 in
  ∃ s_before s_after,
    feed self u before = Ok s_before ∧
    count_flushes self u before = 0%nat ∧
    user_data s_before !! id u =
      Some {| buffer := audio; last_spoken := t2; processing := false |} ∧
    id u ∈ speaking_users s_before ∧
    loop s_before = loop self ∧
    write s_before (Some u) d_end t_end = Ok s_after ∧
    flushed s_before s_after (id u) = true ∧
    user_data s_after !! id u =
      Some {| buffer := []; last_spoken := t2; processing := long_enough audio |} ∧
    loop s_after = loop self ++ (if long_enough audio then [(u, audio)] else []) ∧
    feed s_after u rest = Ok s_after ∧
    count_flushes s_after u rest = 0%nat.
Proof.
  intros Hs Hplay Hout Hproc Hne1 Hl1 Ht1 Hgap Hne2 Hl2 Ht2 Htr Hd Hexp Hrest before audio.
  destruct loud1 as [|[d1 n1] l1]; [done|]. destruct loud2 as [|[d2 n2] l2]; [done|].
  rewrite fmap_cons in Ht1, Ht2. apply last_default_cons in Ht1, Ht2. cbn [snd] in *.
  (* the first loud frames *)
  assert (processing (record_at self (id u) n1) = false ∧
          buffer (record_at self (id u) n1) = []) as [Hp0 Hb0].
  { unfold record_at. destruct (user_data self !! id u) as [r|] eqn:E; cbn; [|done].
    split; [by apply Hproc|by eapply sound_idle]. }
  destruct (feed_loud u l1 self _ d1 n1 Hplay eq_refl Hp0 Hl1) as [HfA HcA].
  rewrite Hb0, Ht1 in HfA. cbn [app] in HfA.
  set (rA := {| buffer := audio_of ((d1, n1) :: l1); last_spoken := t1;
                processing := false |}) in *.
  set (sA := {| user_data := <[id u := rA]> (user_data self) |}) in *.
  assert (user_data sA !! id u = Some rA) as HrA by apply lookup_insert_eq.
  (* the short silence *)
  destruct (feed_short_silence u gap sA rA eq_refl HrA Hgap) as [HfB HcB].
  (* the second loud frames *)
  destruct (feed_loud u l2 sA rA d2 n2 eq_refl (record_at_lookup _ _ _ _ HrA) eq_refl Hl2)
    as [HfC HcC].
  rewrite Ht2 in HfC.
  set (rC := {| buffer := buffer rA ++ audio_of ((d2, n2) :: l2); last_spoken := t2;
                processing := false |}) in *.
  set (sC := {| user_data := <[id u := rC]> (user_data sA) |}) in *.
  assert (user_data sC !! id u = Some rC) as HrC by apply lookup_insert_eq.
  assert (id u ∈ speaking_users sC) as HinC.
  { apply elem_of_union_r. by apply elem_of_singleton. }
  (* the silence before the flush *)
  destruct (feed_short_silence u trailing sC rC eq_refl HrC Htr) as [HfD HcD].
  (* the flush *)
  pose proof (write_flush sC u d_end t_end rC eq_refl Hd HinC HrC eq_refl Hexp) as HfE.
  set (sE := {| user_data := <[id u := _]> (user_data sC) |}) in *.
  assert (id u ∉ speaking_users sE) as HoutE.
  { unfold sE. cbn [speaking_users]. intros [_ H]%elem_of_difference.
    apply H. by apply elem_of_singleton. }
  (* the silence after it *)
  destruct (feed_idle u rest sE _ (lookup_insert_eq _ _ _) HoutE Hrest) as [HfF HcF].
  exists sC, sE.
  assert (feed self u before = Ok sC) as Hbefore.
  { unfold before. rewrite feed_app, HfA. cbn [mbind result_bind].
    rewrite feed_app, HfB. cbn [mbind result_bind].
    rewrite feed_app, HfC. cbn [mbind result_bind]. done. }
  split; [done|]. split.
  { unfold before.
    rewrite (count_flushes_app _ _ _ _ _ HfA), HcA.
    rewrite (count_flushes_app _ _ _ _ _ HfB), HcB.
    rewrite (count_flushes_app _ _ _ _ _ HfC), HcC. by rewrite HcD. }
  split; [done|]. split; [done|]. split; [done|]. split; [done|]. split.
  { unfold flushed. rewrite bool_decide_true by done. by rewrite bool_decide_true. }
  split; [apply lookup_insert_eq|]. done.
Qed.

(** C4, as amended. From a reachable state where nothing is playing and
    the speaker is neither marked as speaking nor processing: loud
    frames, then silent frames none of which comes more than
    [SILENCE_DURATION] after the last loud one, then loud frames again,
    then silence that lasts longer than [SILENCE_DURATION], give exactly
    one flush, at the first frame that comes late enough; the short
    silence flushes nothing, the later loud frames are appended to the
    same buffer, and the flushed buffer is the first loud frames followed
    by the second ones: silent frames are never buffered, so its length
    is the sum of the lengths of the two loud runs. It is handed over
    when it is long enough. *)
Theorem interrupted_utterance self u loud1 gap loud2 trailing d_end t_end rest t1 t2 :
  reachable self → is_playing self = false →
  id u ∉ speaking_users self →
  (∀ r, user_data self !! id u = Some r → processing r = false) →
  loud1 ≠ [] → Forall (λ f, loud f.1 = true) loud1 → last (snd <$> loud1) = Some t1 →
  Forall (λ f, loud f.1 = false ∧ expired f.2 t1 = false) gap →
  loud2 ≠ [] → Forall (λ f, loud f.1 = true) loud2 → last (snd <$> loud2) = Some t2 →
  Forall (λ f, loud f.1 = false ∧ expired f.2 t2 = false) trailing →
  loud d_end = false → expired t_end t2 = true →
  Forall (λ f, loud f.1 = false) rest →
  let before := loud1 ++ gap ++ loud2 ++ trailing in
  let frames := before ++ (d_end, t_end) :: rest in
  let audio := audio_of loud1 ++ audio_of loud2 in
  count_flushes self u frames = 1%nat ∧
  count_flushes self u before = 0%nat ∧
  (∃ s_before, feed self u before = Ok s_before ∧
     (buffer <$> user_data s_before !! id u) = Some audio) ∧
  (∃ s_after, feed self u frames = Ok s_after ∧
     (buffer <$> user_data s_after !! id u) = Some [] ∧
     id u ∉ speaking_users s_after ∧
     loop s_after = loop self ++ (if long_enough audio then [(u, audio)] else [])) ∧
  length audio = (length (audio_of loud1) + length (audio_of loud2))%nat.
Proof.
  intros Hs%reachable_sound Hplay Hout Hproc Hne1 Hl1 Ht1 Hgap Hne2 Hl2 Ht2 Htr Hd Hexp
    Hrest before frames audio. subst before frames audio.
  pose proof (feed_interrupted self u loud1 gap loud2 trailing d_end t_end rest t1 t2
                Hs Hplay Hout Hproc Hne1 Hl1 Ht1 Hgap Hne2 Hl2 Ht2 Htr Hd Hexp Hrest) as H.
  cbv zeta in H.
  destruct H as (sB & sE & HfB & HcB & HrB & HinB & HlB & Hw & Hfl & HrE & HlE & HfR & HcR).
  destruct (feed_cons sB u d_end t_end rest sE Hw) as [Hf1 Hc1].
  split.
  { by rewrite (count_flushes_app _ _ _ _ _ HfB), Hc1, Hfl, HcR, HcB. }
  split; [done|]. split.
  { exists sB. split; [done|]. by rewrite HrB. }
  split.
  { exists sE. split.
    - rewrite feed_app, HfB. cbn [mbind result_bind]. by rewrite Hf1.
    - split; [by rewrite HrE|]. split; [|done].
      unfold flushed in Hfl. apply andb_true_iff in Hfl as [_ H].
      by apply bool_decide_eq_true in H. }
  apply length_app.
Qed.


Lemma audio_of_singleton d t : audio_of [(d, t)] = pcm d.
Proof. unfold audio_of. cbn. apply app_nil_r. Qed.

Lemma interrupted_utterance_witness :
  count_flushes init alice
    ([(steady 1000 4, seconds 10)] ++ [(steady 0 4, seconds 11)] ++
     [(steady 1000 4, seconds 12)] ++ [(steady 0 4, seconds 13)] ++
     (steady 0 4, seconds 14) :: [(steady 0 4, seconds 15)]) = 1%nat.
Proof.
  refine (proj1 (interrupted_utterance init alice
            [(steady 1000 4, seconds 10)] [(steady 0 4, seconds 11)]
            [(steady 1000 4, seconds 12)] [(steady 0 4, seconds 13)]
            (steady 0 4) (seconds 14) [(steady 0 4, seconds 15)]
            (seconds 10) (seconds 12) _ _ _ _ _ _ _ _ _ _ _ _ _ _ _)).
  - exists []. reflexivity.
  - reflexivity.
  - apply (bool_decide_unpack _). vm_compute. exact I.
  - intros r. vm_compute. discriminate.
  - discriminate.
  - repeat constructor.
  - reflexivity.
  - repeat constructor.
  - discriminate.
  - repeat constructor.
  - reflexivity.
  - repeat constructor.
  - vm_compute. reflexivity.
  - vm_compute. reflexivity.
  - repeat constructor.
Defined.

(** The silent gap is not part of the flushed buffer: 60000 + 60000 bytes
    are handed over, not 60000 + 8 + 60000. *)
Lemma gap_is_not_buffered :
  loud (steady 1000 30000) = true ∧ loud (steady 0 4) = false ∧
  expired (seconds 11) (seconds 10) = false ∧
  expired (seconds 14) (seconds 12) = true ∧
  length (pcm (steady 0 4)) = 8%nat ∧
  ∃ s,
    feed init alice interrupted = Ok s ∧
    count_flushes init alice interrupted = 1%nat ∧
    loop s = [(alice, pcm (steady 1000 30000) ++ pcm (steady 1000 30000))] ∧
    length (pcm (steady 1000 30000) ++ pcm (steady 1000 30000)) = 120000%nat.
Proof.
  assert (loud (steady 0 4) = false) as Hsilent by (vm_compute; reflexivity).
  assert (expired (seconds 11) (seconds 10) = false) as Hshort by (vm_compute; reflexivity).
  assert (expired (seconds 14) (seconds 12) = true) as Hlong by (vm_compute; reflexivity).
  split; [apply loud_steady_30000|]. do 3 (split; [done|]).
  split; [vm_compute; reflexivity|].
  pose proof (feed_interrupted init alice
                [(steady 1000 30000, seconds 10)] [(steady 0 4, seconds 11)]
                [(steady 1000 30000, seconds 12)] [] (steady 0 4) (seconds 14) []
                (seconds 10) (seconds 12) sound_init eq_refl) as H.
  cbv zeta in H. rewrite !audio_of_singleton in H.
  destruct H as (sB & sE & HfB & HcB & _ & _ & _ & Hw & Hfl & _ & HlE & _).
  - apply (bool_decide_unpack _). vm_compute. exact I.
  - intros r. vm_compute. discriminate.
  - discriminate.
  - apply Forall_singleton, loud_steady_30000.
  - reflexivity.
  - by apply Forall_singleton.
  - discriminate.
  - apply Forall_singleton, loud_steady_30000.
  - reflexivity.
  - constructor.
  - done.
  - done.
  - constructor.
  - assert (length (pcm (steady 1000 30000) ++ pcm (steady 1000 30000)) = 120000%nat)
      as Hlen by (rewrite length_app, !length_steady; reflexivity).
    rewrite long_enough_iff, Hlen in HlE.
    destruct (feed_cons sB alice (steady 0 4) (seconds 14) [] sE Hw) as [Hf1 Hc1].
    exists sE. split; [|split; [|split; [done|done]]].
    + change interrupted with
        (([(steady 1000 30000, seconds 10)] ++ [(steady 0 4, seconds 11)] ++
          [(steady 1000 30000, seconds 12)] ++ []) ++ [(steady 0 4, seconds 14)]).
      rewrite feed_app, HfB. cbn [mbind result_bind]. by rewrite Hf1.
    + change interrupted with
        (([(steady 1000 30000, seconds 10)] ++ [(steady 0 4, seconds 11)] ++
          [(steady 1000 30000, seconds 12)] ++ []) ++ [(steady 0 4, seconds 14)]).
      by rewrite (count_flushes_app _ _ _ _ _ HfB), Hc1, Hfl, HcB.
Qed.

(** ** The minimum length of an utterance *)

Lemma long_enough_length b : long_enough b = true ↔ 96000 < Z.of_nat (length b).
Proof. by rewrite long_enough_iff, Z.ltb_lt. Qed.

(** C5, as amended. [MIN_AUDIO_LENGTH * 48000 * 2 * 2] is 96000.0: half a
    second of 48 kHz stereo 16-bit audio, which runs at 192000 bytes per
    second. A flush hands the buffer to [process_audio] exactly when it
    holds more than 96000 bytes; a flushed buffer of at most 96000 bytes
    is dropped: it is cleared, nothing is handed over, [processing] stays
    clear and nothing is raised. *)
Theorem minimum_utterance_length :
  min_audio_bytes = of_int 96000 ∧
  (∀ b : bytes, int_gt (Z.of_nat (length b)) min_audio_bytes = true ↔
        96000 < Z.of_nat (length b)) ∧
  ∀ self u data now r,
    reachable self → is_playing self = false → loud data = false →
    id u ∈ speaking_users self → user_data self !! id u = Some r →
    expired now (last_spoken r) = true →
    ∃ self' r', write self (Some u) data now = Ok self' ∧
      id u ∉ speaking_users self' ∧
      user_data self' !! id u = Some r' ∧ buffer r' = [] ∧
      (Z.of_nat (length (buffer r)) ≤ 96000 →
       loop self' = loop self ∧ processing r' = false) ∧
      (96000 < Z.of_nat (length (buffer r)) →
       loop self' = loop self ++ [(u, buffer r)] ∧ processing r' = true).
Proof.
  split; [vm_compute; reflexivity|]. split; [apply long_enough_length|].
  intros self u data now r Hs%reachable_sound Hplay Hloud Hin Hr Hexp.
  destruct (sound_speaking _ Hs _ Hin) as (r0 & E0 & Hp).
  assert (r0 = r) as -> by congruence.
  eexists _, _. split; [by apply write_flush|].
  cbn [user_data speaking_users loop]. rewrite lookup_insert_eq.
  split.
  { intros [_ H]%elem_of_difference. apply H. by apply elem_of_singleton. }
  do 2 (split; [done|]). cbn [processing].
  pose proof (long_enough_length (buffer r)) as Hlong.
  destruct (long_enough (buffer r)).
  - split; [intros; assert (96000 < Z.of_nat (length (buffer r))) by (by apply Hlong); lia
           |done].
  - split; [intros; by rewrite app_nil_r|].
    intros H. apply Hlong in H. done.
Qed.

Lemma minimum_utterance_length_witness :
  ∃ self' r', write alice_speaking (Some alice) (steady 0 4) (seconds 12) = Ok self' ∧
    id alice ∉ speaking_users self' ∧
    user_data self' !! id alice = Some r' ∧ buffer r' = [] ∧
    (Z.of_nat (length (pcm (steady 1000 4))) ≤ 96000 →
     loop self' = loop alice_speaking ∧ processing r' = false) ∧
    (96000 < Z.of_nat (length (pcm (steady 1000 4))) →
     loop self' = loop alice_speaking ++ [(alice, pcm (steady 1000 4))] ∧
     processing r' = true).
Proof.
  apply (proj2 (proj2 minimum_utterance_length) alice_speaking alice (steady 0 4)
           (seconds 12)
           {| buffer := pcm (steady 1000 4); last_spoken := seconds 10;
              processing := false |}).
  - apply alice_speaking_reachable.
  - reflexivity.
  - vm_compute. reflexivity.
  - apply (bool_decide_unpack _). vm_compute. exact I.
  - vm_compute. reflexivity.
  - vm_compute. reflexivity.
Defined.

(** A flushed buffer of 60000 bytes, more than 48000, is not handed over. *)
Lemma sixty_thousand_bytes_are_dropped :
  ∃ s1 s2 r,
    feed init alice [(steady 1000 30000, seconds 10)] = Ok s1 ∧
    user_data s1 !! id alice = Some r ∧
    Z.of_nat (length (buffer r)) = 60000 ∧ 48000 < Z.of_nat (length (buffer r)) ∧
    write s1 (Some alice) (steady 0 4) (seconds 12) = Ok s2 ∧
    flushed s1 s2 (id alice) = true ∧
    (buffer <$> user_data s2 !! id alice) = Some [] ∧
    loop s2 = [].
Proof.
  assert (loud (steady 0 4) = false) as Hsilent by (vm_compute; reflexivity).
  assert (expired (seconds 12) (seconds 10) = true) as Hlong by (vm_compute; reflexivity).
  destruct (feed_loud alice [] init _ (steady 1000 30000) (seconds 10)
              eq_refl eq_refl eq_refl) as [Hf _].
  { apply Forall_singleton, loud_steady_30000. }
  rewrite audio_of_singleton in Hf. cbn [app last fmap list_fmap default] in Hf.
  set (r := {| buffer := _ |}) in Hf.
  set (s1 := {| user_data := _ |}) in Hf.
  assert (user_data s1 !! id alice = Some r) as Hr by apply lookup_insert_eq.
  assert (Z.of_nat (length (buffer r)) = 60000) as Hlen.
  { unfold r. cbn [buffer].
    change (buffer (record_at init (id alice) (seconds 10))) with (@nil byte).
    cbn [app]. rewrite length_steady. reflexivity. }
  assert (id alice ∈ speaking_users s1) as Hin.
  { apply elem_of_union_r. by apply elem_of_singleton. }
  pose proof (write_flush s1 alice (steady 0 4) (seconds 12) r eq_refl Hsilent Hin Hr
                eq_refl Hlong) as Hw.
  rewrite long_enough_iff, Hlen in Hw.
  change (96000 <? 60000) with false in Hw.
  eexists s1, _, r. split; [exact Hf|]. split; [exact Hr|]. split; [exact Hlen|].
  split; [rewrite Hlen; lia|].
  split; [exact Hw|]. split.
  { unfold flushed. cbn [speaking_users]. rewrite bool_decide_true by exact Hin.
    rewrite bool_decide_true; [reflexivity|].
    intros [_ H]%elem_of_difference. apply H. by apply elem_of_singleton. }
  cbn [user_data loop]. rewrite lookup_insert_eq. split; reflexivity.
Qed.

(** ** One utterance, start to hand-over *)


Lemma run_frames u frames : ∀ self s evs,
  feed self u frames = Ok s → run self (frames_of u frames ++ evs) = run s evs.
Proof.
  induction frames as [|[d t] frames IH]; intros self s evs; cbn [feed].
  - by intros [= ->].
  - destruct (write self (Some u) d t) as [s1|e] eqn:E; [|done]. cbn [mbind result_bind].
    intros H. unfold frames_of. rewrite fmap_cons. cbn [app run step fst snd].
    rewrite E. by apply IH.
Qed.

(** Loud frames and the silent frame that ends them. *)
Lemma feed_utterance self u d t frames d_end t_end :
  sound self → is_playing self = false → id u ∉ speaking_users self →
  (∀ r, user_data self !! id u = Some r → processing r = false) →
  Forall (λ f, loud f.1 = true) ((d, t) :: frames) →
  loud d_end = false →
  expired t_end (default t (last (snd <$> frames))) = true →
  let audio := audio_of ((d, t) :: frames) in
  feed self u (((d, t) :: frames) ++ [(d_end, t_end)]) =
  Ok {| user_data :=
          <[id u := {| buffer := []; last_spoken := default t (last (snd <$> frames));
                       processing := long_enough audio |}]> (user_data self);
        speaking_users := speaking_users self;
        is_playing := false;
        loop := loop self ++ if long_enough audio then [(u, audio)] else [] |}.
Proof.
  intros Hs Hplay Hout Hproc Hloud Hend Hexp audio. subst audio.
  assert (processing (record_at self (id u) t) = false ∧
          buffer (record_at self (id u) t) = []) as [Hp0 Hb0].
  { unfold record_at. destruct (user_data self !! id u) as [r|] eqn:E; cbn; [|done].
    split; [by apply Hproc|by eapply sound_idle]. }
  destruct (feed_loud u frames self _ d t Hplay eq_refl Hp0 Hloud) as [Hf _].
  rewrite Hb0 in Hf. cbn [app] in Hf.
  rewrite feed_app, Hf. cbn [mbind result_bind feed].
  rewrite (write_flush _ u d_end t_end
             {| buffer := audio_of ((d, t) :: frames);
                last_spoken := default t (last (snd <$> frames)); processing := false |});
    try reflexivity; try assumption.
  - cbn [mbind result_bind feed user_data speaking_users is_playing loop buffer last_spoken].
    f_equal. apply sink_eq; try reflexivity.
    + apply insert_insert_eq.
    + apply set_eq. intros k. rewrite elem_of_difference, elem_of_union, elem_of_singleton.
      split; [intros [[H|H] Hne]; [exact H|contradiction]|].
      intros H. split; [by left|]. intros ->. contradiction.
  - cbn [speaking_users]. apply elem_of_union_r. by apply elem_of_singleton.
  - cbn [user_data]. apply lookup_insert_eq.
Qed.

Lemma process_audio_helpful self u audio :
  process_audio self u audio helpful = (Ok tt, (release u (set_is_playing self true)).2).
Proof.
  unfold process_audio, try_finally.
  assert (try_except_stmt (process_audio_body u audio helpful) (λ _, pass) self =
          (Normal tt, set_is_playing self true)) as -> by reflexivity.
  unfold release. by destruct (user_data _ !! id u).
Qed.


Lemma handed_over_feed :
  feed init alice [(steady 1000 48002, seconds 10); (steady 0 4, seconds 12)] =
  Ok handed_over.
Proof.
  pose proof (feed_utterance init alice (steady 1000 48002) (seconds 10) []
                (steady 0 4) (seconds 12) sound_init eq_refl) as H.
  cbv zeta in H. rewrite audio_of_singleton, long_enough_iff, length_steady in H.
  change (96000 <? Z.of_nat (2 * 48002)) with true in H.
  cbn [app] in H. rewrite H.
  - reflexivity.
  - apply (bool_decide_unpack _). vm_compute. exact I.
  - intros r. vm_compute. discriminate.
  - apply Forall_singleton, loud_steady_48002.
  - vm_compute. reflexivity.
  - vm_compute. reflexivity.
Qed.

Lemma handed_over_reachable : reachable handed_over.
Proof.
  exists (frames_of alice [(steady 1000 48002, seconds 10); (steady 0 4, seconds 12)]
          ++ []).
  exact (run_frames alice _ init handed_over [] handed_over_feed).
Qed.

Lemma answered_run : run init answering = Some answered.
Proof.
  unfold answering. rewrite (run_frames _ _ _ _ _ handed_over_feed).
  cbn [run step].
  rewrite write_loud; [|reflexivity|vm_compute; reflexivity|reflexivity].
  cbn [loop user_data speaking_users is_playing handed_over lookup list_lookup].
  rewrite process_audio_helpful, release_sink.
  cbn [set_loop set_is_playing set_user_data user_data speaking_users is_playing loop].
  reflexivity.
Qed.

(** Bob is marked as speaking and has been silent for seven seconds, but
    the answer to Alice is playing: his frame is dropped, he stays marked
    and his buffer is kept. *)
Lemma flush_skipped_while_playing :
  run init answering = Some answered ∧
  rms (pcm (steady 0 4)) = Ok (Flt (S754_zero false)) ∧
  le_int (Flt (S754_zero false)) SILENCE_THRESHOLD = true ∧
  id bob ∈ speaking_users answered ∧
  user_data answered !! id bob =
    Some {| buffer := pcm (steady 1000 4); last_spoken := seconds 13;
            processing := false |} ∧
  expired (seconds 20) (seconds 13) = true ∧
  write answered (Some bob) (steady 0 4) (seconds 20) = Ok answered.
Proof.
  split; [apply answered_run|].
  split; [vm_compute; reflexivity|].
  split; [reflexivity|].
  split; [apply (bool_decide_unpack _); vm_compute; exact I|].
  split; [vm_compute; reflexivity|].
  split; [vm_compute; reflexivity|].
  by apply write_playing.
Qed.

Lemma playback_suppresses_frames_witness :
  (∀ user data now, write answered user data now = Ok answered) ∧
  ∃ self', step answered PlaybackEnd = Some self' ∧ is_playing self' = false.
Proof.
  destruct (playback_suppresses_frames answered eq_refl)
    as (Hdrop & self' & Hstep & Hplay & _).
  split; [exact Hdrop|]. exists self'. split; [exact Hstep|exact Hplay].
Defined.

Lemma one_utterance_in_flight_witness :
  (∀ uid, (outstanding handed_over uid ≤ 1)%nat) ∧
  (∀ u audio, (u, audio) ∈ loop handed_over →
     ∃ r, user_data handed_over !! id u = Some r ∧ processing r = true) ∧
  (∀ u r data now,
     user_data handed_over !! id u = Some r → processing r = true →
     write handed_over (Some u) data now = Ok handed_over).
Proof. exact (one_utterance_in_flight handed_over handed_over_reachable). Defined.

Lemma process_audio_releases_flag_witness :
  (process_audio handed_over alice (pcm (steady 1000 48002)) deaf).1 = Ok tt ∧
  user_data (process_audio handed_over alice (pcm (steady 1000 48002)) deaf).2 !! id alice =
  Some {| buffer := []; last_spoken := seconds 10; processing := false |}.
Proof.
  pose proof (process_audio_releases_flag handed_over alice (pcm (steady 1000 48002)) deaf)
    as H.
  cbv zeta in H. destruct H as (Hflag & _ & _ & _ & _ & Hret). split.
  - apply Hret. unfold ordinary, deaf. cbn. tauto.
  - apply (Hflag {| buffer := []; last_spoken := seconds 10; processing := true |}).
    vm_compute. reflexivity.
Defined.

(** * Further properties of the sink *)

(** ** What a frame can touch *)

Lemma write_effect self u data now self' :
  write self (Some u) data now = Ok self' →
  self' = self ∨
  ∃ r spk handed,
    self' = apply_track self u (r, spk, handed) ∧
    (handed = None ∨ handed = Some (buffer (record_at self (id u) now))).
Proof.
  destruct (is_playing self) eqn:Hplay.
  { rewrite write_playing by done. intros [= <-]. by left. }
  rewrite write_track by done. intros [= <-]. right.
  destruct (track _ _ _ _ _) as [[r spk] handed] eqn:T.
  exists r, spk, handed. split; [done|].
  unfold track in T.
  repeat match type of T with
         | (if ?b then _ else _) = _ => destruct b
         end; injection T as <- <- <-; auto.
Qed.

(** X1. [write] never raises: the subscript [self.user_data[user.id]] of
    line 68 and [speaking_users.remove] of line 83 always find their key,
    and a failure of the RMS computation is swallowed; so every sequence
    of frames and ends of playback can be run from every sink. *)
Theorem write_never_raises :
  (∀ self user data now, ∃ self', write self user data now = Ok self') ∧
  (∀ evs self,
     Forall (λ ev, match ev with Run _ _ => False | _ => True end) evs →
     ∃ self', run self evs = Some self').
Proof.
  split; [apply write_total|].
  induction evs as [|ev evs IH]; intros self Hall; [by eexists|].
  apply Forall_cons in Hall as [Hev Hall]. cbn [run].
  destruct (step_total self ev) as [s ->]; [|by apply IH].
  intros n ext ->. destruct Hev.
Qed.

Lemma write_never_raises_witness :
  ∃ self', run alice_speaking [Frame (Some bob) (steady 1000 4) (seconds 11);
                               PlaybackEnd] = Some self'.
Proof.
  apply (proj2 write_never_raises). by repeat constructor.
Defined.

(** X2. A frame of one speaker leaves every other speaker's record and
    mark as they were, does not change playback, and either leaves the
    submitted coroutines as they were or adds one at the end, for that
    speaker, with the buffer the speaker had. *)
Theorem write_touches_one_speaker self u data now self' :
  write self (Some u) data now = Ok self' →
  (∀ uid, uid ≠ id u →
     user_data self' !! uid = user_data self !! uid ∧
     (uid ∈ speaking_users self' ↔ uid ∈ speaking_users self)) ∧
  is_playing self' = is_playing self ∧
  (loop self' = loop self ∨
   loop self' = loop self ++ [(u, buffer (record_at self (id u) now))]).
Proof.
  intros [->|(r & spk & handed & -> & Hh)]%write_effect; [by auto|].
  split; [|split].
  - intros uid Hne. rewrite apply_track_lookup, apply_track_speaking.
    by rewrite !decide_False by done.
  - done.
  - rewrite apply_track_loop. cbn [snd].
    destruct Hh as [-> | ->]; [left; apply app_nil_r|by right].
Qed.

Lemma write_touches_one_speaker_witness :
  ∃ self', write alice_speaking (Some bob) (steady 1000 4) (seconds 11) = Ok self' ∧
    user_data self' !! id alice = user_data alice_speaking !! id alice.
Proof.
  eexists. split; [apply write_track; reflexivity|].
  refine (proj1 (proj1 (write_touches_one_speaker alice_speaking bob (steady 1000 4)
                          (seconds 11) _
                          (write_track alice_speaking bob (steady 1000 4) (seconds 11)
                             eq_refl)) (id alice) _)).
  discriminate.
Defined.

(** ** Records are kept *)

Lemma step_keeps_records self ev self' uid :
  step self ev = Some self' →
  is_Some (user_data self !! uid) → is_Some (user_data self' !! uid).
Proof.
  destruct ev as [user data now|n ext|]; cbn [step].
  - destruct (write self user data now) as [s|e] eqn:E; [|done]. intros [= <-].
    destruct user as [u|]; [|by injection E as <-].
    apply write_effect in E as [->|(r & spk & handed & -> & _)]; [done|].
    rewrite apply_track_lookup. by destruct (decide (id u = uid)).
  - destruct (loop self !! n) as [[u audio]|]; [|done]. intros [= <-].
    destruct (process_audio_sink u audio ext) as (res & p & ->).
    rewrite release_sink. cbn [snd set_user_data set_is_playing set_loop user_data].
    destruct (user_data self !! id u) as [r|] eqn:E; [|done].
    rewrite lookup_insert. by destruct (decide (id u = uid)).
  - by intros [= <-].
Qed.

(** X3. No record is ever removed from [user_data]: whatever happens to
    the sink (frames, coroutines that run, playback that ends), a speaker
    who has a record keeps one; and a frame adds at most the record of its
    own speaker. *)
Theorem records_are_kept :
  (∀ evs self self' uid,
     run self evs = Some self' →
     is_Some (user_data self !! uid) → is_Some (user_data self' !! uid)) ∧
  (∀ self u data now self' uid,
     write self (Some u) data now = Ok self' →
     is_Some (user_data self' !! uid) →
     uid = id u ∨ is_Some (user_data self !! uid)).
Proof.
  split.
  - induction evs as [|ev evs IH]; intros self self' uid; cbn [run].
    + by intros [= <-].
    + destruct (step self ev) as [s|] eqn:E; [|done]. intros Hrun Hsome.
      eapply IH; [done|]. by eapply step_keeps_records.
  - intros self u data now self' uid
      [->|(r & spk & handed & -> & _)]%write_effect; [by auto|].
    rewrite apply_track_lookup. destruct (decide (id u = uid)); auto.
Qed.

Lemma records_are_kept_witness :
  is_Some (user_data answered !! id alice).
Proof.
  refine (proj1 records_are_kept [Frame (Some bob) (steady 1000 4) (seconds 13);
                                   Run 0 helpful] handed_over answered (id alice) _ _).
  - reflexivity.
  - vm_compute. eauto.
Defined.

(** ** More that holds in every reachable state *)


Lemma loud_even data : loud data = true → Nat.Even (length (pcm data)).
Proof.
  intros Hloud. destruct (Nat.Even_or_Odd (length (pcm data))) as [|Hodd]; [done|].
  unfold loud in Hloud. by rewrite (rms_odd _ Hodd) in Hloud.
Qed.

Lemma Even_app {A} (l1 l2 : list A) :
  Nat.Even (length l1) → Nat.Even (length l2) → Nat.Even (length (l1 ++ l2)).
Proof. intros [a Ha] [b Hb]. exists (a + b)%nat. rewrite length_app. lia. Qed.

Lemma loud_nonempty data : loud data = true → pcm data ≠ [].
Proof. destruct data as [p]. cbn [pcm]. intros Hloud ->. by vm_compute in Hloud. Qed.

Lemma track_tidy r spk pcm ld now r' spk' h :
  track r spk pcm ld now = (r', spk', h) →
  Nat.Even (length (buffer r)) → (ld = true → Nat.Even (length pcm)) →
  Nat.Even (length (buffer r')) ∧
  (∀ a, h = Some a → Nat.Even (length a) ∧ 96000 < Z.of_nat (length a)) ∧
  (processing r' = true → processing r = true ∨ is_Some h).
Proof.
  unfold track. intros T Hr Hpcm.
  destruct (processing r) eqn:Hp.
  { injection T as <- <- <-. split; [done|]. split; [done|]. by left. }
  destruct ld.
  { injection T as <- <- <-. cbn. split; [by apply Even_app; auto|].
    split; [done|]. by rewrite Hp. }
  destruct (spk && expired now (last_spoken r)).
  - destruct (long_enough (buffer r)) eqn:Hlong; injection T as <- <- <-; cbn.
    + split; [by exists 0%nat|]. split; [|by eauto].
      intros a [= <-]. split; [done|]. by apply long_enough_length.
    + split; [by exists 0%nat|]. split; [done|]. by rewrite Hp.
  - injection T as <- <- <-. split; [done|]. split; [done|]. by rewrite Hp.
Qed.

Lemma track_marked r spk pcm ld now r' spk' h :
  track r spk pcm ld now = (r', spk', h) →
  (spk = true → buffer r ≠ []) → (ld = true → pcm ≠ []) →
  spk' = true → buffer r' ≠ [].
Proof.
  unfold track. intros T Hr Hpcm.
  destruct (processing r); [by injection T as <- <- <-|].
  destruct ld.
  { injection T as <- <- <-. cbn. intros _ [_ E]%app_eq_nil. by apply Hpcm. }
  destruct (spk && expired now (last_spoken r)).
  - by destruct (long_enough (buffer r)); injection T as <- <- <-.
  - by injection T as <- <- <-.
Qed.

Lemma tidy_init : tidy init.
Proof.
  split; cbn.
  - intros uid r. by rewrite lookup_empty.
  - intros uid r. by rewrite lookup_empty.
  - intros u audio H. by apply elem_of_nil in H.
  - intros uid H. by apply elem_of_empty in H.
Qed.

Lemma write_tidy self user data now self' :
  tidy self → write self user data now = Ok self' → tidy self'.
Proof.
  intros Ht. destruct user as [u|]; [|by intros [= <-]].
  destruct (is_playing self) eqn:Hplay.
  { rewrite write_playing by done. by intros [= <-]. }
  rewrite write_track by done. intros [= <-].
  assert (Nat.Even (length (buffer (record_at self (id u) now)))) as Hr.
  { unfold record_at. destruct (user_data self !! id u) as [r|] eqn:E; cbn.
    - by eapply tidy_buffer. - by exists 0%nat. }
  destruct (track _ _ _ _ _) as [[r' spk'] h] eqn:T.
  destruct (track_tidy _ _ _ _ _ _ _ _ T Hr (loud_even data)) as (Q1 & Q2 & Q3).
  split.
  - intros uid r. rewrite apply_track_lookup, apply_track_loop. cbn [fst snd].
    rewrite fmap_app, elem_of_app.
    destruct (decide (id u = uid)) as [<-|Hne].
    + intros [= <-] Hp. destruct (Q3 Hp) as [Hold|[a ->]].
      * left. unfold record_at in Hold.
        destruct (user_data self !! id u) as [r0|] eqn:E; [|done].
        by eapply tidy_flag.
      * right. cbn. by apply list_elem_of_singleton.
    + intros E Hp. left. by eapply tidy_flag.
  - intros uid r. rewrite apply_track_lookup. cbn [fst].
    destruct (decide (id u = uid)); [by intros [= <-]|by apply tidy_buffer].
  - intros u' a'. rewrite apply_track_loop. cbn [snd].
    intros [Hin|Hin]%elem_of_app; [by eapply tidy_loop|].
    destruct h as [a|]; [|by apply elem_of_nil in Hin].
    apply list_elem_of_singleton in Hin as [= -> ->]. by apply Q2.
  - intros uid. rewrite apply_track_lookup, apply_track_speaking. cbn [fst snd].
    destruct (decide (id u = uid)) as [<-|Hne]; [|by apply tidy_marked].
    intros Hspk. eexists. split; [done|].
    eapply track_marked; [exact T| |apply loud_nonempty|done].
    intros Hin%bool_decide_eq_true.
    destruct (tidy_marked _ Ht _ Hin) as (r0 & E0 & Hne).
    by rewrite (record_at_lookup _ _ _ _ E0).
Qed.

Lemma step_tidy self ev self' :
  sound self → tidy self → step self ev = Some self' → tidy self'.
Proof.
  intros Hs Ht. destruct ev as [user data now|n ext|]; cbn [step].
  - destruct (write self user data now) as [s|e] eqn:E; [|done]. intros [= <-].
    by eapply write_tidy.
  - destruct (loop self !! n) as [[u audio]|] eqn:En; [|done]. intros [= <-].
    destruct (process_audio_sink u audio ext) as (res & p & ->).
    rewrite release_sink. cbn [snd set_user_data set_is_playing set_loop user_data loop].
    split.
    + intros uid r Er Hp.
      cbn [snd set_user_data set_is_playing set_loop user_data loop] in *.
      assert (uid ≠ id u ∧ ∃ r0, user_data self !! uid = Some r0 ∧ processing r0 = true)
        as (Hne & r0 & E0 & Hp0).
      { destruct (user_data self !! id u) as [ru|] eqn:Eu.
        - rewrite lookup_insert in Er. destruct (decide (id u = uid)) as [<-|].
          + injection Er as <-. done.
          + split; [done|]. eauto.
        - split; [|by eauto]. intros ->.
          destruct (sound_flag _ Hs u audio) as (r1 & E1 & _); [|congruence].
          apply list_elem_of_lookup. eauto. }
      pose proof (tidy_flag _ Ht _ _ E0 Hp0) as Hin.
      apply list_elem_of_fmap in Hin as ([u' a'] & Hid & Hin). cbn in Hid.
      apply list_elem_of_lookup in Hin as [i Hi].
      assert (i ≠ n) as Hi_ne by (intros ->; congruence).
      apply list_elem_of_fmap. exists (u', a'). split; [done|].
      apply list_elem_of_lookup.
      destruct (decide (i < n)%nat).
      * exists i. by rewrite list_lookup_delete_lt.
      * exists (Nat.pred i). rewrite list_lookup_delete_ge by lia.
        by replace (S (Nat.pred i)) with i by lia.
    + intros uid r Er.
      cbn [snd set_user_data set_is_playing set_loop user_data loop] in *.
      destruct (user_data self !! id u) as [ru|] eqn:Eu; [|by eapply tidy_buffer].
      rewrite lookup_insert in Er. destruct (decide (id u = uid)) as [<-|].
      * injection Er as <-. cbn. by eapply tidy_buffer.
      * by eapply tidy_buffer.
    + intros u' a' Hin.
      cbn [snd set_user_data set_is_playing set_loop user_data loop] in *.
      apply list_elem_of_delete_inv in Hin. by eapply tidy_loop.
    + intros uid Hin.
      cbn [snd set_user_data set_is_playing set_loop user_data speaking_users] in *.
      destruct (tidy_marked _ Ht _ Hin) as (r0 & E0 & Hne).
      destruct (user_data self !! id u) as [ru|] eqn:Eu; [|by eauto].
      rewrite lookup_insert. destruct (decide (id u = uid)) as [<-|]; [|by eauto].
      eexists. split; [done|]. cbn. congruence.
  - intros [= <-]. destruct Ht. by split.
Qed.

Lemma reachable_tidy self : reachable self → tidy self.
Proof.
  intros [evs H].
  assert (∀ evs s s', sound s → tidy s → run s evs = Some s' → tidy s') as Hrun.
  { clear. induction evs as [|ev evs IH]; intros s s' Hs Ht; cbn [run].
    - by intros [= <-].
    - destruct (step s ev) as [s1|] eqn:E; [|done].
      apply IH; [by eapply step_sound|by eapply step_tidy]. }
  eapply Hrun; [apply sound_init|apply tidy_init|done].
Qed.

(** X4. In every reachable state a speaker who is marked as speaking has a
    record and is not processing, the buffer of a speaker who is not
    marked is empty, and so a speaker who is processing is not marked and
    has an empty buffer. *)
Theorem marks_flags_and_buffers self uid :
  reachable self →
  (uid ∈ speaking_users self →
   ∃ r, user_data self !! uid = Some r ∧ processing r = false) ∧
  (∀ r, user_data self !! uid = Some r →
        (uid ∉ speaking_users self → buffer r = []) ∧
        (processing r = true → uid ∉ speaking_users self ∧ buffer r = [])).
Proof.
  intros Hs%reachable_sound. split; [by apply sound_speaking|].
  intros r E. split; [by eapply sound_idle|]. intros Hp.
  assert (uid ∉ speaking_users self) as Hout.
  { intros Hin. destruct (sound_speaking _ Hs _ Hin) as (r' & E' & Hp'). congruence. }
  split; [done|]. by eapply sound_idle.
Qed.

Lemma marks_flags_and_buffers_witness :
  ∃ r, user_data alice_speaking !! id alice = Some r ∧ processing r = false.
Proof.
  refine (proj1 (marks_flags_and_buffers alice_speaking (id alice)
                   alice_speaking_reachable) _).
  change (1 ∈ ({[1]} : gset Z)). by apply elem_of_singleton.
Defined.

Lemma filter_key_elem {A} (f : A → Z) (l : list A) k :
  k ∈ f <$> l ↔ (1 ≤ length (filter (λ t, f t = k) l))%nat.
Proof.
  induction l as [|x l IH].
  - cbn. split; [by intros ?%elem_of_nil|lia].
  - rewrite fmap_cons, elem_of_cons. destruct (decide (f x = k)) as [E|E].
    + rewrite filter_cons_True by done. cbn. split; [lia|by left].
    + rewrite filter_cons_False by done. rewrite <- IH. split; [|by right].
      by intros [?|?].
Qed.

(** X5. In every reachable state the [processing] flag of a speaker is set
    exactly while one coroutine of that speaker is outstanding, and clear
    exactly while none is. *)
Theorem processing_means_outstanding self uid r :
  reachable self → user_data self !! uid = Some r →
  (processing r = true ↔ outstanding self uid = 1%nat) ∧
  (processing r = false ↔ outstanding self uid = 0%nat).
Proof.
  intros Hr E. pose proof (reachable_sound _ Hr) as Hs.
  pose proof (reachable_tidy _ Hr) as Ht.
  pose proof (NoDup_filter_key (λ t, id t.1) (loop self) uid (sound_once _ Hs)) as Hle.
  pose proof (filter_key_elem (λ t : User * bytes, id t.1) (loop self) uid) as Hin.
  unfold outstanding. cbn beta in Hle, Hin.
  assert (processing r = true ↔ uid ∈ (λ t : User * bytes, id t.1) <$> loop self) as Hp.
  { split; [by eapply tidy_flag|].
    intros ([u a] & Hid & Hua)%list_elem_of_fmap. cbn in Hid. subst uid.
    destruct (sound_flag _ Hs _ _ Hua) as (r' & E' & Hp'). congruence. }
  split; [rewrite Hp, Hin; lia|].
  destruct (processing r).
  - split; [done|]. intros H0.
    assert (true = true) as H' by done. apply Hp, Hin in H'. lia.
  - split; [intros _|done].
    destruct (decide (1 ≤ length (filter (λ t : User * bytes, id t.1 = uid) (loop self)))%nat)
      as [H1|H1]; [|lia].
    by apply Hin, Hp in H1.
Qed.

Lemma processing_means_outstanding_witness :
  (true = true ↔ outstanding handed_over (id alice) = 1%nat) ∧
  (true = false ↔ outstanding handed_over (id alice) = 0%nat).
Proof.
  refine (processing_means_outstanding handed_over (id alice)
            {| buffer := []; last_spoken := seconds 10; processing := true |}
            handed_over_reachable _).
  reflexivity.
Defined.

(** X6. In every reachable state each buffer holds a whole number of
    16-bit samples (a frame that fails to decode has RMS 0 and is never
    appended), and each utterance handed to [process_audio] does too and
    is longer than 96000 bytes. *)
Theorem buffers_hold_whole_samples self :
  reachable self →
  (∀ uid r, user_data self !! uid = Some r → Nat.Even (length (buffer r))) ∧
  (∀ u audio, (u, audio) ∈ loop self →
     Nat.Even (length audio) ∧ 96000 < Z.of_nat (length audio)).
Proof.
  intros Ht%reachable_tidy. split; [apply tidy_buffer, Ht|apply tidy_loop, Ht].
Qed.

Lemma buffers_hold_whole_samples_witness :
  Nat.Even (length (pcm (steady 1000 48002))) ∧
  96000 < Z.of_nat (length (pcm (steady 1000 48002))).
Proof.
  apply (proj2 (buffers_hold_whole_samples handed_over handed_over_reachable) alice).
  apply list_elem_of_singleton. reflexivity.
Defined.

(** X7. In every reachable state there are no more coroutines outstanding
    than speakers with a record. *)
Theorem outstanding_bounded_by_speakers self :
  reachable self → (length (loop self) ≤ size (user_data self))%nat.
Proof.
  intros Hs%reachable_sound.
  rewrite <- (length_fmap (λ t : User * bytes, id t.1)), <- size_dom.
  unfold size, set_size. cbn.
  apply submseteq_length, NoDup_submseteq; [apply sound_once, Hs|].
  intros uid ([u a] & Hid & Hua)%list_elem_of_fmap. cbn in Hid. subst uid.
  destruct (sound_flag _ Hs _ _ Hua) as (r & E & _).
  apply elem_of_elements, elem_of_dom. by eexists.
Qed.

Lemma outstanding_bounded_by_speakers_witness :
  (length (loop handed_over) ≤ size (user_data handed_over))%nat.
Proof. exact (outstanding_bounded_by_speakers handed_over handed_over_reachable). Defined.

(** X8. In every reachable state a speaker who has a record is marked as
    speaking exactly when the buffer holds audio: [speaking_users] is the
    set of speakers whose buffer is not empty. *)
Theorem marked_iff_buffering self uid r :
  reachable self → user_data self !! uid = Some r →
  (uid ∈ speaking_users self ↔ buffer r ≠ []).
Proof.
  intros Hr E. split.
  - intros Hin. destruct (tidy_marked _ (reachable_tidy _ Hr) _ Hin) as (r' & E' & Hne).
    congruence.
  - intros Hne. destruct (decide (uid ∈ speaking_users self)) as [|Hout]; [done|].
    destruct Hne. by eapply sound_idle; [apply reachable_sound| |].
Qed.

Lemma marked_iff_buffering_witness :
  id alice ∈ speaking_users alice_speaking ↔ pcm (steady 1000 4) ≠ [].
Proof.
  refine (marked_iff_buffering alice_speaking (id alice)
            {| buffer := pcm (steady 1000 4); last_spoken := seconds 10;
               processing := false |}
            alice_speaking_reachable _).
  reflexivity.
Defined.

(** ** The processing flag, from hand-over to completion *)

Lemma idle_not_outstanding self uid r :
  sound self → user_data self !! uid = Some r → processing r = false →
  outstanding self uid = 0%nat.
Proof.
  intros Hs E Hp. unfold outstanding.
  pose proof (filter_key_elem (λ t : User * bytes, id t.1) (loop self) uid) as Hin.
  cbn beta in Hin.
  destruct (decide (1 ≤ length (filter (λ t : User * bytes, id t.1 = uid) (loop self)))%nat)
    as [H1|H1]; [|lia].
  apply Hin in H1 as ([u a] & Hid & Hua)%list_elem_of_fmap. cbn in Hid. subst uid.
  destruct (sound_flag _ Hs _ _ Hua) as (r' & E' & Hp'). congruence.
Qed.

(** X9. While the [processing] flag of a speaker is set, every event
    other than the completion of that speaker's own coroutine (a frame of
    the speaker or of anybody else, the completion of another speaker's
    coroutine, the end of playback) leaves the speaker's record exactly
    as it is, the flag included: nothing but the completion of the
    coroutine clears the flag, and a coroutine that never completes (a
    collaborator that never returns) never clears it. In every reachable
    state that coroutine is with the event loop; when it runs to its end,
    each collaborator call having returned or raised, the record is the
    same but for [processing = False], and no coroutine of the speaker is
    outstanding. *)
Theorem flag_held_until_completion self uid r :
  reachable self → user_data self !! uid = Some r → processing r = true →
  (∀ ev self',
     step self ev = Some self' →
     (∀ n ext u audio, ev = Run n ext → loop self !! n = Some (u, audio) → id u ≠ uid) →
     user_data self' !! uid = Some r) ∧
  ∃ n u audio,
    loop self !! n = Some (u, audio) ∧ id u = uid ∧
    ∀ ext, ∃ self',
      step self (Run n ext) = Some self' ∧
      user_data self' !! uid = Some (set_processing r false) ∧
      outstanding self' uid = 0%nat.
Proof.
  intros Hr E Hp. split.
  { intros ev self' Hstep Hown. destruct ev as [user data now|n ext|]; cbn [step] in Hstep.
    - destruct (write self user data now) as [s|e] eqn:Hw; [|done]. injection Hstep as <-.
      destruct user as [u|]; [|by injection Hw as <-].
      destruct (decide (id u = uid)) as [<-|Hne].
      + rewrite (write_processing _ _ _ _ _ E Hp) in Hw. by injection Hw as <-.
      + apply write_effect in Hw as [->|(r' & spk & handed & -> & _)]; [done|].
        rewrite apply_track_lookup. by rewrite decide_False.
    - destruct (loop self !! n) as [[u audio]|] eqn:Hn; [|done]. injection Hstep as <-.
      specialize (Hown n ext u audio eq_refl Hn).
      destruct (process_audio_sink u audio ext) as (res & p & ->).
      rewrite release_sink. cbn [snd set_user_data set_is_playing set_loop user_data].
      destruct (user_data self !! id u); [|done]. by rewrite lookup_insert_ne.
    - by injection Hstep as <-. }
  pose proof (tidy_flag _ (reachable_tidy _ Hr) _ _ E Hp) as Hin.
  apply list_elem_of_fmap in Hin as ([u a] & Hid & Hin). cbn in Hid.
  apply list_elem_of_lookup in Hin as [n Hn].
  exists n, u, a. split; [done|]. split; [done|]. intros ext.
  destruct (step self (Run n ext)) as [self'|] eqn:Hstep;
    [|by cbn [step] in Hstep; rewrite Hn in Hstep].
  exists self'. split; [done|].
  assert (user_data self' !! uid = Some (set_processing r false)) as E'.
  { cbn [step] in Hstep. rewrite Hn in Hstep. injection Hstep as <-.
    destruct (process_audio_sink u a ext) as (res & p & ->).
    rewrite release_sink. cbn [snd set_user_data set_is_playing set_loop user_data].
    rewrite <- Hid, E. by rewrite lookup_insert_eq. }
  split; [done|].
  eapply idle_not_outstanding; [|done|done].
  by eapply reachable_sound, reachable_step.
Qed.

Lemma flag_held_until_completion_witness :
  ∃ n u audio,
    loop handed_over !! n = Some (u, audio) ∧ id u = id alice ∧
    ∀ ext, ∃ self',
      step handed_over (Run n ext) = Some self' ∧
      user_data self' !! id alice =
        Some (set_processing {| buffer := []; last_spoken := seconds 10;
                                processing := true |} false) ∧
      outstanding self' (id alice) = 0%nat.
Proof.
  refine (proj2 (flag_held_until_completion handed_over (id alice) _
                   handed_over_reachable _ _));
    reflexivity.
Defined.

(** ** Where the audio of an utterance comes from *)


Lemma heard_snoc evs ev uid : heard (evs ++ [ev]) uid = heard evs uid ++ heard [ev] uid.
Proof. unfold heard. by rewrite omap_app. Qed.

Lemma made_of_snoc evs ev self : made_of evs self → made_of (evs ++ [ev]) self.
Proof.
  intros [Hb Hl]. split.
  - intros uid r E. destruct (Hb _ _ E) as (l & Hsub & ->). exists l. split; [|done].
    rewrite heard_snoc. by apply sublist_inserts_r.
  - intros u a Hin. destruct (Hl _ _ Hin) as (l & Hsub & ->). exists l. split; [|done].
    rewrite heard_snoc. by apply sublist_inserts_r.
Qed.

Lemma track_made_of r spk pcm ld now r' spk' h :
  track r spk pcm ld now = (r', spk', h) →
  (buffer r' = buffer r ∨ (ld = true ∧ buffer r' = buffer r ++ pcm) ∨ buffer r' = []) ∧
  (∀ a, h = Some a → a = buffer r).
Proof.
  unfold track. intros T.
  repeat match type of T with
         | (if ?b then _ else _) = _ => destruct b eqn:?
         end; injection T as <- <- <-; cbn; split; auto; congruence.
Qed.

Lemma step_made_of evs self ev self' :
  made_of evs self → step self ev = Some self' → made_of (evs ++ [ev]) self'.
Proof.
  intros Hm. destruct ev as [user data now|n ext|]; cbn [step].
  - destruct (write self user data now) as [s|e] eqn:E; [|done]. intros [= <-].
    destruct user as [u|]; [|injection E as <-; by apply made_of_snoc].
    destruct (is_playing self) eqn:Hplay.
    { rewrite write_playing in E by done. injection E as <-. by apply made_of_snoc. }
    rewrite write_track in E by done. injection E as <-.
    destruct (track _ _ _ _ _) as [[r' spk'] h] eqn:T.
    apply track_made_of in T as [Hbuf Hh].
    assert (∃ l, l `sublist_of` heard evs (id u) ∧
                 buffer (record_at self (id u) now) = mjoin l) as (l0 & Hsub0 & Hl0).
    { unfold record_at. destruct (user_data self !! id u) as [r|] eqn:Er.
      - by apply (proj1 Hm (id u)).
      - exists []. split; [apply sublist_nil_l|done]. }
    pose proof (made_of_snoc evs (Frame (Some u) data now) self Hm) as [Hb Hl].
    split.
    + intros uid r. rewrite apply_track_lookup. cbn [fst].
      destruct (decide (id u = uid)) as [<-|Hne]; [|by apply Hb].
      intros [= <-]. rewrite heard_snoc.
      destruct Hbuf as [->|[[Hld ->]| ->]].
      * exists l0. split; [by apply sublist_inserts_r|done].
      * exists (l0 ++ [pcm data]). split.
        -- apply sublist_app; [done|]. cbn. rewrite decide_True by done. by rewrite Hld.
        -- rewrite join_app, Hl0. cbn. by rewrite app_nil_r.
      * exists []. split; [apply sublist_nil_l|done].
    + intros u' a'. rewrite apply_track_loop. cbn [snd].
      intros [Hin|Hin]%elem_of_app; [by apply Hl|].
      destruct h as [a|]; [|by apply elem_of_nil in Hin].
      apply list_elem_of_singleton in Hin as [= -> ->].
      rewrite (Hh _ eq_refl), heard_snoc. exists l0.
      split; [by apply sublist_inserts_r|done].
  - destruct (loop self !! n) as [[u audio]|] eqn:En; [|done]. intros [= <-].
    destruct (process_audio_sink u audio ext) as (res & p & ->).
    rewrite release_sink.
    apply (made_of_snoc _ (Run n ext)) in Hm as [Hb Hl]. split.
    + intros uid r. cbn [snd set_user_data set_is_playing set_loop user_data].
      destruct (user_data self !! id u) as [ru|] eqn:Eu; [|by apply Hb].
      rewrite lookup_insert. destruct (decide (id u = uid)) as [<-|]; [|by apply Hb].
      intros [= <-]. cbn. by eapply Hb.
    + intros u' a'. cbn [snd set_user_data set_is_playing set_loop loop].
      intros Hin%list_elem_of_delete_inv. by apply Hl.
  - intros [= <-]. by apply (made_of_snoc _ PlaybackEnd) in Hm as [Hb Hl].
Qed.

Lemma run_made_of evs : ∀ pre self self',
  made_of pre self → run self evs = Some self' → made_of (pre ++ evs) self'.
Proof.
  induction evs as [|ev evs IH]; intros pre self self' Hm; cbn [run].
  - intros [= <-]. by rewrite app_nil_r.
  - destruct (step self ev) as [s|] eqn:E; [|done]. intros Hrun.
    rewrite cons_middle, app_assoc. eapply IH; [|done]. by eapply step_made_of.
Qed.

(** X10. Whatever has happened to a sink since it was created, each
    buffer, and each utterance handed to [process_audio], is made of loud
    frames of that one speaker only, each at most once and in their order
    of arrival: no frame of another speaker and no silent frame is part of
    it. *)
Theorem utterances_are_made_of_loud_frames evs self :
  run init evs = Some self →
  (∀ uid r, user_data self !! uid = Some r →
     ∃ l, l `sublist_of` heard evs uid ∧ buffer r = mjoin l) ∧
  (∀ u audio, (u, audio) ∈ loop self →
     ∃ l, l `sublist_of` heard evs (id u) ∧ audio = mjoin l).
Proof.
  intros Hrun. apply (run_made_of evs [] init); [|done]. split.
  - intros uid r. cbn. by rewrite lookup_empty.
  - intros u a Hin. by apply elem_of_nil in Hin.
Qed.

Lemma utterances_are_made_of_loud_frames_witness :
  ∃ l, l `sublist_of`
         heard (frames_of alice [(steady 1000 48002, seconds 10);
                                 (steady 0 4, seconds 12)] ++ []) (id alice) ∧
       pcm (steady 1000 48002) = mjoin l.
Proof.
  refine (proj2 (utterances_are_made_of_loud_frames _ handed_over _) alice _ _).
  - exact (run_frames alice _ init handed_over [] handed_over_feed).
  - apply list_elem_of_singleton. reflexivity.
Defined.

(** ** Speakers do not interfere *)

Lemma apply_track_playing self u t : is_playing (apply_track self u t) = is_playing self.
Proof. by destruct t as [[r spk] h]. Qed.

(** Frames of other speakers leave what [write] reads for a speaker as it
    was. *)
Lemma frames_of_others u : ∀ evs self self',
  Forall (λ ev, match ev with
                | Frame (Some u') _ _ => id u' ≠ id u
                | Frame None _ _ => True
                | _ => False
                end) evs →
  run self evs = Some self' →
  user_data self' !! id u = user_data self !! id u ∧
  (id u ∈ speaking_users self' ↔ id u ∈ speaking_users self) ∧
  is_playing self' = is_playing self.
Proof.
  induction evs as [|ev evs IH]; intros self self' Hall; cbn [run].
  { by intros [= <-]. }
  apply Forall_cons in Hall as [Hev Hall].
  destruct (step self ev) as [s1|] eqn:Hstep; [|done]. intros Hrun.
  destruct (IH _ _ Hall Hrun) as (-> & -> & ->).
  destruct ev as [[u'|] data now|n ext|]; [| |done..]; cbn [step] in Hstep.
  - destruct (write self (Some u') data now) as [s|e] eqn:Hw; [|done].
    injection Hstep as <-.
    apply write_effect in Hw as [->|(r' & spk & handed & -> & _)]; [done|].
    rewrite apply_track_lookup, apply_track_speaking, apply_track_playing.
    by rewrite !decide_False.
  - by injection Hstep as <-.
Qed.

(** X11. What a frame does to its own speaker does not depend on the
    frames of other speakers delivered before it: with the same clock
    reading for the frame, the speaker's record and mark come out the
    same, and the same utterance, if any, is handed to the event loop,
    whether or not frames of other speakers came first. *)
Theorem speakers_do_not_interfere self evs self' u data now :
  Forall (λ ev, match ev with
                | Frame (Some u') _ _ => id u' ≠ id u
                | Frame None _ _ => True
                | _ => False
                end) evs →
  run self evs = Some self' →
  ∃ s1 s2 handed,
    write self (Some u) data now = Ok s1 ∧
    write self' (Some u) data now = Ok s2 ∧
    user_data s2 !! id u = user_data s1 !! id u ∧
    (id u ∈ speaking_users s2 ↔ id u ∈ speaking_users s1) ∧
    is_playing s2 = is_playing s1 ∧
    loop s1 = loop self ++ handed ∧ loop s2 = loop self' ++ handed.
Proof.
  intros Hall Hrun. destruct (frames_of_others u evs self self' Hall Hrun) as (Hd & Hsp & Hpl).
  destruct (is_playing self) eqn:Hplay.
  { exists self, self', []. rewrite !write_playing by congruence.
    rewrite !app_nil_r. split; [done|]. split; [done|]. split; [done|].
    split; [done|]. split; [congruence|done]. }
  eexists _, _, _. split; [by apply write_track|].
  split; [apply write_track; congruence|].
  assert (record_at self' (id u) now = record_at self (id u) now) as ->.
  { unfold record_at. by rewrite Hd. }
  assert (bool_decide (id u ∈ speaking_users self') =
          bool_decide (id u ∈ speaking_users self)) as -> by (by apply bool_decide_ext).
  rewrite !apply_track_lookup, !apply_track_speaking, !apply_track_playing, !apply_track_loop.
  rewrite !decide_True by done. split; [done|]. split; [done|]. split; [congruence|].
  done.
Qed.

Lemma speakers_do_not_interfere_witness :
  ∃ s1 s2 handed,
    write alice_speaking (Some alice) (steady 0 4) (seconds 12) = Ok s1 ∧
    write (apply_track alice_speaking bob
             (track (record_at alice_speaking (id bob) (seconds 11)) false
                    (pcm (steady 1000 4)) true (seconds 11)))
          (Some alice) (steady 0 4) (seconds 12) = Ok s2 ∧
    user_data s2 !! id alice = user_data s1 !! id alice ∧
    (id alice ∈ speaking_users s2 ↔ id alice ∈ speaking_users s1) ∧
    is_playing s2 = is_playing s1 ∧
    loop s1 = loop alice_speaking ++ handed ∧
    loop s2 =
      loop (apply_track alice_speaking bob
              (track (record_at alice_speaking (id bob) (seconds 11)) false
                     (pcm (steady 1000 4)) true (seconds 11))) ++ handed.
Proof.
  apply (speakers_do_not_interfere alice_speaking
           [Frame (Some bob) (steady 1000 4) (seconds 11)]).
  - apply Forall_singleton. discriminate.
  - vm_compute. reflexivity.
Defined.

(** ** What [process_audio] does with its collaborators *)


Lemma blank_lstrip s : blank (lstrip s) = blank s.
Proof.
  induction s as [|c s IH]; [done|]. cbn [lstrip]. unfold blank in *. cbn [forallb].
  destruct (is_whitespace c) eqn:Hc; [done|]. cbn [forallb]. by rewrite Hc.
Qed.

Lemma lstrip_blank s : blank s = true → lstrip s = [].
Proof.
  unfold blank. induction s as [|c s IH]; [done|]. cbn [lstrip forallb].
  destruct (is_whitespace c); [apply IH|done].
Qed.

Lemma blank_reverse s : blank (reverse s) = blank s.
Proof.
  unfold blank. induction s as [|c s IH]; [done|].
  rewrite reverse_cons, forallb_app, IH. cbn [forallb].
  rewrite andb_true_r. apply andb_comm.
Qed.

Lemma not_blank_length s : blank s = false → length s ≠ 0%nat.
Proof. by destruct s. Qed.

(** [not user_text or len(user_text.strip()) == 0] holds of the strings
    of white space, the empty one among them. *)
Lemma strip_blank s :
  bool_decide (s = []) || (length (strip s) =? 0)%nat = blank s.
Proof.
  destruct (blank s) eqn:Hb.
  - unfold strip. rewrite (lstrip_blank s Hb). cbn. apply orb_true_r.
  - rewrite bool_decide_false by (by intros ->). cbn [orb].
    apply Nat.eqb_neq, not_blank_length. unfold strip.
    by rewrite blank_reverse, blank_lstrip, blank_reverse, blank_lstrip.
Qed.

Lemma release_playing u self : is_playing (release u self).2 = is_playing self.
Proof. unfold release. by destruct (user_data self !! id u). Qed.

Lemma process_audio_playing self u audio ext :
  is_playing (process_audio self u audio ext).2 =
  is_playing (process_audio_body u audio ext self).2.
Proof.
  unfold process_audio, try_finally, try_except_stmt.
  destruct (process_audio_body u audio ext self) as [[[]| |e] s1]; cbn [snd].
  - pose proof (release_playing u s1) as H.
    by destruct (release u s1) as [[[]| |?] ?].
  - pose proof (release_playing u s1) as H.
    by destruct (release u s1) as [[[]| |?] ?].
  - destruct (is_Exception e); cbn.
    + pose proof (release_playing u s1) as H.
      by destruct (release u s1) as [[[]| |?] ?].
    + pose proof (release_playing u s1) as H.
      by destruct (release u s1) as [[[]| |?] ?].
Qed.

Lemma process_audio_answers self u audio ext :
  answers ext → is_playing (process_audio self u audio ext).2 = true.
Proof.
  intros (Hw & (text & Ht & Hb) & Hrm & (reply & Hc) & Hs & Hconn & Hp).
  rewrite process_audio_playing. destruct ext as [w t rm c s conn p].
  cbn [wave_write transcribe remove_recording chat synthesize is_connected play] in *.
  subst. unfold process_audio_body, try_finally, try_except_stmt, mbind, stmt_bind, call.
  cbn [wave_write transcribe remove_recording chat synthesize is_connected play fst snd].
  by rewrite strip_blank, Hb.
Qed.



(** *** With the messages *)

Lemma process_audio_body_printing_spo u audio ext out :
  starts_playback_only (process_audio_body_printing u audio ext out).
Proof.
  unfold process_audio_body_printing.
  apply spo_bind; [apply spo_call|intros _].
  apply spo_bind; [apply spo_call|intros _].
  apply spo_bind.
  { apply spo_try_finally; [|apply spo_call].
    apply spo_try_except.
    - apply spo_bind; [apply spo_call|intros text].
      apply spo_bind; [apply spo_call|intros _]. apply spo_here.
    - intros _. apply spo_bind; [apply spo_call|intros _]. apply spo_here. }
  intros user_text. destruct (_ || _); [apply spo_here|].
  apply spo_bind.
  { apply spo_try_except.
    - apply spo_bind; [apply spo_call|intros reply].
      apply spo_bind; [apply spo_call|intros _]. apply spo_here.
    - intros _. apply spo_bind; [apply spo_call|intros _]. apply spo_here. }
  intros bot_reply.
  apply spo_try_except; [|intros _; apply spo_call].
  apply spo_bind; [apply spo_call|intros _].
  destruct (is_connected ext); [apply spo_play|apply spo_here].
Qed.

Lemma process_audio_printing_sink u audio ext out :
  ∃ res p, ∀ self,
    process_audio_printing self u audio ext out =
    (res, (release u (set_is_playing self (p || is_playing self))).2).
Proof.
  pose proof (spo_try_except _ (λ _ : exn, call (print_error out))
                (process_audio_body_printing_spo u audio ext out)
                (λ _, spo_call (print_error out))) as (c & p & H).
  exists (match c with Raised e => Raise e | _ => Ok tt end), p. intros self.
  unfold process_audio_printing, try_finally. rewrite H.
  unfold release. by destruct (user_data _ !! id u); destruct c.
Qed.

(** When standard output works the messages change nothing. *)
Lemma process_audio_body_printed u audio ext self :
  process_audio_body_printing u audio ext printed self = process_audio_body u audio ext self.
Proof.
  destruct ext as [[[]|] [|] [[]|] [|] [[]|] [] [[]|]]; reflexivity.
Qed.


Section Raises.
Context {A B : Type} (L : list (option exn)).
Implicit Types (m : stmt A) (k : A → stmt B).

Lemma rf_here (c : completion A) :
  (∀ e, c ≠ Raised e) → raises_from L (λ self, (c, self)).
Proof. intros H self e Hc. by destruct (H e). Qed.

Lemma rf_call (r : result A) : failure r ∈ L → raises_from L (call r).
Proof. destruct r; intros H self e'; cbn; [done|]. by intros [= <-]. Qed.

Lemma rf_bind m k :
  raises_from L m → (∀ a, raises_from L (k a)) → raises_from L (m ≫= k).
Proof.
  intros Hm Hk self e. unfold mbind, stmt_bind.
  specialize (Hm self). destruct (m self) as [[a| |e'] s1]; cbn in *; [apply Hk|done|].
  intros [= <-]. auto.
Qed.

Lemma rf_try_except m (h : exn → stmt A) :
  raises_from L m → (∀ e, raises_from L (h e)) → raises_from L (try_except_stmt m h).
Proof.
  intros Hm Hh self e. unfold try_except_stmt.
  specialize (Hm self). destruct (m self) as [[a| |e'] s1]; cbn in *; [done..|].
  destruct (is_Exception e'); [apply Hh|]. intros [= <-]. auto.
Qed.

Lemma rf_try_finally m (f : stmt unit) :
  raises_from L m → raises_from L f → raises_from L (try_finally m f).
Proof.
  intros Hm Hf self e. unfold try_finally.
  specialize (Hm self). destruct (m self) as [c s1]. cbn in Hm.
  specialize (Hf s1). destruct (f s1) as [[[]| |e'] s2]; cbn in *; [auto|done|].
  intros [= <-]. auto.
Qed.
End Raises.

Lemma rf_play L r : failure r ∈ L → raises_from L (voice_client_play r).
Proof. destruct r as [[]|e]; intros H self e'; cbn; [done|]. by intros [= <-]. Qed.

Lemma process_audio_body_printing_rf u audio ext out :
  raises_from (failures ext out) (process_audio_body_printing u audio ext out).
Proof.
  assert (∀ o, o ∈ failures ext out ↔
     o = failure (print_start out) ∨ o = failure (wave_write ext) ∨
     o = failure (transcribe ext) ∨ o = failure (print_said out) ∨
     o = failure (print_stt_error out) ∨ o = failure (remove_recording ext) ∨
     o = failure (chat ext) ∨ o = failure (print_reply out) ∨
     o = failure (print_chat_error out) ∨ o = failure (synthesize ext) ∨
     o = failure (play ext) ∨ o = failure (print_tts_error out)) as Hin.
  { intros o. unfold failures. rewrite !elem_of_cons, elem_of_nil. tauto. }
  unfold process_audio_body_printing.
  apply rf_bind; [apply rf_call, Hin; tauto|intros _].
  apply rf_bind; [apply rf_call, Hin; tauto|intros _].
  apply rf_bind.
  { apply rf_try_finally; [|apply rf_call, Hin; tauto].
    apply rf_try_except.
    - apply rf_bind; [apply rf_call, Hin; tauto|intros text].
      apply rf_bind; [apply rf_call, Hin; tauto|intros _]. by apply rf_here.
    - intros _. apply rf_bind; [apply rf_call, Hin; tauto|intros _]. by apply rf_here. }
  intros user_text. destruct (_ || _); [by apply rf_here|].
  apply rf_bind.
  { apply rf_try_except.
    - apply rf_bind; [apply rf_call, Hin; tauto|intros reply].
      apply rf_bind; [apply rf_call, Hin; tauto|intros _]. by apply rf_here.
    - intros _. apply rf_bind; [apply rf_call, Hin; tauto|intros _]. by apply rf_here. }
  intros bot_reply.
  apply rf_try_except; [|intros _; apply rf_call, Hin; tauto].
  apply rf_bind; [apply rf_call, Hin; tauto|intros _].
  destruct (is_connected ext); [apply rf_play, Hin; tauto|by apply rf_here].
Qed.

(** X13. [process_audio] with its [print] statements modelled as calls
    that can fail too (lines 100, 118, 120, 139, 141, 159 and 162). When
    they return, it is [process_audio]. Whatever they and the collaborators
    do, the [finally] clause releases the flag of the speaker. An
    exception leaves the coroutine only if the [print] of the last
    handler (line 162) raised it, or if it is not a subclass of
    [Exception] and one of the statements of the [try] block raised it.
    The test [is_connected] of line 155 reads a flag of the voice client
    and is taken to return. *)
Theorem exceptions_that_escape self u audio ext out :
  process_audio_printing self u audio ext printed = process_audio self u audio ext ∧
  (∀ r, user_data self !! id u = Some r →
        user_data (process_audio_printing self u audio ext out).2 !! id u =
        Some (set_processing r false)) ∧
  (∀ e, (process_audio_printing self u audio ext out).1 = Raise e →
        print_error out = Raise e ∨
        is_Exception e = false ∧ Some e ∈ failures ext out).
Proof.
  split; [|split].
  - unfold process_audio_printing, process_audio, try_finally, try_except_stmt.
    rewrite process_audio_body_printed.
    by destruct (process_audio_body u audio ext self) as [[[]| |e] s1].
  - intros r E. destruct (process_audio_printing_sink u audio ext out) as (res & p & ->).
    rewrite release_sink. cbn [snd set_user_data set_is_playing user_data].
    rewrite E. by rewrite lookup_insert_eq.
  - intros e. unfold process_audio_printing, try_finally, try_except_stmt.
    pose proof (process_audio_body_printing_rf u audio ext out self) as Hbody.
    destruct (process_audio_body_printing u audio ext out self) as [[[]| |e'] s1];
      cbn [fst snd] in *.
    + unfold release. by destruct (user_data s1 !! id u).
    + unfold release. by destruct (user_data s1 !! id u).
    + destruct (is_Exception e') eqn:He'.
      * unfold call. destruct (print_error out) as [[]|e2]; cbn [fst snd].
        -- unfold release. by destruct (user_data s1 !! id u).
        -- unfold release. destruct (user_data s1 !! id u); cbn; intros [= <-]; by left.
      * unfold release. destruct (user_data s1 !! id u); cbn; intros [= <-];
          right; split; auto.
Qed.

Lemma exceptions_that_escape_witness :
  print_error closed = Raise ValueError ∨
  is_Exception ValueError = false ∧ Some ValueError ∈ failures deaf closed.
Proof.
  apply (proj2 (proj2 (exceptions_that_escape handed_over alice [] deaf closed))).
  reflexivity.
Defined.

(** ** The estimate is a number *)


Lemma binary_round_aux_bounded m e l :
  0 ≤ m → e ≤ 970 → Zdigits2 m + e ≤ 1023 →
  binary64_nonneg (binary_round_aux prec emax false m e l).
Proof.
  intros Hm He Hd. unfold binary_round_aux.
  pose proof (shr_fexp_bound m e l Hm) as H1.
  destruct (shr_fexp prec emax m e l) as [r1 e1].
  destruct H1 as (Hr1 & _ & He1 & Hd1).
  pose proof (round_nearest_even_bound (shr_m r1) (loc_of_shr_record r1) Hr1) as Hrnd.
  set (m1 := round_nearest_even _ _) in *.
  pose proof (shr_fexp_bound m1 e1 loc_Exact ltac:(lia)) as H2.
  destruct (shr_fexp prec emax m1 e1 loc_Exact) as [r2 e2].
  destruct H2 as (Hr2 & _ & He2 & Hd2).
  assert (Zdigits2 m1 ≤ Zdigits2 (shr_m r1) + 1) as Hdm1.
  { pose proof (Zdigits2_gt (shr_m r1) Hr1). pose proof (Zdigits2_nonneg (shr_m r1)).
    apply Zdigits2_bound; [|lia]. rewrite Z.pow_add_r, Z.pow_1_r by lia. lia. }
  unfold fexp, emin, prec, emax in *.
  destruct (shr_m r2) as [|p|p]; [done| |lia].
  destruct (Z.leb_spec e2 (1024 - 53)); [|lia].
  split; lia.
Qed.

Lemma SFdiv_exact_bounded a b :
  0 ≤ a → 0 < b → a ≤ b * 2 ^ 30 →
  binary64_nonneg (SFdiv prec emax (exact a) (exact b)).
Proof.
  intros Ha Hb Hab. destruct a as [|pa|pa], b as [|pb|pb]; try lia; [done|].
  cbn [exact SFdiv xorb]. unfold SFdiv_core_binary.
  set (e' := Z.min _ _).
  assert (e' ≤ 0) as He' by (subst e'; lia).
  set (s := 0 - 0 - e').
  assert (match s with
          | 0 => Z.pos pa
          | Z.pos _ => Z.shiftl (Z.pos pa) s
          | Z.neg _ => 0
          end = Z.pos pa * 2 ^ s) as ->.
  { destruct s eqn:Es; [lia|by rewrite Z.shiftl_mul_pow2|lia]. }
  pose proof (Z_div_mod (Z.pos pa * 2 ^ s) (Z.pos pb) ltac:(lia)) as Hdiv.
  destruct (Z.div_eucl _ _) as [q r]. destruct Hdiv as [Hq Hr].
  assert (0 ≤ s) by lia. assert (0 < 2 ^ s) by lia.
  assert (0 ≤ q) by nia.
  assert (q < 2 ^ (31 + s)).
  { rewrite Z.pow_add_r by lia. change (2 ^ 31) with (2 * 2 ^ 30). nia. }
  apply binary_round_aux_bounded; [done|lia|].
  assert (Zdigits2 q ≤ 31 + s); [by apply Zdigits2_bound; lia|lia].
Qed.

(** The square root of a binary64 value that is not negative is finite. *)
Lemma SFsqrt_finite x : binary64_nonneg x → finite_nonneg (SFsqrt prec emax x).
Proof.
  destruct x as [[]|[]| |[] m e]; try done. intros [He Hd].
  cbn [SFsqrt]. unfold SFsqrt_core_binary.
  set (d := Zdigits2 (Z.pos m)) in *.
  set (e' := Z.min _ _).
  assert (2 * e' ≤ e) as He'.
  { subst e'. rewrite !Z.div2_div. generalize (fexp prec emax ((d + e + 1) `div` 2)).
    intros z. Z.div_mod_to_equations. lia. }
  set (s := e - 2 * e').
  assert (match s with
          | 0 => Z.pos m
          | Z.pos _ => Z.shiftl (Z.pos m) s
          | Z.neg _ => 0
          end = Z.pos m * 2 ^ s) as ->.
  { destruct s eqn:Es; [lia|by rewrite Z.shiftl_mul_pow2|lia]. }
  assert (0 ≤ s) as Hs by lia. assert (0 < 2 ^ s) by lia.
  pose proof (Z.sqrtrem_spec (Z.pos m * 2 ^ s) ltac:(lia)) as Hsq.
  destruct (Z.sqrtrem _) as [q r]. destruct Hsq as [Hq Hr].
  assert (0 ≤ d) as Hd0 by apply Zdigits2_nonneg.
  pose proof (Zdigits2_gt (Z.pos m) ltac:(lia)) as Hm. fold d in Hm.
  set (k := (d + s + 1) / 2).
  assert (d + s ≤ 2 * k) as Hk by (subst k; Z.div_mod_to_equations; lia).
  assert (0 ≤ k) as Hk0 by (subst k; Z.div_mod_to_equations; lia).
  assert (q < 2 ^ k) as Hqk.
  { destruct (Z.lt_ge_cases q (2 ^ k)) as [|Hge]; [done|].
    assert (2 ^ (d + s) ≤ 2 ^ (2 * k)) as Hpow by (apply Z.pow_le_mono_r; lia).
    rewrite Z.pow_add_r in Hpow by lia.
    replace (2 * k) with (k + k) in Hpow by lia.
    rewrite Z.pow_add_r in Hpow by lia.
    assert (0 < 2 ^ k) by lia. nia. }
  assert (Zdigits2 q ≤ k) as Hdq by (apply Zdigits2_bound; lia).
  assert (k + e' ≤ 513) as Hke.
  { subst k s. Z.div_mod_to_equations. lia. }
  apply binary_round_aux_finite; lia.
Qed.

Lemma compare_int_finite_nonneg x n :
  finite_nonneg x → ∃ c, compare_int x n = Some c.
Proof. destruct x as [[]|[]| |[] m e]; try done; intros _; cbn; eauto. Qed.

(** X14. The RMS of a frame is the int 0 or a float that is finite and not
    negative, never a NaN or an infinity; so the [else] branch of line 77
    is taken exactly when the estimate is at most the threshold. *)
Theorem rms_is_a_number frame :
  ∃ v, rms frame = Ok v ∧
       (v = Int 0 ∨ ∃ x, v = Flt x ∧ finite_nonneg x) ∧
       (∀ n, le_int v n = negb (gt_int v n)) ∧
       (loud {| pcm := frame |} = false ↔ le_int v SILENCE_THRESHOLD = true).
Proof.
  assert (∃ v, rms frame = Ok v ∧ (v = Int 0 ∨ ∃ x, v = Flt x ∧ finite_nonneg x))
    as (v & Hv & Hcase).
  { destruct (Nat.Even_or_Odd (length frame)) as [[n Hn]|Hodd].
    - destruct frame as [|b frame]; [exists (Int 0); by auto|].
      destruct (struct_unpack_h_even n _ Hn) as [samples Hs].
      destruct (frame_of_struct_unpack_h _ _ _ Hs) as [Hall Hfr].
      assert (samples ≠ []) as Hne by (intros ->; by rewrite <- Hfr in Hn).
      exists (Flt (rms_formula samples)). split.
      + rewrite <- Hfr. by apply rms_frame_of.
      + right. eexists. split; [done|]. unfold rms_formula.
        apply SFsqrt_finite, SFdiv_exact_bounded.
        * rewrite <- sum_squares_foldr. by apply sum_squares_bound.
        * destruct samples; [done|cbn [length]; lia].
        * rewrite <- sum_squares_foldr. by apply sum_squares_bound.
    - exists (Int 0). split; [by apply rms_odd|by left]. }
  exists v. split; [done|]. split; [done|].
  assert (∀ n, le_int v n = negb (gt_int v n)) as Hle.
  { intros n. destruct Hcase as [->|(x & -> & Hx)]; unfold le_int, gt_int.
    - apply Z.leb_antisym.
    - destruct (compare_int_finite_nonneg x n Hx) as [c ->]. by destruct c. }
  split; [done|]. unfold loud. cbn [pcm]. rewrite Hv, Hle.
  by destruct (gt_int v SILENCE_THRESHOLD).
Qed.

Lemma rms_is_a_number_witness :
  ∃ v, rms (frame_of [1000; -1000]) = Ok v ∧
       (v = Int 0 ∨ ∃ x, v = Flt x ∧ finite_nonneg x) ∧
       (∀ n, le_int v n = negb (gt_int v n)) ∧
       (loud {| pcm := frame_of [1000; -1000] |} = false ↔
        le_int v SILENCE_THRESHOLD = true).
Proof. exact (rms_is_a_number (frame_of [1000; -1000])). Defined.

(** ** The threshold is an amplitude *)

(** Rounding to nearest never steps over an integer [K] that the format
    can hold: it is monotone. The statement is for values below [2 ^ 52],
    where the exponent of the result is not positive. *)
Lemma binary_round_aux_mono m e l :
  0 ≤ m → e ≤ 0 → Zdigits2 m + e ≤ 52 →
  ∃ m2 e2,
    0 ≤ m2 ∧ e2 ≤ 0 ∧
    binary_round_aux prec emax false m e l =
      match m2 with
      | Z0 => S754_zero false
      | Zpos p => S754_finite false p e2
      | Zneg _ => S754_nan
      end ∧
    (∀ K, m ≤ K * 2 ^ (- e) → (m = K * 2 ^ (- e) → l = loc_Exact) →
          m2 ≤ K * 2 ^ (- e2)) ∧
    (∀ K, K * 2 ^ (- e) ≤ m → K * 2 ^ (- e2) ≤ m2).
Proof.
  intros Hm He Hd. unfold binary_round_aux.
  pose proof (shr_fexp_bound m e l Hm) as Hb1.
  pose proof (shr_fexp_spec m e l Hm) as Hs1. cbv zeta in Hs1.
  set (n1 := Z.max 0 (fexp prec emax (Zdigits2 m + e) - e)) in *.
  destruct (shr_fexp prec emax m e l) as [r1 e1].
  destruct Hb1 as (Hr1 & _ & _ & Hd1). destruct Hs1 as (He1 & Hm1 & Hx1).
  pose proof (round_nearest_even_bound (shr_m r1) (loc_of_shr_record r1) Hr1) as Hrnd.
  set (m1 := round_nearest_even (shr_m r1) (loc_of_shr_record r1)) in *.
  assert (0 ≤ m1) as Hm1' by lia.
  pose proof (shr_fexp_spec m1 e1 loc_Exact Hm1') as Hs2. cbv zeta in Hs2.
  set (n2 := Z.max 0 (fexp prec emax (Zdigits2 m1 + e1) - e1)) in *.
  destruct (shr_fexp prec emax m1 e1 loc_Exact) as [r2 e2].
  destruct Hs2 as (He2 & Hm2 & _).
  assert (Zdigits2 m1 ≤ Zdigits2 (shr_m r1) + 1) as Hdm1.
  { pose proof (Zdigits2_gt (shr_m r1) Hr1). pose proof (Zdigits2_nonneg (shr_m r1)).
    apply Zdigits2_bound; [|lia]. rewrite Z.pow_add_r, Z.pow_1_r by lia. lia. }
  assert (0 ≤ n1 ∧ 0 ≤ n2 ∧ e1 ≤ 0 ∧ e2 ≤ 0) as (Hn1 & Hn2 & He1' & He2').
  { unfold fexp, emin, prec, emax in *. lia. }
  assert (0 < 2 ^ n1 ∧ 0 < 2 ^ n2) as [Hp1 Hp2] by lia.
  assert (0 ≤ shr_m r2) as Hr2 by (rewrite Hm2; apply Z.div_pos; lia).
  assert (∀ K, K * 2 ^ (- e) = K * 2 ^ (- e1) * 2 ^ n1) as HK1.
  { intros K. rewrite <- Z.mul_assoc, <- Z.pow_add_r by lia. do 2 f_equal. lia. }
  assert (∀ K, K * 2 ^ (- e1) = K * 2 ^ (- e2) * 2 ^ n2) as HK2.
  { intros K. rewrite <- Z.mul_assoc, <- Z.pow_add_r by lia. do 2 f_equal. lia. }
  exists (shr_m r2), e2. split; [done|]. split; [done|]. split.
  { destruct (shr_m r2) as [|p|p]; [done| |done].
    destruct (Z.leb_spec e2 (emax - prec)) as [|Hgt]; [done|].
    unfold emax, prec in Hgt. lia. }
  split.
  - intros K Hle Hex. rewrite HK1 in Hle, Hex.
    assert (m1 ≤ K * 2 ^ (- e1)) as Hle1.
    { destruct (decide (m = K * 2 ^ (- e1) * 2 ^ n1)) as [Heq|Hne].
      - assert (loc_of_shr_record r1 = loc_Exact) as Hl.
        { apply Hx1; [by apply Hex|]. rewrite Heq. by apply Z.mod_mul, Z.neq_sym, Z.lt_neq. }
        unfold m1. rewrite Hl. cbn [round_nearest_even].
        rewrite Hm1, Heq, Z.div_mul by lia. lia.
      - assert (shr_m r1 < K * 2 ^ (- e1)); [|lia].
        rewrite Hm1. apply Z.div_lt_upper_bound; lia. }
    rewrite HK2 in Hle1. rewrite Hm2.
    apply Z.div_le_upper_bound; lia.
  - intros K Hge. rewrite HK1 in Hge.
    assert (K * 2 ^ (- e1) ≤ m1) as Hge1.
    { assert (K * 2 ^ (- e1) ≤ shr_m r1); [|lia].
      rewrite Hm1. apply Z.div_le_lower_bound; lia. }
    rewrite HK2 in Hge1. rewrite Hm2.
    apply Z.div_le_lower_bound; lia.
Qed.

Lemma new_location_exact b : new_location b 0 = loc_Exact.
Proof. unfold new_location. by destruct (Z.even b). Qed.

(** The quotient of two ints, rounded, is on the same side of every int
    as the exact quotient. *)
Lemma SFdiv_mono a b :
  0 ≤ a → 0 < b → a ≤ b * 2 ^ 30 →
  ∃ m e,
    0 ≤ m ∧ e ≤ 0 ∧
    SFdiv prec emax (exact a) (exact b) =
      match m with
      | Z0 => S754_zero false
      | Zpos p => S754_finite false p e
      | Zneg _ => S754_nan
      end ∧
    (∀ K, a ≤ K * b → m ≤ K * 2 ^ (- e)) ∧
    (∀ K, K * b ≤ a → K * 2 ^ (- e) ≤ m).
Proof.
  intros Ha Hb Hab. destruct a as [|pa|pa], b as [|pb|pb]; try lia.
  { exists 0, 0. split; [done|]. split; [done|]. split; [done|].
    split; intros K HK; cbn; nia. }
  cbn [exact SFdiv xorb]. unfold SFdiv_core_binary.
  set (e' := Z.min _ _).
  assert (e' ≤ 0) as He' by (subst e'; lia).
  set (s := 0 - 0 - e').
  assert (match s with
          | 0 => Z.pos pa
          | Z.pos _ => Z.shiftl (Z.pos pa) s
          | Z.neg _ => 0
          end = Z.pos pa * 2 ^ s) as ->.
  { destruct s eqn:Es; [lia|by rewrite Z.shiftl_mul_pow2|lia]. }
  pose proof (Z_div_mod (Z.pos pa * 2 ^ s) (Z.pos pb) ltac:(lia)) as Hdiv.
  destruct (Z.div_eucl _ _) as [q r]. destruct Hdiv as [Hq Hr].
  assert (0 ≤ s) by lia. assert (0 < 2 ^ s) by lia.
  assert (0 ≤ q) by nia.
  assert (q < 2 ^ (31 + s)).
  { rewrite Z.pow_add_r by lia. change (2 ^ 31) with (2 * 2 ^ 30). nia. }
  assert (Zdigits2 q ≤ 31 + s) by (apply Zdigits2_bound; lia).
  destruct (binary_round_aux_mono q e' (new_location (Z.pos pb) r))
    as (m2 & e2 & Hm2 & He2 & Hres & Hle & Hge); [done|done|lia|].
  replace (- e') with s in * by lia.
  exists m2, e2. split; [done|]. split; [done|]. split; [done|]. split.
  - intros K HK. apply Hle; [nia|].
    intros ->. assert (r = 0) as -> by nia. apply new_location_exact.
  - intros K HK. apply Hge. nia.
Qed.

(** So is the rounded square root, with respect to squares. *)
Lemma SFsqrt_mono m e :
  0 ≤ m → e ≤ 0 → m ≤ 2 ^ 30 * 2 ^ (- e) →
  ∃ m' e',
    0 ≤ m' ∧ e' ≤ 0 ∧
    SFsqrt prec emax match m with
                     | Z0 => S754_zero false
                     | Zpos p => S754_finite false p e
                     | Zneg _ => S754_nan
                     end =
      match m' with
      | Z0 => S754_zero false
      | Zpos p => S754_finite false p e'
      | Zneg _ => S754_nan
      end ∧
    (∀ K, 0 ≤ K → m ≤ K * K * 2 ^ (- e) → m' ≤ K * 2 ^ (- e')) ∧
    (∀ K, 0 ≤ K → K * K * 2 ^ (- e) ≤ m → K * 2 ^ (- e') ≤ m').
Proof.
  intros Hm He Hmax. destruct m as [|p|p]; [|clear Hm|lia].
  { exists 0, 0. split; [done|]. split; [done|]. split; [done|].
    assert (0 < 2 ^ (- e)) by lia.
    split; intros K HK HKm; cbn; nia. }
  cbn [SFsqrt]. unfold SFsqrt_core_binary.
  set (d := Zdigits2 (Z.pos p)).
  set (e1 := Z.min _ _).
  assert (2 * e1 ≤ e) as He1.
  { subst e1. rewrite !Z.div2_div.
    generalize (fexp prec emax ((d + e + 1) `div` 2)). intros z.
    Z.div_mod_to_equations. lia. }
  set (s := e - 2 * e1).
  assert (match s with
          | 0 => Z.pos p
          | Z.pos _ => Z.shiftl (Z.pos p) s
          | Z.neg _ => 0
          end = Z.pos p * 2 ^ s) as ->.
  { destruct s eqn:Es; [lia|by rewrite Z.shiftl_mul_pow2|lia]. }
  assert (0 ≤ s) as Hs by lia. assert (0 < 2 ^ s) by lia.
  pose proof (Z.sqrtrem_spec (Z.pos p * 2 ^ s) ltac:(lia)) as Hsq.
  destruct (Z.sqrtrem _) as [q r]. destruct Hsq as [Hq Hr].
  assert (0 ≤ d) as Hd0 by apply Zdigits2_nonneg.
  assert (d + e ≤ 31) as Hde.
  { assert (d ≤ 31 - e); [|lia]. apply Zdigits2_bound; [|lia].
    replace (31 - e) with (31 + - e) by lia. rewrite Z.pow_add_r by lia.
    change (2 ^ 31) with (2 * 2 ^ 30). assert (0 < 2 ^ (- e)) by lia. nia. }
  assert (e1 ≤ 0) as He1'.
  { subst e1. rewrite !Z.div2_div. unfold fexp, emin, prec, emax.
    Z.div_mod_to_equations. lia. }
  pose proof (Zdigits2_gt (Z.pos p) ltac:(lia)) as Hmd. fold d in Hmd.
  set (k := (d + s + 1) / 2).
  assert (d + s ≤ 2 * k) as Hk by (subst k; Z.div_mod_to_equations; lia).
  assert (0 ≤ k) as Hk0 by (subst k; Z.div_mod_to_equations; lia).
  assert (q < 2 ^ k) as Hqk.
  { destruct (Z.lt_ge_cases q (2 ^ k)) as [|Hge]; [done|].
    assert (2 ^ (d + s) ≤ 2 ^ (2 * k)) as Hpow by (apply Z.pow_le_mono_r; lia).
    rewrite Z.pow_add_r in Hpow by lia.
    replace (2 * k) with (k + k) in Hpow by lia.
    rewrite Z.pow_add_r in Hpow by lia.
    assert (0 < 2 ^ k) by lia. nia. }
  assert (Zdigits2 q ≤ k) as Hdq by (apply Zdigits2_bound; lia).
  assert (k + e1 ≤ 16) as Hke.
  { subst k s. Z.div_mod_to_equations. lia. }
  set (l := if r =? 0 then loc_Exact else _).
  destruct (binary_round_aux_mono q e1 l) as (m2 & e2 & Hm2 & He2 & Hres & Hle & Hge);
    [lia|done|lia|].
  exists m2, e2. split; [done|]. split; [done|]. split; [done|].
  assert (0 < 2 ^ (- e1)) as Hp1 by lia.
  assert (2 ^ (- e) * 2 ^ s = 2 ^ (- e1) * 2 ^ (- e1)) as Hpw.
  { rewrite <- !Z.pow_add_r by lia. f_equal. lia. }
  split.
  - intros K HK HKm.
    assert (Z.pos p * 2 ^ s ≤ (K * 2 ^ (- e1)) * (K * 2 ^ (- e1))) as Hsq by nia.
    apply Hle; [nia|].
    intros ->. subst l. assert (r = 0) as -> by nia. done.
  - intros K HK HKm.
    assert ((K * 2 ^ (- e1)) * (K * 2 ^ (- e1)) ≤ Z.pos p * 2 ^ s) as Hsq by nia.
    apply Hge. nia.
Qed.

(** The estimate of a frame is on the same side of every int [K] as the
    root of the mean square is. *)
Lemma rms_formula_mono samples :
  samples ≠ [] → Forall int16 samples →
  ∃ m e,
    0 ≤ m ∧ e ≤ 0 ∧
    rms_formula samples =
      match m with
      | Z0 => S754_zero false
      | Zpos p => S754_finite false p e
      | Zneg _ => S754_nan
      end ∧
    (∀ K, 0 ≤ K → sum_squares samples ≤ K * K * Z.of_nat (length samples) →
          m ≤ K * 2 ^ (- e)) ∧
    (∀ K, 0 ≤ K → K * K * Z.of_nat (length samples) ≤ sum_squares samples →
          K * 2 ^ (- e) ≤ m).
Proof.
  intros Hne Hall. unfold rms_formula. rewrite <- sum_squares_foldr.
  pose proof (sum_squares_bound samples Hall) as [Hlo Hhi].
  assert (0 < Z.of_nat (length samples)) as Hpos by (destruct samples; [done|simpl; lia]).
  destruct (SFdiv_mono _ _ Hlo Hpos Hhi) as (m & e & Hm & He & -> & Hle & Hge).
  destruct (SFsqrt_mono m e Hm He) as (m' & e' & Hm' & He' & -> & Hle' & Hge').
  { apply Hle. lia. }
  exists m', e'. split; [done|]. split; [done|]. split; [done|]. split.
  - intros K HK HS. apply Hle'; [done|]. by apply Hle.
  - intros K HK HS. apply Hge'; [done|]. by apply Hge.
Qed.

Lemma sum_squares_quiet (A : Z) samples :
  0 ≤ A → Forall (λ s, Z.abs s ≤ A) samples →
  sum_squares samples ≤ A * A * Z.of_nat (length samples).
Proof.
  intros HA. rewrite sum_squares_foldr. induction 1 as [|s l Hs Hl IH]; [simpl; lia|].
  cbn [foldr length]. rewrite Nat2Z.inj_succ. nia.
Qed.

Lemma sum_squares_loud (A : Z) samples :
  0 ≤ A → Forall (λ s, A ≤ Z.abs s) samples →
  A * A * Z.of_nat (length samples) ≤ sum_squares samples.
Proof.
  intros HA. rewrite sum_squares_foldr. induction 1 as [|s l Hs Hl IH]; [simpl; lia|].
  cbn [foldr length]. rewrite Nat2Z.inj_succ. nia.
Qed.

(** X15. The threshold is one on the amplitude of the signal, rounding
    notwithstanding: a frame whose mean square is at most [500 ^ 2] (one
    whose samples are all within [-500, 500], say) is never loud, and a
    frame whose mean square is at least [501 ^ 2] (one whose samples are
    all outside [-500, 500], say) is always loud. *)
Theorem threshold_is_an_amplitude samples :
  Forall int16 samples →
  (sum_squares samples ≤ 250000 * Z.of_nat (length samples) →
   loud {| pcm := frame_of samples |} = false) ∧
  (samples ≠ [] → 251001 * Z.of_nat (length samples) ≤ sum_squares samples →
   loud {| pcm := frame_of samples |} = true) ∧
  (Forall (λ s, Z.abs s ≤ SILENCE_THRESHOLD) samples →
   loud {| pcm := frame_of samples |} = false) ∧
  (samples ≠ [] → Forall (λ s, SILENCE_THRESHOLD < Z.abs s) samples →
   loud {| pcm := frame_of samples |} = true).
Proof.
  intros Hall.
  assert (sum_squares samples ≤ 250000 * Z.of_nat (length samples) →
          loud {| pcm := frame_of samples |} = false) as Hquiet.
  { intros HS. destruct samples as [|s0 samples]; [done|].
    destruct (rms_formula_mono (s0 :: samples)) as (m & e & Hm & He & Hres & Hle & _);
      [done|done|].
    unfold loud. cbn [pcm]. rewrite rms_frame_of by done. rewrite Hres.
    specialize (Hle 500 ltac:(lia) HS). unfold gt_int, SILENCE_THRESHOLD.
    destruct m as [|p|p]; [done| |lia]. cbn [compare_int].
    destruct e as [|pe|pe]; [|lia|].
    - rewrite Z.pow_0_r in *. by destruct (Z.compare_spec (Z.pos p * 1) 500); try lia.
    - change (- Z.neg pe) with (Z.pos pe) in Hle.
      by destruct (Z.compare_spec (Z.pos p) (500 * 2 ^ Z.pos pe)); try lia. }
  assert (samples ≠ [] → 251001 * Z.of_nat (length samples) ≤ sum_squares samples →
          loud {| pcm := frame_of samples |} = true) as Hloud.
  { intros Hne HS.
    destruct (rms_formula_mono samples) as (m & e & Hm & He & Hres & _ & Hge);
      [done|done|].
    unfold loud. cbn [pcm]. rewrite rms_frame_of by done. rewrite Hres.
    specialize (Hge 501 ltac:(lia) HS). unfold gt_int, SILENCE_THRESHOLD.
    assert (0 < 2 ^ (- e)) by lia.
    destruct m as [|p|p]; [lia| |lia]. cbn [compare_int].
    destruct e as [|pe|pe]; [|lia|].
    - rewrite Z.pow_0_r in *. by destruct (Z.compare_spec (Z.pos p * 1) 500); try lia.
    - change (- Z.neg pe) with (Z.pos pe) in *.
      by destruct (Z.compare_spec (Z.pos p) (500 * 2 ^ Z.pos pe)); try lia. }
  split; [done|]. split; [done|]. split.
  - intros Hq. apply Hquiet.
    by apply (sum_squares_quiet 500).
  - intros Hne Hl. apply Hloud; [done|].
    apply (sum_squares_loud 501); [lia|].
    eapply Forall_impl; [exact Hl|]. unfold SILENCE_THRESHOLD. intros s. cbn. lia.
Qed.

Lemma threshold_is_an_amplitude_witness :
  loud {| pcm := frame_of [500; -500; 3; 4] |} = false ∧
  loud {| pcm := frame_of [501; -501; 3000; -4000] |} = true.
Proof.
  assert (Forall int16 [500; -500; 3; 4]) as H1
    by (repeat constructor; unfold int16; lia).
  assert (Forall int16 [501; -501; 3000; -4000]) as H2
    by (repeat constructor; unfold int16; lia).
  split.
  - apply (proj1 (proj2 (proj2 (threshold_is_an_amplitude [500; -500; 3; 4] H1)))).
    repeat constructor; unfold SILENCE_THRESHOLD; cbn; lia.
  - apply (proj2 (proj2 (proj2 (threshold_is_an_amplitude [501; -501; 3000; -4000] H2)))).
    + discriminate.
    + repeat constructor; unfold SILENCE_THRESHOLD; cbn; lia.
Defined.

(** ** From the first frame to the answer *)


